(** * piano-trainer: the MusicXML to JSON converter and the JSON song editor

    A shallow embedding of [scripts/conv.py] (class [MusicXMLConverter]) and
    of [scripts/edit_json.py] ([SongEditor.extract_measures]).

    Modelling conventions.
    - Python [int] is [Z].  Python [float] is modelled by exact rational
      arithmetic ([Q]); the comparison [==] of two floats is [Qeq].  The
      rounding of a float operation, the underflow of a small quotient to
      [0.0] and the [OverflowError] of [int / int] on a quotient beyond the
      range of a float are not modelled; bounds are stated in the non-strict
      form that rounding keeps, and amounts are taken in the range of a
      float where an overflow would matter.
    - A parsed XML element is a record holding the children the converter
      looks at; [int(elem.text)] is taken as already parsed.
    - [Note] objects are mutable and shared between [self.notes] and
      [self.active_ties]: they live in an object store ([heap]) and both
      containers hold references (indices) into it.
    - A [dict] is a [gmap]; the key [f"{voice}_{staff}"] is the string the
      code builds.
    - A raised Python exception is the [Raise] result; the converter state
      reached before the exception is dropped, as [convert_file] lets every
      exception escape. *)

From stdpp Require Import gmap strings list fin_maps pretty.
From Stdlib Require Import QArith Qround Qabs Lqa Sorted.

Open Scope Z_scope.

(** ** Exceptions and the converter monad *)

Inductive exn : Type :=
  | KeyError (key : string)      (* [d[k]] on a missing key *)
  | ZeroDivisionError            (* [a / 0] *)
  | ValueError.                  (* [max] of an empty sequence *)

Inductive result (A : Type) : Type :=
  | Ok (a : A)
  | Raise (e : exn).
Arguments Ok {A} a.
Arguments Raise {A} e.

(** ** Data model *)

(** [@dataclass class Note]. *)
Record Note : Type := mkNote {
  pitch : Z;
  beat : Q;
  duration : Q;
  velocity : Z;
  voice : string;
  staff : Z
}.

Definition set_beat (b : Q) (n : Note) : Note :=
  mkNote (pitch n) b (duration n) (velocity n) (voice n) (staff n).
Definition add_duration (d : Q) (n : Note) : Note :=
  mkNote (pitch n) (beat n) (duration n + d)%Q (velocity n) (voice n) (staff n).

#[global] Instance Note_inhabited : Inhabited Note :=
  populate (mkNote 0 0%Q 0%Q 80 "1" 1).

(** A reference to a [Note] object: its index in the object store. *)
Abbreviation ref := nat.

Abbreviation TieKey := (Z * string * Z)%type.

(** The fields of [MusicXMLConverter], and the store of [Note] objects. *)
Record Converter : Type := mkConverter {
  divisions : Z;
  current_beat : Q;
  notes : list ref;
  active_ties : gmap TieKey ref;
  chord_start_beat : Q;
  voice_beats : gmap string Q;
  heap : list Note
}.

(** [MusicXMLConverter.__init__]. *)
Definition init : Converter :=
  mkConverter 24 0%Q [] ∅ 0%Q ∅ [].

Definition set_divisions (v : Z) (c : Converter) : Converter :=
  mkConverter v (current_beat c) (notes c) (active_ties c)
              (chord_start_beat c) (voice_beats c) (heap c).
Definition set_current_beat (v : Q) (c : Converter) : Converter :=
  mkConverter (divisions c) v (notes c) (active_ties c)
              (chord_start_beat c) (voice_beats c) (heap c).
Definition set_notes (v : list ref) (c : Converter) : Converter :=
  mkConverter (divisions c) (current_beat c) v (active_ties c)
              (chord_start_beat c) (voice_beats c) (heap c).
Definition set_active_ties (v : gmap TieKey ref) (c : Converter) : Converter :=
  mkConverter (divisions c) (current_beat c) (notes c) v
              (chord_start_beat c) (voice_beats c) (heap c).
Definition set_chord_start_beat (v : Q) (c : Converter) : Converter :=
  mkConverter (divisions c) (current_beat c) (notes c) (active_ties c)
              v (voice_beats c) (heap c).
Definition set_voice_beats (v : gmap string Q) (c : Converter) : Converter :=
  mkConverter (divisions c) (current_beat c) (notes c) (active_ties c)
              (chord_start_beat c) v (heap c).
Definition set_heap (v : list Note) (c : Converter) : Converter :=
  mkConverter (divisions c) (current_beat c) (notes c) (active_ties c)
              (chord_start_beat c) (voice_beats c) v.

(** A method of the converter: reads and writes [self], may raise. *)
Definition M (A : Type) : Type := Converter -> result (A * Converter).

#[global] Instance M_ret : MRet M := fun A x c => Ok (x, c).
#[global] Instance M_bind : MBind M := fun A B f m c =>
  match m c with
  | Ok (x, c') => f x c'
  | Raise e => Raise e
  end.

Definition raise {A : Type} (e : exn) : M A := fun _ => Raise e.
Definition get : M Converter := fun c => Ok (c, c).
Definition modify (f : Converter -> Converter) : M unit := fun c => Ok (tt, f c).
Definition when (b : bool) (m : M unit) : M unit := if b then m else mret tt.

(** [for x in xs: body], with a loop-carried local [acc]. *)
Fixpoint for_each {A B : Type} (body : B -> A -> M B) (xs : list A) (acc : B) : M B :=
  match xs with
  | [] => mret acc
  | x :: xs' => acc' ← body acc x; for_each body xs' acc'
  end.

(** ** The parsed document *)

(** [<pitch>]: [<step>], optional [<alter>], [<octave>]. *)
Record pitch_elem : Type := mkPitch {
  p_step : string;
  p_alter : option Z;
  p_octave : Z
}.

(** [<note>]: the children [process_measure], [process_note_element] and
    [process_tie] look for. *)
Record note_elem : Type := mkNoteElem {
  e_voice : option string;
  e_staff : option Z;
  e_duration : option Z;
  e_rest : bool;
  e_pitch : option pitch_elem;
  e_chord : bool;
  e_tie_stop : bool;       (* a descendant [<tie type="stop">] *)
  e_tie_start : bool       (* a descendant [<tie type="start">] *)
}.

(** A child of [<measure>], by tag. *)
Inductive elem : Type :=
  | Attributes (e_divisions : option Z)
  | NoteElem (n : note_elem)
  | Backup (d : option Z)
  | Forward (d : option Z)
  | OtherElem (tag : string).

Definition measure : Type := list elem.
Definition part : Type := list measure.

Record document : Type := mkDocument {
  work_title : option string;   (* [<work><work-title>] *)
  parts : list part
}.

(** The emitted JSON note [{"pitch", "timing": {"beat", "duration"}, "velocity"}]. *)
Record json_note : Type := mkJson {
  j_pitch : Z;
  j_beat : Q;
  j_duration : Q;
  j_velocity : Z
}.

Record song : Type := mkSong {
  title : string;
  bpm : Z;
  song_notes : list json_note
}.

(** ** Pitch, duration, quantizer *)

Definition note_map : gmap string Z :=
  <["C" := 0]> (<["D" := 2]> (<["E" := 4]> (<["F" := 5]>
  (<["G" := 7]> (<["A" := 9]> (<["B" := 11]> ∅)))))).

(** [pitch_to_midi]: [note_map[step]] raises [KeyError] on an unknown step. *)
Definition pitch_to_midi (step : string) (alter : Z) (octave : Z) : result Z :=
  match note_map !! step with
  | Some off => Ok ((octave + 1) * 12 + off + alter)
  | None => Raise (KeyError step)
  end.

(** [duration / self.divisions], true division, as the exact quotient. *)
Definition duration_to_beats (d : Z) : M Q := fun c =>
  if decide (divisions c = 0) then Raise ZeroDivisionError
  else Ok ((inject_Z d / inject_Z (divisions c))%Q, c).

(** Python's [round(x)] on a float: nearest integer, ties to even. *)
Definition py_round (x : Q) : Z :=
  let f := Qfloor x in
  match (x - inject_Z f ?= 1 # 2)%Q with
  | Lt => f
  | Gt => f + 1
  | Eq => if Z.even f then f else f + 1
  end.

Definition Qltb (a b : Q) : bool := negb (Qle_bool b a).

Definition tolerance : Q := (1 # 10000)%Q.

(** [round_beat]. *)
Definition round_beat (beat : Q) : Q :=
  let rounded := py_round beat in
  if Qltb (Qabs (beat - inject_Z rounded)) tolerance then inject_Z rounded
  else
    let half_rounded := (inject_Z (py_round (beat * 2)) / 2)%Q in
    if Qltb (Qabs (beat - half_rounded)) tolerance then half_rounded
    else
      let quarter_rounded := (inject_Z (py_round (beat * 4)) / 4)%Q in
      if Qltb (Qabs (beat - quarter_rounded)) tolerance then quarter_rounded
      else beat.

(** ** The converter's methods *)

Definition lift {A : Type} (r : result A) : M A := fun c =>
  match r with
  | Ok a => Ok (a, c)
  | Raise e => Raise e
  end.

(** [Note(...)]: a new object in the store. *)
Definition alloc (n : Note) : M ref := fun c =>
  Ok (length (heap c), set_heap (heap c ++ [n]) c).
(** Reading the object behind a reference. *)
Definition deref (r : ref) : M Note := fun c => Ok (heap c !!! r, c).
(** Assigning to a field of the object behind a reference. *)
Definition update (r : ref) (f : Note -> Note) : M unit :=
  modify (fun c => set_heap (alter f r (heap c)) c).

(** [f"{voice}_{staff}"]. *)
Definition voice_key (voice : string) (staff : Z) : string :=
  voice +:+ "_" +:+ pretty staff.

Definition elem_voice (n : note_elem) : string := default "1"%string (e_voice n).
Definition elem_staff (n : note_elem) : Z := default 1 (e_staff n).

(** [if voice_key not in self.voice_beats:
       self.voice_beats[voice_key] = self.current_beat]. *)
Definition seed_voice (key : string) : M unit :=
  c ← get;
  match voice_beats c !! key with
  | None => modify (set_voice_beats (<[key := current_beat c]> (voice_beats c)))
  | Some _ => mret tt
  end.

(** The converter after that statement. *)
Definition seeded (key : string) (c : Converter) : Converter :=
  match voice_beats c !! key with
  | None => set_voice_beats (<[key := current_beat c]> (voice_beats c)) c
  | Some _ => c
  end.

(** [self.voice_beats[voice_key]]. *)
Definition get_voice_beat (key : string) : M Q :=
  c ← get;
  match voice_beats c !! key with
  | Some b => mret b
  | None => raise (KeyError key)
  end.

(** [process_note_element]: [None], or a reference to the new [Note]. *)
Definition process_note_element (n : note_elem) : M (option ref) :=
  let voice := elem_voice n in
  let staff := elem_staff n in
  match e_duration n with
  | None => mret None
  | Some d =>
    duration_beats ← duration_to_beats d;
    if e_rest n then mret None
    else
      match e_pitch n with
      | None => mret None
      | Some p =>
        midi_pitch ← lift (pitch_to_midi (p_step p) (default 0 (p_alter p)) (p_octave p));
        let key := voice_key voice staff in
        seed_voice key;;
        beat_position ← get_voice_beat key;
        r ← alloc (mkNote midi_pitch beat_position duration_beats 80 voice staff);
        mret (Some r)
      end
  end.

(** [process_tie]: whether the note is to be appended to [self.notes]. *)
Definition process_tie (n : note_elem) (r : ref) : M bool :=
  note ← deref r;
  let tie_key : TieKey := (pitch note, voice note, staff note) in
  c ← get;
  match (if e_tie_stop n then active_ties c !! tie_key else None) with
  | Some tied_note =>
    update tied_note (add_duration (duration note));;
    when (negb (e_tie_start n))
         (modify (fun c => set_active_ties (delete tie_key (active_ties c)) c));;
    mret false
  | None =>
    when (e_tie_start n)
         (modify (fun c => set_active_ties (<[tie_key := r]> (active_ties c)) c));;
    mret true
  end.

(** Python's [max(a, b)]: the first of the largest. *)
Definition py_max2 (a b : Q) : Q := if Qltb a b then b else a.

(** Python's [max(xs)]; raises on an empty sequence. *)
Definition py_max (xs : list Q) : result Q :=
  match xs with
  | [] => Raise ValueError
  | x :: xs' => Ok (fold_left py_max2 xs' x)
  end.

(** [max(self.voice_beats.values())].  The order in which the values are
    visited only decides which of several equal largest values is returned. *)
Definition max_voice_beat : M Q :=
  c ← get; lift (py_max ((map_to_list (voice_beats c)).*2)).

(** The [if note is not None:] block of [process_measure]. *)
Definition add_note (n : note_elem) (is_chord : bool) (r : ref) : M unit :=
  when is_chord (c ← get; update r (set_beat (chord_start_beat c)));;
  should_add ← process_tie n r;
  when should_add (modify (fun c => set_notes (notes c ++ [r]) c)).

(** The open tie entry a note [x] of element [n] is merged into, if any. *)
Definition open_tie (n : note_elem) (x : Note) (c : Converter) : option ref :=
  if e_tie_stop n then active_ties c !! (pitch x, voice x, staff x) else None.

(** The converter after [add_note n is_chord r], when [r] refers to [x0]. *)
Definition after_add_note (n : note_elem) (is_chord : bool) (r : ref) (x0 : Note)
    (c : Converter) : Converter :=
  let x := if is_chord then set_beat (chord_start_beat c) x0 else x0 in
  let c1 := if is_chord
            then set_heap (alter (set_beat (chord_start_beat c)) r (heap c)) c
            else c in
  match open_tie n x c with
  | Some a =>
    let c2 := set_heap (alter (add_duration (duration x)) a (heap c1)) c1 in
    if e_tie_start n then c2
    else set_active_ties (delete (pitch x, voice x, staff x) (active_ties c2)) c2
  | None =>
    let c2 := if e_tie_start n
              then set_active_ties (<[(pitch x, voice x, staff x) := r]> (active_ties c1)) c1
              else c1 in
    set_notes (notes c2 ++ [r]) c2
  end.

(** The onset [process_measure] gives a note of element [n]: the chord anchor
    for a chord note, else the cursor of its voice, seeded if need be. *)
Definition onset_of (n : note_elem) (c : Converter) : Q :=
  if e_chord n then chord_start_beat c
  else default (current_beat c)
               (voice_beats c !! voice_key (elem_voice n) (elem_staff n)).

(** The second [if not is_chord:] block of [process_measure]; returns the
    new value of the local [measure_duration]. *)
Definition advance_voice (key : string) (duration_beats : Q)
    (measure_start_beat measure_duration : Q) : M Q :=
  b ← get_voice_beat key;
  modify (fun c => set_voice_beats (<[key := (b + duration_beats)%Q]> (voice_beats c)) c);;
  top ← max_voice_beat;
  modify (set_current_beat top);;
  let current_position := (top - measure_start_beat)%Q in
  mret (py_max2 measure_duration current_position).

(** One iteration of the loop of [process_measure]; the loop-carried local
    [measure_duration] is passed in and returned. *)
Definition process_elem (measure_start_beat : Q) (measure_duration : Q) (e : elem) : M Q :=
  match e with
  | Attributes (Some v) => modify (set_divisions v);; mret measure_duration
  | Attributes None => mret measure_duration
  | NoteElem n =>
    let key := voice_key (elem_voice n) (elem_staff n) in
    duration_beats ← match e_duration n with
                     | Some d => duration_to_beats d
                     | None => mret 0%Q
                     end;
    let is_chord := e_chord n in
    seed_voice key;;
    when (negb is_chord) (b ← get_voice_beat key; modify (set_chord_start_beat b));;
    note ← process_note_element n;
    match note with
    | Some r => add_note n is_chord r
    | None => mret tt
    end;;
    if is_chord then mret measure_duration
    else advance_voice key duration_beats measure_start_beat measure_duration
  | Backup (Some d) =>
    backup_beats ← duration_to_beats d;
    modify (set_current_beat measure_start_beat);;
    mret measure_duration
  | Backup None => mret measure_duration
  | Forward (Some d) =>
    forward_beats ← duration_to_beats d;
    modify (fun c => set_current_beat (current_beat c + forward_beats)%Q c);;
    mret measure_duration
  | Forward None => mret measure_duration
  | OtherElem _ => mret measure_duration
  end.

(** [process_measure]. *)
Definition process_measure (m : measure) : M unit :=
  c ← get;
  let measure_start_beat := current_beat c in
  measure_duration ← for_each (process_elem measure_start_beat) m 0%Q;
  when (Qltb 0 measure_duration)
       (modify (set_current_beat (measure_start_beat + measure_duration)%Q)).

(** The body of [for part in root.findall('part')]. *)
Definition process_part (p : part) : M unit :=
  modify (set_current_beat 0%Q);;
  modify (set_voice_beats ∅);;
  for_each (fun _ m => process_measure m) p tt.

(** [list.sort(key=...)] is stable: an element goes in front of the first
    later element whose key is not smaller. *)
Fixpoint insert_by_beat (x : json_note) (l : list json_note) : list json_note :=
  match l with
  | [] => [x]
  | y :: l' => if Qltb (j_beat y) (j_beat x) then y :: insert_by_beat x l'
               else x :: y :: l'
  end.

Definition sort_by_beat (l : list json_note) : list json_note :=
  foldr insert_by_beat [] l.

Definition to_json (note : Note) : json_note :=
  mkJson (pitch note) (round_beat (beat note)) (round_beat (duration note))
         (velocity note).

(** [convert_file], without the file input and output: the parsed document
    in, the result dictionary out. *)
Definition convert_file (doc : document) : M song :=
  modify (set_current_beat 0%Q);;
  modify (set_notes []);;
  modify (set_active_ties ∅);;
  modify (set_voice_beats ∅);;
  let title := default "Untitled"%string (work_title doc) in
  for_each (fun _ p => process_part p) (parts doc) tt;;
  c ← get;
  let json_notes := map (fun r => to_json (heap c !!! r)) (notes c) in
  mret (mkSong title 120 (sort_by_beat json_notes)).

(** What [main] does: a fresh converter per run. *)
Definition convert (doc : document) : result song :=
  match convert_file doc init with
  | Ok (s, _) => Ok s
  | Raise e => Raise e
  end.

(** ** The song editor *)

(** [SongEditor.extract_measures]; the loop appends a rewritten copy of every
    note in range. *)
Definition extract_notes (start_beat end_beat : Z) (notes : list json_note) : list json_note :=
  fold_left
    (fun extracted_notes note =>
       let note_beat := j_beat note in
       if Qle_bool (inject_Z start_beat) note_beat && Qltb note_beat (inject_Z end_beat)
       then extracted_notes ++
            [mkJson (j_pitch note) (note_beat - inject_Z start_beat)%Q
                    (j_duration note) (j_velocity note)]
       else extracted_notes)
    notes [].

Definition extract_measures (s : song) (start_measure end_measure beats_per_measure : Z) : song :=
  let start_beat := (start_measure - 1) * beats_per_measure in
  let end_beat := end_measure * beats_per_measure in
  mkSong (title s +:+ " (小節 " +:+ pretty start_measure +:+ "-" +:+ pretty end_measure +:+ ")")
         (bpm s)
         (extract_notes start_beat end_beat (song_notes s)).

(** ** Sample documents *)

Definition plain_note (st : string) (oct : Z) (d : Z) : note_elem :=
  mkNoteElem None None (Some d) false (Some (mkPitch st None oct)) false false false.

Definition two_quarters : document :=
  mkDocument None
    [[[Attributes (Some 24);
       NoteElem (plain_note "C" 4 24);
       NoteElem (plain_note "C" 4 24)]]].

(** The seven step letters of [note_map]. *)
Definition known_steps : list string := ["C"; "D"; "E"; "F"; "G"; "A"; "B"]%string.

(** The test of the loop of [extract_measures], and the rewritten copy. *)
Definition in_range (start_beat end_beat : Z) (note : json_note) : bool :=
  Qle_bool (inject_Z start_beat) (j_beat note) && Qltb (j_beat note) (inject_Z end_beat).
Definition shift_beat (start_beat : Z) (note : json_note) : json_note :=
  mkJson (j_pitch note) (j_beat note - inject_Z start_beat)%Q
         (j_duration note) (j_velocity note).

(** ** Well-formed input and the timing invariant *)





(** Partial correctness of a method: from [P], if it returns, [Q] holds of
    the value and the converter. *)
Definition hoare {A : Type} (P : Converter -> Prop) (m : M A)
    (Q : A -> Converter -> Prop) : Prop :=
  forall c, P c -> match m c with Ok (x, c') => Q x c' | Raise _ => True end.

(** ** More sample documents *)

Definition tied_note (st : string) (oct : Z) (d : Z) (stop start : bool) : note_elem :=
  mkNoteElem None None (Some d) false (Some (mkPitch st None oct)) false stop start.

(** The two quarters of [two_quarters], tied. *)
Definition tied_quarters : document :=
  mkDocument None
    [[[Attributes (Some 24);
       NoteElem (tied_note "C" 4 24 false true);
       NoteElem (tied_note "C" 4 24 true false)]]].

(** A chain of three tied quarters: the middle one stops and starts a tie. *)
Definition tie_chain : document :=
  mkDocument None
    [[[Attributes (Some 24);
       NoteElem (tied_note "C" 4 24 false true);
       NoteElem (tied_note "C" 4 24 true true);
       NoteElem (tied_note "C" 4 24 true false)]]].

(** C4 and, flagged as a chord note, E4. *)
Definition chord_c_e : document :=
  mkDocument None
    [[[Attributes (Some 24);
       NoteElem (plain_note "C" 4 24);
       NoteElem (mkNoteElem None None (Some 24) false (Some (mkPitch "E" None 4))
                            true false false)]]].

(** A step letter that is not in [note_map]. *)
Definition unknown_step : document :=
  mkDocument None [[[NoteElem (plain_note "H" 4 24)]]].

(** A tie opened in the first part and closed in the second. *)
Definition tie_across_parts : document :=
  mkDocument None
    [[[Attributes (Some 24); NoteElem (tied_note "C" 4 24 false true)]];
     [[NoteElem (tied_note "C" 4 24 true false)]]].

(** The second part of [tie_across_parts] on its own. *)
Definition second_part_alone : document :=
  mkDocument None [[[NoteElem (tied_note "C" 4 24 true false)]]].

(** A note element without [<duration>] (a grace note). *)
Definition no_duration_note : note_elem :=
  mkNoteElem None None None false (Some (mkPitch "C" None 4)) false false false.


(** A converter in the middle of a part: voice 1 of staff 1 at beat 1, an
    open tie on C4 held by the first [Note], and a second C4 just created. *)
Definition mid_part : Converter :=
  mkConverter 24 1%Q [0%nat] (<[(60, "1"%string, 1) := 0%nat]> ∅) 0%Q
              (<["1_1"%string := 1%Q]> ∅)
              [mkNote 60 0%Q 1%Q 80 "1" 1; mkNote 60 1%Q 1%Q 80 "1" 1].

Definition second_voice_note : note_elem :=
  mkNoteElem (Some "2"%string) None (Some 24) false (Some (mkPitch "E" None 4))
             false false false.

(** ** The rest of the song editor *)

(** The loaded JSON dictionary; each of its keys may be missing. *)
Record song_data : Type := mkSongData {
  sd_title : option string;
  sd_bpm : option Z;
  sd_notes : option (list json_note)
}.

(** [SongEditor.__init__]: the three attributes, read with [.get]. *)
Definition SongEditor (d : song_data) : song :=
  mkSong (default "Untitled"%string (sd_title d)) (default 120 (sd_bpm d))
         (default [] (sd_notes d)).

(** A result dictionary of the editor, which has all three keys. *)
Definition to_data (s : song) : song_data :=
  mkSongData (Some (title s)) (Some (bpm s)) (Some (song_notes s)).

(** The loop of [SongEditor.filter_by_pitch]: [continue] below the lower
    bound, [continue] above the upper bound, else append a copy. *)
Definition filter_notes (min_pitch max_pitch : option Z) (notes : list json_note)
    : list json_note :=
  fold_left
    (fun filtered_notes note =>
       let pitch := j_pitch note in
       if match min_pitch with Some lo => pitch <? lo | None => false end
       then filtered_notes
       else if match max_pitch with Some hi => hi <? pitch | None => false end
            then filtered_notes
            else filtered_notes ++ [note])
    notes [].

(** [SongEditor.filter_by_pitch]. *)
Definition filter_by_pitch (s : song) (min_pitch max_pitch : option Z) : song :=
  let title_suffix :=
    match min_pitch with Some lo => ["≥" +:+ pretty lo] | None => [] end ++
    match max_pitch with Some hi => ["≤" +:+ pretty hi] | None => [] end in
  let new_title :=
    match title_suffix with
    | [] => title s
    | _ => title s +:+ " (" +:+ String.concat ", " title_suffix +:+ ")"
    end in
  mkSong new_title (bpm s) (filter_notes min_pitch max_pitch (song_notes s)).

(** [SongEditor.filter_right_hand] and [SongEditor.filter_left_hand]. *)
Definition filter_right_hand (s : song) (threshold : Z) : song :=
  let result := filter_by_pitch s (Some threshold) None in
  mkSong (title s +:+ " (右手)") (bpm result) (song_notes result).

Definition filter_left_hand (s : song) (threshold : Z) : song :=
  let result := filter_by_pitch s None (Some (threshold - 1)) in
  mkSong (title s +:+ " (左手)") (bpm result) (song_notes result).

(** The parsed command line of [edit_json.py]. *)
Record args : Type := mkArgs {
  a_measures : option (Z * Z);
  a_beats : Z;
  a_right_hand : bool;
  a_left_hand : bool;
  a_threshold : Z;
  a_min_pitch : option Z;
  a_max_pitch : option Z
}.

(** The truth value Python gives an optional integer: [None] and [0] are
    false. *)
Definition truthy (o : option Z) : bool :=
  match o with
  | Some v => negb (v =? 0)
  | None => false
  end.

Inductive outcome : Type :=
  | Exit (code : Z)               (* [sys.exit(code)], nothing saved *)
  | Saved (result : song_data).   (* the dictionary given to [save_json] *)

(** [main] of [edit_json.py], from the parsed arguments and the loaded
    dictionary to what is saved; the messages it prints are left out. *)
Definition edit_main (a : args) (d : song_data) : outcome :=
  if a_right_hand a && a_left_hand a then Exit 1
  else if (a_right_hand a || a_left_hand a)
          && (truthy (a_min_pitch a) || truthy (a_max_pitch a)) then Exit 1
  else
    let '(editor, result) :=
      match a_measures a with
      | Some (start, end_) =>
        let r := extract_measures (SongEditor d) start end_ (a_beats a) in
        (SongEditor (to_data r), to_data r)
      | None => (SongEditor d, d)
      end in
    if a_right_hand a then Saved (to_data (filter_right_hand editor (a_threshold a)))
    else if a_left_hand a then Saved (to_data (filter_left_hand editor (a_threshold a)))
    else if bool_decide (is_Some (a_min_pitch a)) || bool_decide (is_Some (a_max_pitch a))
         then Saved (to_data (filter_by_pitch editor (a_min_pitch a) (a_max_pitch a)))
         else Saved result.

(** The test of the loop of [filter_by_pitch]. *)
Definition pitch_in (min_pitch max_pitch : option Z) (note : json_note) : bool :=
  match min_pitch with Some lo => lo <=? j_pitch note | None => true end &&
  match max_pitch with Some hi => j_pitch note <=? hi | None => true end.

(** ** The output of a conversion, for the further properties *)

(** The notes [convert_file] serializes, in the order they were emitted. *)
Definition emitted (c : Converter) : list json_note :=
  map (fun r => to_json (heap c !!! r)) (notes c).

(** The order of the final sort. *)
Definition beat_le (x y : json_note) : Prop := (j_beat x <= j_beat y)%Q.

(** The notes at beat [q]. *)
Definition at_beat (q : Q) (x : json_note) : bool := Qeq_bool (j_beat x) q.

(** An amount whose quotient by any divisions other than 0 is within the
    range of a Python float, so that [duration / self.divisions] cannot raise
    [OverflowError]. *)
Definition in_float_range (d : Z) : Prop := Z.abs d < 2 ^ 1023.

(** Two elements that are the same, or two backups of any two amounts in
    that range. *)
Inductive same_but_backup : elem -> elem -> Prop :=
  | sbb_backup (d1 d2 : Z) :
      in_float_range d1 -> in_float_range d2 ->
      same_but_backup (Backup (Some d1)) (Backup (Some d2))
  | sbb_same (e : elem) : same_but_backup e e.

(** The length in beats of a note element under [div] divisions; 0 without
    a duration, as in [process_measure]. *)
Definition elem_beats (div : Z) (n : note_elem) : Q :=
  match e_duration n with
  | Some d => (inject_Z d / inject_Z div)%Q
  | None => 0%Q
  end.

(** A note element that sounds: it has a duration, is no rest, and its pitch
    resolves to [m]. *)
Definition sounds (n : note_elem) (m : Z) : Prop :=
  is_Some (e_duration n) /\ e_rest n = false /\
  exists p, e_pitch n = Some p /\
    pitch_to_midi (p_step p) (default 0 (p_alter p)) (p_octave p) = Ok m.

(** The shape of the object store, the output list and the tie table:
    every emitted reference is an object of the store, none is emitted
    twice, every open tie is held by an emitted note, and every [Note] has
    the default velocity. *)
Definition wf_parts (h : list Note) (ns : list ref) (ts : gmap TieKey ref) : Prop :=
  Forall (fun r => (r < length h)%nat) ns /\
  NoDup ns /\
  (forall k a, ts !! k = Some a -> a ∈ ns) /\
  Forall (fun x => velocity x = 80) h.

Definition wf (c : Converter) : Prop :=
  wf_parts (heap c) (notes c) (active_ties c).

(** A [Note] as it was, but for its duration. *)
Definition same_but_duration (x x' : Note) : Prop :=
  pitch x' = pitch x /\ beat x' = beat x /\ velocity x' = velocity x /\
  voice x' = voice x /\ staff x' = staff x.

(** Every object of the store [h] is still in [h'], changed at most in its
    duration. *)
Definition keeps (h h' : list Note) : Prop :=
  forall i x, h !! i = Some x -> exists x', h' !! i = Some x' /\ same_but_duration x x'.

(** ** Positions in a document *)

(** The start of [convert_file], up to a point inside a measure: the parts
    [ps] are done, of the next part the measures [ms], and of its next
    measure the children [es].  Returns the two locals of [process_measure],
    [measure_start_beat] and [measure_duration] so far. *)
Definition convert_upto (ps : list part) (ms : list measure) (es : list elem) : M (Q * Q) :=
  modify (set_current_beat 0%Q);;
  modify (set_notes []);;
  modify (set_active_ties ∅);;
  modify (set_voice_beats ∅);;
  for_each (fun _ p => process_part p) ps tt;;
  modify (set_current_beat 0%Q);;
  modify (set_voice_beats ∅);;
  for_each (fun _ m => process_measure m) ms tt;;
  c ← get;
  let measure_start_beat := current_beat c in
  measure_duration ← for_each (process_elem measure_start_beat) es 0%Q;
  mret (measure_start_beat, measure_duration).

(** The end of the loop of [process_measure]: the cursor is put at the end
    of the longest voice. *)
Definition end_measure (measure_start_beat measure_duration : Q) (c : Converter) : Converter :=
  if Qltb 0 measure_duration
  then set_current_beat (measure_start_beat + measure_duration)%Q c
  else c.

(** The rest of [convert_file] from such a point: the children [es] that are
    left of the measure, the measures [ms] that are left of the part, and the
    parts [ps] that are left of the document. *)
Definition convert_from (measure_start_beat measure_duration : Q) (es : list elem)
    (ms : list measure) (ps : list part) (title : string) : M song :=
  measure_duration ← for_each (process_elem measure_start_beat) es measure_duration;
  when (Qltb 0 measure_duration)
       (modify (set_current_beat (measure_start_beat + measure_duration)%Q));;
  for_each (fun _ m => process_measure m) ms tt;;
  for_each (fun _ p => process_part p) ps tt;;
  c ← get;
  let json_notes := map (fun r => to_json (heap c !!! r)) (notes c) in
  mret (mkSong title 120 (sort_by_beat json_notes)).

(** The elements that follow such a point, in document order. *)
Definition following (es : list elem) (ms : list measure) (ps : list part) : list elem :=
  es ++ concat ms ++ concat (concat ps).

(** Whether an element is a note element. *)
Definition is_note (e : elem) : bool :=
  match e with
  | NoteElem _ => true
  | _ => false
  end.

(** The divisions in force at the next note element of [es], when they are
    [dv] at the start of [es]. *)
Fixpoint declared (dv : Z) (es : list elem) : Z :=
  match es with
  | [] => dv
  | NoteElem _ :: _ => dv
  | Attributes (Some v) :: es' => declared v es'
  | _ :: es' => declared dv es'
  end.

(** An element with a duration, which the measure processor divides by the
    divisions. *)
Definition timed (e : elem) : bool :=
  match e with
  | NoteElem n => bool_decide (is_Some (e_duration n))
  | Backup (Some _) | Forward (Some _) => true
  | _ => false
  end.

(** A declaration of divisions other than 0. *)
Definition redeclares (e : elem) : bool :=
  match e with
  | Attributes (Some v) => negb (v =? 0)
  | _ => false
  end.

(** The fields the tie merger works on are as given, and at the next note
    element of [es] the divisions will be [dv]. *)
Definition held (h : list Note) (ns : list ref) (ts : gmap TieKey ref) (dv : Z)
    (es : list elem) (c : Converter) : Prop :=
  heap c = h /\ notes c = ns /\ active_ties c = ts /\ declared (divisions c) es = dv.

(** The object [r] is [x] and the object after it is [x2]; [r] sits in the
    output list right after [base], what follows it there is younger than
    both, and no open tie refers to either. *)
Definition settled (r : ref) (x x2 : Note) (base : list ref) (c : Converter) : Prop :=
  heap c !! r = Some x /\
  heap c !! S r = Some x2 /\
  (exists later, notes c = base ++ r :: later /\
                 Forall (fun a => (S r < a)%nat) later) /\
  (forall k a, active_ties c !! k = Some a -> a <> r /\ a <> S r).

(** A tie over a barline. *)
Definition tie_over_barline : document :=
  mkDocument None
    [[[Attributes (Some 24); NoteElem (tied_note "C" 4 24 false true);
       OtherElem "barline"];
      [Attributes None; NoteElem (tied_note "C" 4 24 true false)]]].

(** Divisions of 0 declared in the middle of a part; the first element with
    a duration after it is a note with an unknown step letter, in the next
    measure. *)
Definition zero_divisions_later : document :=
  mkDocument None
    [[[Attributes (Some 24); NoteElem (plain_note "C" 4 24);
       Attributes (Some 0); OtherElem "barline"];
      [Attributes None; NoteElem no_duration_note; NoteElem (plain_note "H" 4 24);
       NoteElem (plain_note "C" 4 24)]]].

(* ================================================================== *)
(** * Properties *)

(** Unfolding of the monad operations. *)
Ltac run :=
  repeat (cbv beta iota delta
            [mbind M_bind mret M_ret modify get raise when lift alloc deref update];
          simpl).

Lemma Qltb_lt (a b : Q) : Qltb a b = true <-> (a < b)%Q.
Proof.
  unfold Qltb. rewrite negb_true_iff, <- not_true_iff_false, Qle_bool_iff.
  split; [apply Qnot_le_lt | apply Qlt_not_le].
Qed.

Lemma Qltb_ge (a b : Q) : Qltb a b = false <-> (b <= a)%Q.
Proof. unfold Qltb. rewrite negb_false_iff. apply Qle_bool_iff. Qed.

(** ** C1: the end-to-end example *)

(** C1. With divisions declared as 24, two sequential untied non-chord notes
    C4 of duration 24 convert to exactly the notes (60, beat 0, duration 1,
    velocity 80) and (60, beat 1, duration 1, velocity 80), in that order. *)
Theorem convert_two_quarters :
  convert two_quarters =
  Ok (mkSong "Untitled" 120 [mkJson 60 0%Q 1%Q 80; mkJson 60 1%Q 1%Q 80]).
Proof. vm_compute. reflexivity. Qed.

(** The other end-to-end examples of the specification. *)
Example convert_tied_quarters :
  convert tied_quarters = Ok (mkSong "Untitled" 120 [mkJson 60 0%Q 2%Q 80]).
Proof. vm_compute. reflexivity. Qed.

(** A chain is one note too: the middle note is absorbed by the anchor and
    keeps the entry open for the last one. *)
Example convert_tie_chain :
  convert tie_chain = Ok (mkSong "Untitled" 120 [mkJson 60 0%Q 3%Q 80]).
Proof. vm_compute. reflexivity. Qed.

Example convert_chord_c_e :
  convert chord_c_e =
  Ok (mkSong "Untitled" 120 [mkJson 60 0%Q 1%Q 80; mkJson 64 0%Q 1%Q 80]).
Proof. vm_compute. reflexivity. Qed.

Example convert_unknown_step : convert unknown_step = Raise (KeyError "H").
Proof. vm_compute. reflexivity. Qed.

Example round_beat_samples :
  round_beat (100001 # 100000) = 1%Q /\ round_beat (149999 # 100000) = (3 # 2)%Q /\
  round_beat (1 # 3) = (1 # 3)%Q /\ py_round (5 # 2) = 2 /\ py_round (7 # 2) = 4.
Proof. vm_compute. repeat split. Qed.

(** ** C8: pitch resolution *)

Lemma note_map_unknown (s : string) : s ∉ known_steps -> note_map !! s = None.
Proof.
  intros Hs. unfold note_map, known_steps in *.
  repeat (rewrite lookup_insert_ne; [| intros <-; apply Hs; set_solver]).
  apply lookup_empty.
Qed.

Lemma note_map_known (s : string) : s ∈ known_steps -> is_Some (note_map !! s).
Proof.
  unfold known_steps. rewrite !elem_of_cons, elem_of_nil.
  intros H. repeat (destruct H as [-> | H]; [vm_compute; eauto |]). destruct H.
Qed.

(** *** Stepping through a method *)

Lemma bind_ok {A B : Type} (m : M A) (f : A -> M B) (c c' : Converter) (x : A) :
  m c = Ok (x, c') -> (m ≫= f) c = f x c'.
Proof. intros H. unfold mbind, M_bind. now rewrite H. Qed.

Lemma bind_raise {A B : Type} (m : M A) (f : A -> M B) (c : Converter) (e : exn) :
  m c = Raise e -> (m ≫= f) c = Raise e.
Proof. intros H. unfold mbind, M_bind. now rewrite H. Qed.

Lemma duration_to_beats_ok (d : Z) (c : Converter) :
  divisions c <> 0 ->
  duration_to_beats d c = Ok ((inject_Z d / inject_Z (divisions c))%Q, c).
Proof. intros H. unfold duration_to_beats. now destruct (decide (divisions c = 0)). Qed.

Lemma seed_voice_ok (key : string) (c : Converter) :
  seed_voice key c = Ok (tt, seeded key c).
Proof. unfold seed_voice, seeded. run. now destruct (voice_beats c !! key). Qed.

Lemma lookup_seeded (key : string) (c : Converter) :
  voice_beats (seeded key c) !! key =
  Some (default (current_beat c) (voice_beats c !! key)).
Proof.
  unfold seeded. destruct (voice_beats c !! key) eqn:E; simpl; [done |].
  apply lookup_insert_eq.
Qed.

Lemma get_voice_beat_ok (key : string) (c : Converter) (b : Q) :
  voice_beats c !! key = Some b -> get_voice_beat key c = Ok (b, c).
Proof. intros H. unfold get_voice_beat. run. now rewrite H. Qed.

Lemma set_anchor_ok (key : string) (is_chord : bool) (c : Converter) (b : Q) :
  voice_beats c !! key = Some b ->
  when (negb is_chord) (b ← get_voice_beat key; modify (set_chord_start_beat b)) c
  = Ok (tt, if is_chord then c else set_chord_start_beat b c).
Proof.
  intros H. destruct is_chord; simpl; [reflexivity |].
  now erewrite bind_ok by (apply get_voice_beat_ok, H).
Qed.

Lemma divisions_seeded (key : string) (c : Converter) :
  divisions (seeded key c) = divisions c.
Proof. unfold seeded. now destruct (_ !! _). Qed.

(** C8. A step letter outside C, D, E, F, G, A, B makes pitch resolution
    raise (the [KeyError] of [note_map[step]], the spec's InvalidPitchStep),
    and the measure processor lets the error escape instead of emitting a
    note with a default pitch; for a letter of the table the result is the
    plain sum [(octave + 1) * 12 + offset + alter], whatever its range. *)
Theorem pitch_step_resolution (s : string) (alt octave : Z) :
  (s ∈ known_steps ->
   exists off, note_map !! s = Some off /\
     pitch_to_midi s alt octave = Ok ((octave + 1) * 12 + off + alt)) /\
  (s ∉ known_steps ->
   pitch_to_midi s alt octave = Raise (KeyError s) /\
   forall (n : note_elem) (c : Converter) (d : Z) (start md : Q) (a : option Z),
     e_duration n = Some d -> divisions c <> 0 -> e_rest n = false ->
     e_pitch n = Some (mkPitch s a octave) -> default 0 a = alt ->
     process_elem start md (NoteElem n) c = Raise (KeyError s)).
Proof.
  split.
  - intros Hs. destruct (note_map_known s Hs) as [off Hoff].
    exists off. unfold pitch_to_midi. now rewrite Hoff.
  - intros Hs.
    assert (Hp : pitch_to_midi s alt octave = Raise (KeyError s)).
    { unfold pitch_to_midi. now rewrite (note_map_unknown s Hs). }
    split; [exact Hp |].
    intros n c d start md a Hd Hdiv Hrest Hpitch Ha.
    unfold process_elem. rewrite Hd.
    erewrite bind_ok by (now apply duration_to_beats_ok).
    erewrite bind_ok by apply seed_voice_ok.
    erewrite bind_ok by (apply set_anchor_ok, lookup_seeded).
    apply bind_raise.
    unfold process_note_element. rewrite Hd, Hrest, Hpitch.
    erewrite bind_ok.
    2:{ apply duration_to_beats_ok. destruct (e_chord n); simpl; now rewrite divisions_seeded. }
    apply bind_raise. simpl. rewrite Ha, Hp. reflexivity.
Qed.

(** The letters C and H, and a note element with step H. *)
Lemma pitch_step_resolution_witness :
  (exists off, note_map !! "C"%string = Some off /\
     pitch_to_midi "C" 0 4 = Ok ((4 + 1) * 12 + off + 0)) /\
  pitch_to_midi "H" 0 4 = Raise (KeyError "H") /\
  process_elem 0%Q 0%Q (NoteElem (plain_note "H" 4 24)) init = Raise (KeyError "H").
Proof.
  pose proof (proj1 (pitch_step_resolution "C" 0 4)) as Hin.
  pose proof (proj2 (pitch_step_resolution "H" 0 4)) as Hout.
  split; [apply Hin; unfold known_steps; apply elem_of_cons; now left |].
  assert (Hn : "H"%string ∉ known_steps).
  { unfold known_steps. rewrite !not_elem_of_cons. repeat split; try discriminate.
    apply not_elem_of_nil. }
  destruct (Hout Hn) as [H1 H2].
  split; [exact H1 |].
  apply (H2 (plain_note "H" 4 24) init 24 0%Q 0%Q None); try reflexivity.
  discriminate.
Defined.

(** ** C9: measure extraction *)

Lemma extract_notes_acc (a b : Z) (l acc : list json_note) :
  fold_left
    (fun extracted_notes note =>
       let note_beat := j_beat note in
       if Qle_bool (inject_Z a) note_beat && Qltb note_beat (inject_Z b)
       then extracted_notes ++
            [mkJson (j_pitch note) (note_beat - inject_Z a)%Q
                    (j_duration note) (j_velocity note)]
       else extracted_notes)
    l acc
  = acc ++ map (shift_beat a) (List.filter (in_range a b) l).
Proof.
  revert acc. induction l as [| x l IH]; intros acc; simpl.
  - now rewrite app_nil_r.
  - rewrite IH. unfold in_range at 2.
    destruct (Qle_bool (inject_Z a) (j_beat x) && Qltb (j_beat x) (inject_Z b)); simpl.
    + now rewrite <- app_assoc.
    + reflexivity.
Qed.

Lemma in_range_spec (a b : Z) (note : json_note) :
  in_range a b note = true <->
  (inject_Z a <= j_beat note /\ j_beat note < inject_Z b)%Q.
Proof. unfold in_range. now rewrite andb_true_iff, Qle_bool_iff, Qltb_lt. Qed.

(** C9. Measure extraction keeps, in order, exactly the notes whose beat [b]
    satisfies [(start - 1) * bpm <= b < end * bpm], each rewritten with beat
    [b - (start - 1) * bpm] and its pitch, duration and velocity unchanged. *)
Theorem extract_measures_exact (s : song) (start_measure end_measure beats_per_measure : Z) :
  let start_beat := (start_measure - 1) * beats_per_measure in
  let end_beat := end_measure * beats_per_measure in
  song_notes (extract_measures s start_measure end_measure beats_per_measure) =
    map (shift_beat start_beat) (List.filter (in_range start_beat end_beat) (song_notes s)) /\
  (forall note, in_range start_beat end_beat note = true <->
     (inject_Z start_beat <= j_beat note /\ j_beat note < inject_Z end_beat)%Q) /\
  (forall note,
     j_beat (shift_beat start_beat note) = (j_beat note - inject_Z start_beat)%Q /\
     j_pitch (shift_beat start_beat note) = j_pitch note /\
     j_duration (shift_beat start_beat note) = j_duration note /\
     j_velocity (shift_beat start_beat note) = j_velocity note).
Proof.
  intros start_beat end_beat. split; [| split].
  - unfold extract_measures, extract_notes. simpl. apply extract_notes_acc.
  - intros note. apply in_range_spec.
  - intros note. repeat split.
Qed.

(** ** C10: the frame of a tie merge *)

(** C10. When [process_tie] handles a note with a tie-stop marker whose key
    has an open entry, the anchor it refers to only has the note's duration
    added to its duration (pitch, beat, voice, staff and velocity stay), every
    other [Note] object is untouched, and the output list is as before. *)
Theorem process_tie_frame (n : note_elem) (r a : ref) (c : Converter) :
  let note := heap c !!! r in
  e_tie_stop n = true ->
  active_ties c !! (pitch note, voice note, staff note) = Some a ->
  exists c', process_tie n r c = Ok (false, c') /\
    notes c' = notes c /\
    length (heap c') = length (heap c) /\
    (forall j, j <> a -> heap c' !! j = heap c !! j) /\
    (forall x, heap c !! a = Some x ->
       exists x', heap c' !! a = Some x' /\
         duration x' = (duration x + duration note)%Q /\
         pitch x' = pitch x /\ beat x' = beat x /\ voice x' = voice x /\
         staff x' = staff x /\ velocity x' = velocity x).
Proof.
  intros note Hstop Hopen. unfold process_tie.
  erewrite bind_ok by reflexivity. erewrite bind_ok by reflexivity.
  fold note. rewrite Hstop, Hopen.
  destruct (e_tie_start n);
    unfold update, when, modify, mbind, M_bind, mret, M_ret; cbn [negb];
    (eexists; split; [reflexivity |];
     cbn [heap notes set_heap set_active_ties];
     split; [reflexivity |];
     split; [apply length_alter |];
     split; [intros j Hj; now apply list_lookup_alter_ne |];
     intros x Hx; rewrite list_lookup_alter_eq, Hx; simpl;
     eexists; split; [reflexivity |]; simpl; repeat split).
Qed.

(** ** C7: the quantizer *)

Lemma py_round_comp (x y : Q) : (x == y)%Q -> py_round x = py_round y.
Proof.
  intros H. unfold py_round. rewrite (Qfloor_comp x y H).
  assert (E : (x - inject_Z (Qfloor y) ?= 1 # 2)%Q = (y - inject_Z (Qfloor y) ?= 1 # 2)%Q).
  { apply Qcompare_comp; [now rewrite H | reflexivity]. }
  now rewrite E.
Qed.

Lemma py_round_inject (z : Z) : py_round (inject_Z z) = z.
Proof.
  unfold py_round. rewrite Qfloor_Z.
  assert (H : (inject_Z z - inject_Z z ?= 1 # 2)%Q = Lt).
  { assert (E : (inject_Z z - inject_Z z == 0)%Q) by ring. now rewrite E. }
  now rewrite H.
Qed.

(** A value on the quarter grid within the tolerance of a value on a coarser
    grid is that value. *)
Lemma grid_close (k r : Z) (d : positive) :
  (Z.pos d | 4) ->
  (Qabs (inject_Z k / 4 - inject_Z r / inject_Z (Z.pos d)) < tolerance)%Q ->
  (inject_Z r / inject_Z (Z.pos d) == inject_Z k / 4)%Q.
Proof.
  intros Hd H. apply Qabs_Qlt_condition in H. destruct H as [H1 H2].
  assert (Hd' : d = 1%positive \/ d = 2%positive \/ d = 4%positive).
  { destruct Hd as [q Hq]. assert (0 < q <= 4) by lia.
    assert (q = 1 \/ q = 2 \/ q = 3 \/ q = 4) as [-> | [-> | [-> | ->]]] by lia; lia. }
  destruct Hd' as [-> | [-> | ->]];
    unfold Qlt, Qeq, Qminus, Qplus, Qopp, Qdiv, Qmult, Qinv, inject_Z, tolerance in *;
    simpl in *; lia.
Qed.

Lemma round_beat_grid (y : Q) (k : Z) :
  (y == inject_Z k / 4)%Q -> (round_beat y == y)%Q.
Proof.
  intros Hy. unfold round_beat.
  assert (H2 : (y * 2 == inject_Z k / 4 * 2)%Q) by now rewrite Hy.
  assert (H4 : (y * 4 == inject_Z k)%Q) by (rewrite Hy; field).
  rewrite (py_round_comp y _ Hy), (py_round_comp _ _ H2), (py_round_comp _ _ H4).
  rewrite py_round_inject.
  set (r := py_round (inject_Z k / 4)). set (h := py_round (inject_Z k / 4 * 2)).
  destruct (Qltb (Qabs (y - inject_Z r)) tolerance) eqn:E1.
  { apply Qltb_lt in E1. rewrite Hy in E1 |- *.
    pose proof (grid_close k r 1) as G.
    assert (E : forall q : Q, (q / inject_Z 1 == q)%Q) by (intros q; unfold inject_Z; field).
    rewrite !E in G. apply G; [now exists 4 | exact E1]. }
  destruct (Qltb (Qabs (y - inject_Z h / 2)) tolerance) eqn:E2.
  { apply Qltb_lt in E2. rewrite Hy in E2 |- *.
    apply (grid_close k h 2); [now exists 2 | exact E2]. }
  destruct (Qltb (Qabs (y - inject_Z k / 4)) tolerance) eqn:E3.
  { now symmetry. }
  reflexivity.
Qed.

(** What [round_beat] returns: its argument, or a value of the quarter grid. *)
Lemma round_beat_cases (x : Q) :
  round_beat x = x \/ exists k, (round_beat x == inject_Z k / 4)%Q.
Proof.
  unfold round_beat.
  destruct (Qltb _ _).
  { right. exists (4 * py_round x). rewrite inject_Z_mult. field. }
  destruct (Qltb _ _).
  { right. exists (2 * py_round (x * 2)). rewrite inject_Z_mult. field. }
  destruct (Qltb _ _).
  { right. eexists. reflexivity. }
  now left.
Qed.

(** C7. The beat quantizer is idempotent. *)
Theorem round_beat_idempotent (x : Q) :
  (round_beat (round_beat x) == round_beat x)%Q.
Proof.
  destruct (round_beat_cases x) as [H | [k H]].
  - rewrite !H. reflexivity.
  - now apply (round_beat_grid _ k).
Qed.

(** ** Stepping through the measure processor *)

Lemma seeded_id (key : string) (c : Converter) (b : Q) :
  voice_beats c !! key = Some b -> seeded key c = c.
Proof. intros H. unfold seeded. now rewrite H. Qed.

Lemma process_note_element_no_duration (n : note_elem) (c : Converter) :
  e_duration n = None -> process_note_element n c = Ok (None, c).
Proof. intros H. unfold process_note_element. now rewrite H. Qed.

Lemma process_note_element_ok (n : note_elem) (c : Converter) (d m : Z)
    (p : pitch_elem) (b : Q) :
  divisions c <> 0 -> e_duration n = Some d -> e_rest n = false ->
  e_pitch n = Some p ->
  pitch_to_midi (p_step p) (default 0 (p_alter p)) (p_octave p) = Ok m ->
  voice_beats c !! voice_key (elem_voice n) (elem_staff n) = Some b ->
  process_note_element n c =
  Ok (Some (length (heap c)),
      set_heap (heap c ++ [mkNote m b (inject_Z d / inject_Z (divisions c))%Q 80
                                  (elem_voice n) (elem_staff n)]) c).
Proof.
  intros Hdiv Hd Hrest Hp Hm Hb. unfold process_note_element.
  rewrite Hd, Hrest, Hp.
  erewrite bind_ok by (now apply duration_to_beats_ok).
  erewrite bind_ok by (unfold lift; rewrite Hm; reflexivity).
  erewrite bind_ok by apply seed_voice_ok.
  rewrite (seeded_id _ _ _ Hb).
  erewrite bind_ok by (apply get_voice_beat_ok, Hb).
  reflexivity.
Qed.

(** The two outcomes of [process_tie]. *)
Lemma process_tie_merge (n : note_elem) (r a : ref) (c : Converter) (x : Note) :
  heap c !! r = Some x -> e_tie_stop n = true ->
  active_ties c !! (pitch x, voice x, staff x) = Some a ->
  process_tie n r c =
  Ok (false,
      let c' := set_heap (alter (add_duration (duration x)) a (heap c)) c in
      if e_tie_start n then c'
      else set_active_ties (delete (pitch x, voice x, staff x) (active_ties c')) c').
Proof.
  intros Hr Hstop Hopen. unfold process_tie.
  erewrite bind_ok by reflexivity. erewrite bind_ok by reflexivity.
  rewrite (list_lookup_total_correct _ _ _ Hr), Hstop, Hopen.
  now destruct (e_tie_start n).
Qed.

Lemma process_tie_emit (n : note_elem) (r : ref) (c : Converter) (x : Note) :
  heap c !! r = Some x ->
  e_tie_stop n = false \/ active_ties c !! (pitch x, voice x, staff x) = None ->
  process_tie n r c =
  Ok (true,
      if e_tie_start n
      then set_active_ties (<[(pitch x, voice x, staff x) := r]> (active_ties c)) c
      else c).
Proof.
  intros Hr Hno. unfold process_tie.
  erewrite bind_ok by reflexivity. erewrite bind_ok by reflexivity.
  rewrite (list_lookup_total_correct _ _ _ Hr).
  assert (E : (if e_tie_stop n then active_ties c !! (pitch x, voice x, staff x) else None)
              = None).
  { destruct Hno as [-> | ->]; [reflexivity | now destruct (e_tie_stop n)]. }
  rewrite E. now destruct (e_tie_start n).
Qed.

(** [max]: one of the elements, and not below any of them. *)
Lemma py_max2_cases (a b : Q) :
  (py_max2 a b = a /\ (b <= a)%Q) \/ (py_max2 a b = b /\ (a < b)%Q).
Proof.
  unfold py_max2. destruct (Qltb a b) eqn:E.
  - right. split; [reflexivity | now apply Qltb_lt].
  - left. split; [reflexivity | now apply Qltb_ge].
Qed.

Lemma fold_py_max2 (l : list Q) (x : Q) :
  fold_left py_max2 l x ∈ x :: l /\
  (forall y, y ∈ x :: l -> (y <= fold_left py_max2 l x)%Q).
Proof.
  revert x. induction l as [| z l IH]; intros x; simpl.
  - split; [apply list_elem_of_here |].
    intros y Hy. apply list_elem_of_singleton in Hy. subst. apply Qle_refl.
  - destruct (IH (py_max2 x z)) as [Hin Hge]. split.
    + apply elem_of_cons in Hin. destruct Hin as [-> | Hin].
      * destruct (py_max2_cases x z) as [[-> _] | [-> _]];
          [apply list_elem_of_here | apply list_elem_of_further, list_elem_of_here].
      * now do 2 apply list_elem_of_further.
    + intros y Hy.
      assert (Hxz : (x <= py_max2 x z)%Q /\ (z <= py_max2 x z)%Q).
      { destruct (py_max2_cases x z) as [[-> H] | [-> H]]; split;
          auto using Qle_refl, Qlt_le_weak. }
      apply elem_of_cons in Hy. destruct Hy as [-> | Hy].
      * eapply Qle_trans; [apply Hxz | apply Hge, list_elem_of_here].
      * apply elem_of_cons in Hy. destruct Hy as [-> | Hy].
        -- eapply Qle_trans; [apply Hxz | apply Hge, list_elem_of_here].
        -- apply Hge. now apply list_elem_of_further.
Qed.

Lemma max_voice_beat_ok (c : Converter) (k : string) (b : Q) :
  voice_beats c !! k = Some b ->
  exists top k', max_voice_beat c = Ok (top, c) /\
    voice_beats c !! k' = Some top /\
    (forall k'' b'', voice_beats c !! k'' = Some b'' -> (b'' <= top)%Q).
Proof.
  intros Hk. unfold max_voice_beat.
  destruct ((map_to_list (voice_beats c)).*2) as [| x l] eqn:E.
  - apply elem_of_map_to_list in Hk.
    apply (list_elem_of_fmap_2 snd) in Hk. rewrite E in Hk. inversion Hk.
  - destruct (fold_py_max2 l x) as [Hin Hge].
    rewrite <- E in Hin. apply list_elem_of_fmap in Hin.
    destruct Hin as [[k' top] [Htop Hin]]. simpl in Htop.
    apply elem_of_map_to_list in Hin.
    exists (fold_left py_max2 l x), k'. split; [| split].
    + erewrite bind_ok by reflexivity. rewrite E. reflexivity.
    + now rewrite Htop.
    + intros k'' b'' H''. apply Hge. rewrite <- E.
      apply elem_of_map_to_list in H''. now apply (list_elem_of_fmap_2 snd) in H''.
Qed.

Lemma advance_voice_ok (key : string) (db start md b : Q) (c : Converter) :
  voice_beats c !! key = Some b ->
  exists top k',
    advance_voice key db start md c =
    Ok (py_max2 md (top - start)%Q,
        set_current_beat top
          (set_voice_beats (<[key := (b + db)%Q]> (voice_beats c)) c)) /\
    <[key := (b + db)%Q]> (voice_beats c) !! k' = Some top /\
    (forall k'' b'', <[key := (b + db)%Q]> (voice_beats c) !! k'' = Some b'' ->
                     (b'' <= top)%Q).
Proof.
  intros Hb. unfold advance_voice.
  erewrite bind_ok by (apply get_voice_beat_ok, Hb).
  erewrite bind_ok by reflexivity.
  set (c1 := set_voice_beats _ c).
  destruct (max_voice_beat_ok c1 key (b + db)%Q) as (top & k' & Hmax & Hk' & Hge).
  { apply lookup_insert_eq. }
  exists top, k'. split; [| split; assumption].
  erewrite bind_ok by exact Hmax. reflexivity.
Qed.

Lemma add_note_ok (n : note_elem) (is_chord : bool) (r : ref) (c : Converter) (x0 : Note) :
  heap c !! r = Some x0 ->
  add_note n is_chord r c = Ok (tt, after_add_note n is_chord r x0 c).
Proof.
  intros Hr. unfold add_note, after_add_note.
  set (x := if is_chord then set_beat (chord_start_beat c) x0 else x0).
  set (c1 := if is_chord
             then set_heap (alter (set_beat (chord_start_beat c)) r (heap c)) c
             else c).
  assert (H1 : when is_chord (c ← get; update r (set_beat (chord_start_beat c))) c
               = Ok (tt, c1)) by (subst c1; now destruct is_chord).
  assert (Hx : heap c1 !! r = Some x).
  { subst c1 x. destruct is_chord; [| exact Hr].
    simpl. now rewrite list_lookup_alter_eq, Hr. }
  assert (Hties : active_ties c1 = active_ties c) by (subst c1; now destruct is_chord).
  erewrite bind_ok by exact H1.
  unfold open_tie. destruct (e_tie_stop n) eqn:Hstop.
  - destruct (active_ties c !! (pitch x, voice x, staff x)) as [a |] eqn:Hopen.
    + erewrite bind_ok.
      2:{ apply (process_tie_merge n r a c1 x Hx Hstop). now rewrite Hties. }
      reflexivity.
    + erewrite bind_ok.
      2:{ apply (process_tie_emit n r c1 x Hx). right. now rewrite Hties. }
      reflexivity.
  - erewrite bind_ok by (apply (process_tie_emit n r c1 x Hx); now left).
    reflexivity.
Qed.

Lemma heap_seeded (key : string) (c : Converter) : heap (seeded key c) = heap c.
Proof. unfold seeded. now destruct (_ !! _). Qed.

(** A note element with a duration and a resolvable pitch, in one equation. *)
Lemma process_elem_pitched (n : note_elem) (c : Converter) (d m : Z) (p : pitch_elem)
    (start md : Q) :
  divisions c <> 0 -> e_duration n = Some d -> e_rest n = false ->
  e_pitch n = Some p ->
  pitch_to_midi (p_step p) (default 0 (p_alter p)) (p_octave p) = Ok m ->
  let key := voice_key (elem_voice n) (elem_staff n) in
  let b0 := default (current_beat c) (voice_beats c !! key) in
  let db := (inject_Z d / inject_Z (divisions c))%Q in
  let c2 := if e_chord n then seeded key c
            else set_chord_start_beat b0 (seeded key c) in
  let x0 := mkNote m b0 db 80 (elem_voice n) (elem_staff n) in
  let c4 := after_add_note n (e_chord n) (length (heap c)) x0
              (set_heap (heap c ++ [x0]) c2) in
  process_elem start md (NoteElem n) c =
  if e_chord n then Ok (md, c4) else advance_voice key db start md c4.
Proof.
  intros Hdiv Hd Hrest Hp Hm key b0 db c2 x0 c4.
  unfold process_elem. fold key. rewrite Hd.
  erewrite bind_ok by (now apply duration_to_beats_ok).
  erewrite bind_ok by apply seed_voice_ok.
  erewrite bind_ok by (apply set_anchor_ok, lookup_seeded).
  fold b0. fold c2.
  assert (Hdiv2 : divisions c2 = divisions c).
  { subst c2. destruct (e_chord n); simpl; apply divisions_seeded. }
  assert (Hheap2 : heap c2 = heap c).
  { subst c2. destruct (e_chord n); simpl; apply heap_seeded. }
  assert (Hvb2 : voice_beats c2 !! key = Some b0).
  { subst c2. destruct (e_chord n); simpl; apply lookup_seeded. }
  erewrite bind_ok.
  2:{ apply (process_note_element_ok n c2 d m p b0); try assumption.
      now rewrite Hdiv2. }
  rewrite Hdiv2, Hheap2. fold db. fold x0.
  erewrite bind_ok.
  2:{ apply (add_note_ok n (e_chord n) (length (heap c)) _ x0).
      simpl. apply list_lookup_middle. reflexivity. }
  fold c4. now destruct (e_chord n).
Qed.

Lemma voice_beats_after_add_note (n : note_elem) (ch : bool) (r : ref) (x0 : Note)
    (c : Converter) :
  voice_beats (after_add_note n ch r x0 c) = voice_beats c.
Proof.
  unfold after_add_note.
  destruct (open_tie _ _ _), (e_tie_start n), ch; reflexivity.
Qed.

Lemma heap_after_add_note (n : note_elem) (r : ref) (x0 : Note) (c : Converter) :
  heap c !! r = Some x0 ->
  exists x, heap (after_add_note n false r x0 c) !! r = Some x /\
    beat x = beat x0 /\ pitch x = pitch x0 /\ voice x = voice x0 /\ staff x = staff x0.
Proof.
  intros Hr. unfold after_add_note.
  destruct (open_tie n x0 c) as [a |].
  - assert (H : exists x, alter (add_duration (duration x0)) a (heap c) !! r = Some x /\
                  beat x = beat x0 /\ pitch x = pitch x0 /\
                  voice x = voice x0 /\ staff x = staff x0).
    { rewrite list_lookup_alter. destruct (decide (a = r)) as [-> | _].
      - rewrite Hr. simpl. eexists. split; [reflexivity |]. now repeat split.
      - exists x0. now repeat split. }
    now destruct (e_tie_start n).
  - exists x0. destruct (e_tie_start n); now repeat split.
Qed.

Lemma notes_after_add_note_emit (n : note_elem) (r : ref) (x0 : Note) (c : Converter) :
  open_tie n x0 c = None ->
  notes (after_add_note n false r x0 c) = notes c ++ [r].
Proof.
  intros H. unfold after_add_note. cbv zeta. cbn iota. rewrite H.
  now destruct (e_tie_start n).
Qed.

(** ** C6: a new voice after a backup *)

(** C6. In a measure that started at beat [start], a backup followed by the
    first (non-chord) note of a voice that has no cursor yet gives that note
    the onset [start]: the backup puts the part-wide cursor back to [start]
    and the new voice's cursor is seeded from it.  The note is the new object
    of the store; it joins the output list unless the tie merger absorbs it. *)
Theorem backup_then_new_voice (c : Converter) (start md : Q) (d dn m : Z)
    (n : note_elem) (p : pitch_elem) :
  divisions c <> 0 ->
  voice_beats c !! voice_key (elem_voice n) (elem_staff n) = None ->
  e_chord n = false -> e_duration n = Some dn -> e_rest n = false ->
  e_pitch n = Some p ->
  pitch_to_midi (p_step p) (default 0 (p_alter p)) (p_octave p) = Ok m ->
  exists md' c' x,
    for_each (process_elem start) [Backup (Some d); NoteElem n] md c = Ok (md', c') /\
    heap c' !! length (heap c) = Some x /\
    beat x = start /\ pitch x = m /\
    voice_beats c' !! voice_key (elem_voice n) (elem_staff n)
      = Some (start + inject_Z dn / inject_Z (divisions c))%Q /\
    (e_tie_stop n = false \/ active_ties c !! (m, elem_voice n, elem_staff n) = None ->
     notes c' = notes c ++ [length (heap c)]).
Proof.
  intros Hdiv Hnew Hchord Hdn Hrest Hp Hm.
  set (key := voice_key (elem_voice n) (elem_staff n)) in *.
  set (c1 := set_current_beat start c).
  assert (Hback : process_elem start md (Backup (Some d)) c = Ok (md, c1)).
  { unfold process_elem. now erewrite bind_ok by (now apply duration_to_beats_ok). }
  pose proof (process_elem_pitched n c1 dn m p start md Hdiv Hdn Hrest Hp Hm) as Hnote.
  cbv zeta in Hnote. fold key in Hnote. rewrite Hchord in Hnote.
  change (voice_beats c1) with (voice_beats c) in Hnote.
  change (current_beat c1) with start in Hnote.
  change (divisions c1) with (divisions c) in Hnote.
  change (heap c1) with (heap c) in Hnote.
  rewrite Hnew in Hnote. cbn [default] in Hnote.
  set (db := (inject_Z dn / inject_Z (divisions c))%Q) in *.
  set (x0 := mkNote m start db 80 (elem_voice n) (elem_staff n)) in *.
  set (c3 := set_heap (heap c ++ [x0]) _) in Hnote.
  set (c4 := after_add_note n false (length (heap c)) x0 c3) in Hnote.
  assert (Hx0 : heap c3 !! length (heap c) = Some x0).
  { subst c3. cbn [heap set_heap]. now apply list_lookup_middle. }
  assert (Hvb3 : voice_beats c3 !! key = Some start).
  { subst c3. cbn [voice_beats set_heap set_chord_start_beat].
    unfold seeded. change (voice_beats c1) with (voice_beats c). rewrite Hnew.
    apply lookup_insert_eq. }
  assert (Hvb4 : voice_beats c4 !! key = Some start).
  { subst c4. now rewrite voice_beats_after_add_note. }
  destruct (advance_voice_ok key db start md start c4 Hvb4) as (top & k' & Hadv & _ & _).
  rewrite Hadv in Hnote.
  destruct (heap_after_add_note n (length (heap c)) x0 c3 Hx0)
    as (x & Hx & Hbeat & Hpitch & _ & _).
  eexists _, _, x. split.
  { cbn [for_each]. erewrite bind_ok by exact Hback.
    erewrite bind_ok by exact Hnote. reflexivity. }
  cbn [heap set_current_beat set_voice_beats voice_beats notes].
  split; [exact Hx |]. split; [exact Hbeat |]. split; [exact Hpitch |].
  split; [apply lookup_insert_eq |].
  intros Hemit.
  assert (Hties : active_ties c3 = active_ties c).
  { subst c3. cbn [active_ties set_heap set_chord_start_beat].
    unfold seeded. now destruct (_ !! _). }
  assert (Hnotes : notes c3 = notes c).
  { subst c3. cbn [notes set_heap set_chord_start_beat].
    unfold seeded. now destruct (_ !! _). }
  subst c4. rewrite notes_after_add_note_emit; [now rewrite Hnotes |].
  unfold open_tie. rewrite Hties. destruct Hemit as [-> | Hnone]; [reflexivity |].
  destruct (e_tie_stop n); [exact Hnone | reflexivity].
Qed.

(** ** The steps of a tie-start note and of its continuation *)

Lemma anchored_frame (key : string) (ch : bool) (b0 : Q) (c : Converter) :
  let c2 := if ch then seeded key c else set_chord_start_beat b0 (seeded key c) in
  notes c2 = notes c /\ active_ties c2 = active_ties c /\ heap c2 = heap c /\
  divisions c2 = divisions c /\
  chord_start_beat c2 = (if ch then chord_start_beat c else b0).
Proof.
  unfold seeded. destruct ch, (voice_beats c !! key); now repeat split.
Qed.

(** After a note step, whatever the chord flag: the result of the step and
    the fields the cursor update leaves alone. *)
Lemma process_elem_pitched_frame (n : note_elem) (c : Converter) (d m : Z)
    (p : pitch_elem) (start md : Q) :
  divisions c <> 0 -> e_duration n = Some d -> e_rest n = false ->
  e_pitch n = Some p ->
  pitch_to_midi (p_step p) (default 0 (p_alter p)) (p_octave p) = Ok m ->
  let key := voice_key (elem_voice n) (elem_staff n) in
  let b0 := default (current_beat c) (voice_beats c !! key) in
  let db := (inject_Z d / inject_Z (divisions c))%Q in
  let c2 := if e_chord n then seeded key c
            else set_chord_start_beat b0 (seeded key c) in
  let x0 := mkNote m b0 db 80 (elem_voice n) (elem_staff n) in
  let c4 := after_add_note n (e_chord n) (length (heap c)) x0
              (set_heap (heap c ++ [x0]) c2) in
  exists md' c', process_elem start md (NoteElem n) c = Ok (md', c') /\
    notes c' = notes c4 /\ heap c' = heap c4 /\ active_ties c' = active_ties c4 /\
    divisions c' = divisions c4 /\ chord_start_beat c' = chord_start_beat c4.
Proof.
  intros Hdiv Hd Hrest Hp Hm key b0 db c2 x0 c4.
  pose proof (process_elem_pitched n c d m p start md Hdiv Hd Hrest Hp Hm) as E.
  cbv zeta in E. fold key b0 db c2 x0 c4 in E. rewrite E.
  destruct (e_chord n) eqn:Hch.
  - exists md, c4. now repeat split.
  - assert (Hvb : voice_beats c4 !! key = Some b0).
    { subst c4. rewrite voice_beats_after_add_note. subst c2. simpl.
      apply lookup_seeded. }
    destruct (advance_voice_ok key db start md b0 c4 Hvb) as (top & k' & Hadv & _ & _).
    rewrite Hadv. eexists _, _. split; [reflexivity |]. now repeat split.
Qed.

(** The first note of the pair: emitted, and registered as the open tie. *)
Lemma anchor_step (n : note_elem) (c : Converter) (d m : Z) (p : pitch_elem)
    (start md : Q) :
  divisions c <> 0 -> e_duration n = Some d -> e_rest n = false ->
  e_pitch n = Some p ->
  pitch_to_midi (p_step p) (default 0 (p_alter p)) (p_octave p) = Ok m ->
  e_tie_start n = true ->
  e_tie_stop n = false \/ active_ties c !! (m, elem_voice n, elem_staff n) = None ->
  exists md' c', process_elem start md (NoteElem n) c = Ok (md', c') /\
    divisions c' = divisions c /\
    notes c' = notes c ++ [length (heap c)] /\
    heap c' = heap c ++ [mkNote m (onset_of n c)
                                (inject_Z d / inject_Z (divisions c))%Q 80
                                (elem_voice n) (elem_staff n)] /\
    active_ties c' = <[(m, elem_voice n, elem_staff n) := length (heap c)]> (active_ties c).
Proof.
  intros Hdiv Hd Hrest Hp Hm Hstart Hfresh.
  destruct (process_elem_pitched_frame n c d m p start md Hdiv Hd Hrest Hp Hm)
    as (md' & c' & Hrun & Hn & Hh & Ht & Hdv & _).
  exists md', c'. split; [exact Hrun |]. rewrite Hdv, Hn, Hh, Ht. clear Hrun Hn Hh Ht Hdv.
  set (key := voice_key (elem_voice n) (elem_staff n)).
  set (b0 := default (current_beat c) (voice_beats c !! key)).
  destruct (anchored_frame key (e_chord n) b0 c) as (F1 & F2 & F3 & F4 & F5).
  set (c2 := if e_chord n then seeded key c else set_chord_start_beat b0 (seeded key c)) in *.
  unfold after_add_note, open_tie, onset_of. fold key b0.
  cbn [heap set_heap active_ties chord_start_beat notes divisions].
  assert (E : (if e_tie_stop n
               then active_ties c2 !! (m, elem_voice n, elem_staff n) else None)
              = None).
  { rewrite F2. destruct Hfresh as [-> | Hnone]; [reflexivity |].
    now destruct (e_tie_stop n). }
  destruct (e_chord n); cbn [pitch voice staff set_beat]; rewrite E, Hstart;
    cbn [heap set_heap active_ties chord_start_beat notes divisions set_notes
         set_active_ties]; rewrite ?F1, ?F2, ?F4, ?F5; repeat split.
  replace (length (heap c)) with (length (heap c) + 0)%nat at 1 by lia.
  now rewrite alter_app_r.
Qed.

(** The second note of the pair: merged into the anchor, not emitted. *)
Lemma continuation_step (n : note_elem) (c : Converter) (d m : Z) (p : pitch_elem)
    (start md : Q) (a : ref) (xa : Note) :
  divisions c <> 0 -> e_duration n = Some d -> e_rest n = false ->
  e_pitch n = Some p ->
  pitch_to_midi (p_step p) (default 0 (p_alter p)) (p_octave p) = Ok m ->
  e_tie_stop n = true -> e_tie_start n = false ->
  active_ties c !! (m, elem_voice n, elem_staff n) = Some a ->
  heap c !! a = Some xa ->
  exists md' c', process_elem start md (NoteElem n) c = Ok (md', c') /\
    divisions c' = divisions c /\
    notes c' = notes c /\
    heap c' !! a = Some (add_duration (inject_Z d / inject_Z (divisions c))%Q xa) /\
    active_ties c' = delete (m, elem_voice n, elem_staff n) (active_ties c).
Proof.
  intros Hdiv Hd Hrest Hp Hm Hstop Hstart Hopen Ha.
  destruct (process_elem_pitched_frame n c d m p start md Hdiv Hd Hrest Hp Hm)
    as (md' & c' & Hrun & Hn & Hh & Ht & Hdv & _).
  exists md', c'. split; [exact Hrun |]. rewrite Hdv, Hn, Hh, Ht. clear Hrun Hn Hh Ht Hdv.
  set (key := voice_key (elem_voice n) (elem_staff n)).
  set (b0 := default (current_beat c) (voice_beats c !! key)).
  destruct (anchored_frame key (e_chord n) b0 c) as (F1 & F2 & F3 & F4 & F5).
  set (c2 := if e_chord n then seeded key c else set_chord_start_beat b0 (seeded key c)) in *.
  pose proof (lookup_lt_Some _ _ _ Ha) as Hlt.
  unfold after_add_note, open_tie.
  cbn [heap set_heap active_ties chord_start_beat notes divisions].
  destruct (e_chord n); cbn [pitch voice staff set_beat duration];
    rewrite Hstop, F2, Hopen, Hstart;
    cbn [heap set_heap active_ties chord_start_beat notes divisions set_notes
         set_active_ties]; rewrite ?F1, ?F2, ?F4;
    (split; [reflexivity |]; split; [reflexivity |]; split; [| reflexivity]);
    rewrite list_lookup_alter_eq.
  - rewrite list_lookup_alter_ne by lia. rewrite lookup_app_l by exact Hlt.
    now rewrite Ha.
  - rewrite lookup_app_l by exact Hlt. now rewrite Ha.
Qed.

(** ** C4: a note element without a duration *)

Lemma lookup_seeded_ne (key k : string) (c : Converter) :
  k <> key -> voice_beats (seeded key c) !! k = voice_beats c !! k.
Proof.
  intros Hne. unfold seeded. destruct (voice_beats c !! key); [reflexivity |].
  simpl. now apply lookup_insert_ne.
Qed.

(** C4, as the code has it.  A note element without a duration child emits
    nothing, creates no [Note] and leaves every existing voice cursor at its
    value; a voice seen for the first time gets a cursor at the part-wide
    cursor.  A chord-flagged element also leaves the part-wide cursor and the
    measure's longest advance alone; for any other element the part-wide
    cursor is recomputed as the largest voice cursor and the longest advance
    is updated from it. *)
Theorem no_duration_note_step (n : note_elem) (c : Converter) (start md : Q) :
  e_duration n = None ->
  let key := voice_key (elem_voice n) (elem_staff n) in
  exists md' c', process_elem start md (NoteElem n) c = Ok (md', c') /\
    notes c' = notes c /\ heap c' = heap c /\ active_ties c' = active_ties c /\
    (forall k b, voice_beats c !! k = Some b ->
       exists b', voice_beats c' !! k = Some b' /\ (b' == b)%Q) /\
    (forall k, voice_beats c !! k = None ->
       if decide (k = key)
       then exists b', voice_beats c' !! k = Some b' /\ (b' == current_beat c)%Q
       else voice_beats c' !! k = None) /\
    (e_chord n = true -> current_beat c' = current_beat c /\ md' = md) /\
    (e_chord n = false ->
       (exists k, voice_beats c' !! k = Some (current_beat c')) /\
       (forall k b, voice_beats c' !! k = Some b -> (b <= current_beat c')%Q) /\
       md' = py_max2 md (current_beat c' - start)%Q).
Proof.
  intros Hd key. unfold process_elem. fold key. rewrite Hd.
  erewrite bind_ok by reflexivity.
  erewrite bind_ok by apply seed_voice_ok.
  erewrite bind_ok by (apply set_anchor_ok, lookup_seeded).
  set (b0 := default (current_beat c) (voice_beats c !! key)).
  destruct (anchored_frame key (e_chord n) b0 c) as (F1 & F2 & F3 & _ & _).
  set (c2 := if e_chord n then seeded key c else set_chord_start_beat b0 (seeded key c)) in *.
  assert (Hvb2 : voice_beats c2 = voice_beats (seeded key c))
    by (subst c2; now destruct (e_chord n)).
  assert (Hcb2 : current_beat c2 = current_beat c).
  { subst c2. unfold seeded. now destruct (e_chord n), (voice_beats c !! key). }
  erewrite bind_ok by (now apply process_note_element_no_duration).
  erewrite bind_ok by reflexivity.
  destruct (e_chord n) eqn:Hch.
  - exists md, c2. split; [reflexivity |]. rewrite F1, F2, F3, Hvb2, Hcb2.
    do 3 (split; [reflexivity |]). split; [| split; [| split; [now split | discriminate]]].
    + intros k b Hk. exists b. split; [| reflexivity].
      destruct (decide (k = key)) as [-> | Hne].
      * rewrite lookup_seeded, Hk. reflexivity.
      * now rewrite lookup_seeded_ne.
    + intros k Hk. destruct (decide (k = key)) as [-> | Hne].
      * exists (current_beat c). split; [| reflexivity].
        rewrite lookup_seeded, Hk. reflexivity.
      * now rewrite lookup_seeded_ne.
  - assert (Hb0 : voice_beats c2 !! key = Some b0)
      by (rewrite Hvb2; apply lookup_seeded).
    destruct (advance_voice_ok key 0%Q start md b0 c2 Hb0)
      as (top & k' & Hadv & Htop & Hge).
    rewrite Hadv. eexists _, _. split; [reflexivity |].
    cbn [notes heap active_ties voice_beats current_beat set_current_beat set_voice_beats].
    rewrite F1, F2, F3, Hvb2 in *.
    do 3 (split; [reflexivity |]).
    split; [| split; [| split; [discriminate | intros _; split; [| split]]]].
    + intros k b Hk. destruct (decide (k = key)) as [-> | Hne].
      * rewrite lookup_insert_eq. eexists. split; [reflexivity |].
        subst b0. rewrite Hk. simpl. ring.
      * rewrite lookup_insert_ne by congruence. rewrite lookup_seeded_ne by exact Hne.
        exists b. split; [exact Hk | reflexivity].
    + intros k Hk. destruct (decide (k = key)) as [-> | Hne].
      * rewrite lookup_insert_eq. eexists. split; [reflexivity |].
        subst b0. rewrite Hk. simpl. ring.
      * rewrite lookup_insert_ne by congruence. now rewrite lookup_seeded_ne.
    + now exists k'.
    + exact Hge.
    + reflexivity.
Qed.

(** ** C5: bounds on the emitted notes *)

Section Hoare.
Context {A B : Type}.

Lemma hoare_ret (P : Converter -> Prop) (x : A) (Q : A -> Converter -> Prop) :
  (forall c, P c -> Q x c) -> hoare P (mret x) Q.
Proof. intros H c Hc. now apply H. Qed.

Lemma hoare_bind (P : Converter -> Prop) (m : M A) (Q : A -> Converter -> Prop)
    (f : A -> M B) (R : B -> Converter -> Prop) :
  hoare P m Q -> (forall x, hoare (Q x) (f x) R) -> hoare P (m ≫= f) R.
Proof.
  intros Hm Hf c Hc. unfold mbind, M_bind. specialize (Hm c Hc).
  destruct (m c) as [[x c'] | e]; [| exact I]. now apply Hf.
Qed.


End Hoare.

(** The loop rule: [I] is the loop invariant over the loop-carried local. *)
Lemma hoare_for_each {A B : Type} (I : B -> Converter -> Prop) (R : A -> Prop)
    (body : B -> A -> M B) (xs : list A) :
  (forall acc x, R x -> hoare (I acc) (body acc x) I) ->
  Forall R xs -> forall acc, hoare (I acc) (for_each body xs acc) I.
Proof.
  intros Hbody Hxs. induction Hxs as [| x xs Hx _ IH]; intros acc; simpl.
  - intros c Hc. exact Hc.
  - eapply hoare_bind; [now apply Hbody | exact IH].
Qed.


Lemma hoare_get (P : Converter -> Prop) :
  hoare P get (fun x c => P c /\ x = c).
Proof. intros c Hc. now split. Qed.


Lemma hoare_when (P : Converter -> Prop) (b : bool) (m : M unit)
    (Q : unit -> Converter -> Prop) :
  (b = true -> hoare P m Q) -> (b = false -> forall c, P c -> Q tt c) ->
  hoare P (when b m) Q.
Proof.
  intros Hm Hskip. destruct b; simpl; [now apply Hm |].
  apply hoare_ret. now apply Hskip.
Qed.

(** *** The invariant under the assignments *)










(** *** The invariant through the methods *)













(** *** The quantizer and the sort keep the bounds *)



Lemma Forall_insert_by_beat (P : json_note -> Prop) (x : json_note) (l : list json_note) :
  P x -> Forall P l -> Forall P (insert_by_beat x l).
Proof.
  intros Hx Hl. induction Hl as [| y l Hy Hl IH]; simpl.
  - now constructor.
  - destruct (Qltb (j_beat y) (j_beat x)); repeat constructor; assumption.
Qed.

Lemma Forall_sort_by_beat (P : json_note -> Prop) (l : list json_note) :
  Forall P l -> Forall P (sort_by_beat l).
Proof.
  unfold sort_by_beat. induction 1 as [| x l Hx Hl IH]; simpl.
  - constructor.
  - now apply Forall_insert_by_beat.
Qed.





(** ** C2: what is reset, and when *)

(** C2 fails as stated: the tie opened by the only note of the first part is
    closed by the only note of the second part, which is merged into it and
    missing from the output; the second part on its own emits that note. *)
Lemma tie_leaks_across_parts :
  convert tie_across_parts = Ok (mkSong "Untitled" 120 [mkJson 60 0%Q 2%Q 80]) /\
  convert second_part_alone = Ok (mkSong "Untitled" 120 [mkJson 60 0%Q 1%Q 80]).
Proof. split; vm_compute; reflexivity. Qed.

(** C2, as the code has it.  A conversion starts by resetting the part-wide
    cursor, the output list, the tie table and the voice cursors, so its
    result does not depend on what these held before; every part starts by
    resetting the part-wide cursor and the voice cursors, so processing a
    part does not depend on the cursors an earlier part left behind. *)
Theorem reset_on_entry :
  (forall (doc : document) (c : Converter) (cb : Q) (ns : list ref)
          (ties : gmap TieKey ref) (vb : gmap string Q),
     convert_file doc
       (set_current_beat cb (set_notes ns (set_active_ties ties (set_voice_beats vb c))))
     = convert_file doc c) /\
  (forall (p : part) (c : Converter) (cb : Q) (vb : gmap string Q),
     process_part p (set_current_beat cb (set_voice_beats vb c)) = process_part p c).
Proof.
  split.
  - intros doc c cb ns ties vb. unfold convert_file.
    unfold mbind at 1 2 3 4, M_bind, modify. reflexivity.
  - intros p c cb vb. unfold process_part.
    unfold mbind at 1 2, M_bind, modify. reflexivity.
Qed.

(** ** Instances *)

(** C4 fails as stated: after a quarter note and a backup the part-wide
    cursor is at 0 and the cursor of voice 1 at 1; a note without duration
    in voice 1 then moves the part-wide cursor to 1. *)
Lemma no_duration_moves_cursor :
  exists md c md' c',
    for_each (process_elem 0%Q) [NoteElem (plain_note "C" 4 24); Backup (Some 24)] 0%Q init
      = Ok (md, c) /\
    process_elem 0%Q md (NoteElem no_duration_note) c = Ok (md', c') /\
    (current_beat c == 0)%Q /\ (current_beat c' == 1)%Q /\
    ~ (current_beat c' == current_beat c)%Q.
Proof.
  eexists _, _, _, _. split; [vm_compute; reflexivity |].
  split; [vm_compute; reflexivity |].
  split; [reflexivity |]. split; [reflexivity |]. discriminate.
Qed.

(** A grace note as the first element of a conversion. *)
Lemma no_duration_note_step_witness :
  exists md' c', process_elem 0%Q 0%Q (NoteElem no_duration_note) init = Ok (md', c') /\
    notes c' = notes init /\ heap c' = heap init.
Proof.
  destruct (no_duration_note_step no_duration_note init 0%Q 0%Q eq_refl)
    as (md' & c' & Hrun & Hn & Hh & _).
  exists md', c'. now repeat split.
Defined.

(** Voice 2 enters after a backup in a measure that started at beat 0. *)
Lemma backup_then_new_voice_witness :
  exists md' c' x,
    for_each (process_elem 0%Q) [Backup (Some 24); NoteElem second_voice_note] 1%Q mid_part
      = Ok (md', c') /\
    heap c' !! 2%nat = Some x /\ beat x = 0%Q /\ pitch x = 64.
Proof.
  destruct (backup_then_new_voice mid_part 0%Q 1%Q 24 24 64 second_voice_note
              (mkPitch "E" None 4))
    as (md' & c' & x & Hrun & Hx & Hb & Hp & _); try reflexivity.
  - discriminate.
  - exists md', c', x. now repeat split.
Defined.

(** The second C4 of [mid_part] closes the tie held by the first. *)
Lemma process_tie_frame_witness :
  exists c', process_tie (tied_note "C" 4 24 true false) 1%nat mid_part = Ok (false, c') /\
    notes c' = [0%nat] /\
    heap c' !! 1%nat = heap mid_part !! 1%nat /\
    exists x', heap c' !! 0%nat = Some x' /\ duration x' = (1 + 1)%Q /\ beat x' = 0%Q.
Proof.
  destruct (process_tie_frame (tied_note "C" 4 24 true false) 1%nat 0%nat mid_part)
    as (c' & Hrun & Hn & _ & Hother & Hanchor); try reflexivity.
  destruct (Hanchor _ eq_refl) as (x' & Hx' & Hd & _ & Hb & _).
  exists c'. split; [exact Hrun |]. split; [exact Hn |].
  split; [now apply Hother |]. exists x'. now repeat split.
Defined.

(* ================================================================== *)
(** * Further properties of the song editor *)

Lemma filter_notes_acc (lo hi : option Z) (l acc : list json_note) :
  fold_left
    (fun filtered_notes note =>
       let pitch := j_pitch note in
       if match lo with Some lo => pitch <? lo | None => false end
       then filtered_notes
       else if match hi with Some hi => hi <? pitch | None => false end
            then filtered_notes
            else filtered_notes ++ [note])
    l acc
  = acc ++ List.filter (pitch_in lo hi) l.
Proof.
  revert acc. induction l as [| x l IH]; intros acc; simpl.
  - now rewrite app_nil_r.
  - rewrite IH. unfold pitch_in at 2.
    destruct lo as [lo |], hi as [hi |]; simpl;
      repeat match goal with
             | |- context [?a <? ?b] => destruct (Z.ltb_spec a b)
             | |- context [?a <=? ?b] => destruct (Z.leb_spec a b)
             end; simpl; try lia; try reflexivity; now rewrite <- app_assoc.
Qed.

Lemma filter_notes_eq (lo hi : option Z) (l : list json_note) :
  filter_notes lo hi l = List.filter (pitch_in lo hi) l.
Proof. unfold filter_notes. now rewrite filter_notes_acc. Qed.

Lemma extract_notes_eq (a b : Z) (l : list json_note) :
  extract_notes a b l = map (shift_beat a) (List.filter (in_range a b) l).
Proof. unfold extract_notes. now rewrite extract_notes_acc. Qed.

Lemma pitch_in_spec (lo hi : option Z) (note : json_note) :
  pitch_in lo hi note = true <->
  (forall v, lo = Some v -> v <= j_pitch note) /\
  (forall v, hi = Some v -> j_pitch note <= v).
Proof.
  unfold pitch_in. rewrite andb_true_iff.
  destruct lo as [lo |], hi as [hi |]; rewrite ?Z.leb_le; split.
  all: try (intros [H1 H2]; split; intros v [= <-]; assumption).
  all: try (intros [H1 H2]; split; [try apply H1 | try apply H2]; reflexivity).
  all: try (intros [H1 H2]; split; intros v; discriminate || (intros [= <-]; assumption)).
Qed.

(** X1. Pitch filtering keeps, in order and unchanged, exactly the notes
    whose pitch is not below the lower bound and not above the upper bound;
    an absent bound excludes nothing; the tempo is kept. *)
Theorem filter_by_pitch_exact (s : song) (min_pitch max_pitch : option Z) :
  song_notes (filter_by_pitch s min_pitch max_pitch) =
    List.filter (pitch_in min_pitch max_pitch) (song_notes s) /\
  bpm (filter_by_pitch s min_pitch max_pitch) = bpm s /\
  (forall note, pitch_in min_pitch max_pitch note = true <->
     (forall v, min_pitch = Some v -> v <= j_pitch note) /\
     (forall v, max_pitch = Some v -> j_pitch note <= v)).
Proof.
  split; [apply filter_notes_eq |]. split; [reflexivity |].
  intros note. apply pitch_in_spec.
Qed.

Lemma filter_split_perm {A : Type} (f : A -> bool) (l : list A) :
  List.filter f l ++ List.filter (fun x => negb (f x)) l ≡ₚ l.
Proof.
  induction l as [| x l IH]; simpl; [reflexivity |].
  destruct (f x); simpl.
  - now rewrite IH.
  - rewrite <- Permutation_middle. now rewrite IH.
Qed.

Lemma filter_ext_bool {A : Type} (f g : A -> bool) (l : list A) :
  (forall x, f x = g x) -> List.filter f l = List.filter g l.
Proof.
  intros H. induction l as [| x l IH]; simpl; [reflexivity |].
  now rewrite H, IH.
Qed.

Lemma filter_filter_bool {A : Type} (f g : A -> bool) (l : list A) :
  List.filter f (List.filter g l) = List.filter (fun x => g x && f x) l.
Proof.
  induction l as [| x l IH]; simpl; [reflexivity |].
  destruct (g x); simpl; [| exact IH]. destruct (f x); now rewrite IH.
Qed.

Lemma Forall_filter_bool {A : Type} (f : A -> bool) (l : list A) :
  Forall (fun x => f x = true) (List.filter f l).
Proof.
  induction l as [| x l IH]; simpl; [constructor |].
  destruct (f x) eqn:E; [now constructor | exact IH].
Qed.

(** X2. For one threshold the right-hand and the left-hand filter split the
    song: together they hold every note exactly once, the right hand the
    pitches from the threshold up, the left hand the pitches below it. *)
Theorem hands_partition (s : song) (threshold : Z) :
  song_notes (filter_right_hand s threshold) ++ song_notes (filter_left_hand s threshold)
    ≡ₚ song_notes s /\
  Forall (fun note => threshold <= j_pitch note) (song_notes (filter_right_hand s threshold)) /\
  Forall (fun note => j_pitch note < threshold) (song_notes (filter_left_hand s threshold)).
Proof.
  unfold filter_right_hand, filter_left_hand, filter_by_pitch. cbn [song_notes].
  rewrite !filter_notes_eq.
  assert (E : forall x, pitch_in None (Some (threshold - 1)) x
                        = negb (pitch_in (Some threshold) None x)).
  { intros x. unfold pitch_in. simpl. rewrite andb_true_r.
    destruct (Z.leb_spec (j_pitch x) (threshold - 1)),
             (Z.leb_spec threshold (j_pitch x)); simpl; lia || reflexivity. }
  split; [| split].
  - rewrite (filter_ext_bool _ _ _ E). apply filter_split_perm.
  - eapply Forall_impl; [apply Forall_filter_bool |].
    intros x Hx. apply pitch_in_spec in Hx. now apply Hx.
  - eapply Forall_impl; [apply Forall_filter_bool |].
    intros x Hx. apply pitch_in_spec in Hx. destruct Hx as [_ Hx].
    specialize (Hx _ eq_refl). lia.
Qed.

(** X3. Two pitch filters in a row keep the notes that pass both tests, so
    their order does not matter, and a filter applied to its own result
    changes no note. *)
Theorem filter_by_pitch_compose (s : song) (lo1 hi1 lo2 hi2 : option Z) :
  song_notes (filter_by_pitch (filter_by_pitch s lo1 hi1) lo2 hi2) =
    List.filter (fun note => pitch_in lo1 hi1 note && pitch_in lo2 hi2 note) (song_notes s) /\
  song_notes (filter_by_pitch (filter_by_pitch s lo1 hi1) lo2 hi2) =
    song_notes (filter_by_pitch (filter_by_pitch s lo2 hi2) lo1 hi1) /\
  song_notes (filter_by_pitch (filter_by_pitch s lo1 hi1) lo1 hi1) =
    song_notes (filter_by_pitch s lo1 hi1).
Proof.
  unfold filter_by_pitch. cbn [song_notes]. rewrite !filter_notes_eq.
  rewrite !filter_filter_bool. split; [reflexivity |]. split.
  - apply filter_ext_bool. intros x. apply andb_comm.
  - apply filter_ext_bool. intros x. now destruct (pitch_in lo1 hi1 x).
Qed.

(** X4. Measure extraction and pitch filtering commute on the notes:
    filtering the extracted measures gives the same notes as extracting the
    measures of the filtered song. *)
Theorem extract_filter_commute (s : song) (start_measure end_measure beats : Z)
    (min_pitch max_pitch : option Z) :
  song_notes (filter_by_pitch (extract_measures s start_measure end_measure beats)
                              min_pitch max_pitch) =
  song_notes (extract_measures (filter_by_pitch s min_pitch max_pitch)
                               start_measure end_measure beats).
Proof.
  unfold filter_by_pitch, extract_measures. cbn [song_notes].
  rewrite !filter_notes_eq, !extract_notes_eq, filter_map_swap.
  f_equal. rewrite !filter_filter_bool. apply filter_ext_bool.
  intros x. unfold pitch_in, shift_beat. simpl. apply andb_comm.
Qed.

(** X5. No extracted note starts before the extracted span: after the
    shift every beat is at least 0. *)
Theorem extracted_beats_nonneg (s : song) (start_measure end_measure beats : Z) :
  Forall (fun note => (0 <= j_beat note)%Q)
         (song_notes (extract_measures s start_measure end_measure beats)).
Proof.
  unfold extract_measures. cbn [song_notes]. rewrite extract_notes_eq.
  apply List.Forall_map. eapply Forall_impl; [apply Forall_filter_bool |].
  intros x Hx. apply in_range_spec in Hx. destruct Hx as [H1 _].
  unfold shift_beat. simpl. lra.
Qed.

Lemma filter_none {A : Type} (f : A -> bool) (l : list A) :
  (forall x, f x = false) -> List.filter f l = [].
Proof.
  intros H. induction l as [| x l IH]; simpl; [reflexivity |]. now rewrite H.
Qed.

(** X6. A range that ends before it starts extracts nothing. *)
Theorem extract_empty_range (s : song) (start_measure end_measure beats : Z) :
  end_measure < start_measure -> 0 <= beats ->
  song_notes (extract_measures s start_measure end_measure beats) = [].
Proof.
  intros Hlt Hb. unfold extract_measures. cbn [song_notes]. rewrite extract_notes_eq.
  rewrite filter_none; [reflexivity |].
  intros x. apply not_true_iff_false. intros Hx. apply in_range_spec in Hx.
  destruct Hx as [H1 H2].
  assert (H : (inject_Z ((start_measure - 1) * beats) < inject_Z (end_measure * beats))%Q)
    by (eapply Qle_lt_trans; eassumption).
  rewrite <- Zlt_Qlt in H. nia.
Qed.

Lemma extract_empty_range_witness :
  song_notes (extract_measures (mkSong "t" 120 [mkJson 60 0%Q 1%Q 80]) 3 2 4) = [].
Proof. apply extract_empty_range; lia. Defined.

Lemma Qminus_inject_0 (q : Q) : (q - inject_Z 0)%Q = q.
Proof.
  destruct q as [n d]. unfold Qminus, Qplus, Qopp, inject_Z. simpl.
  f_equal; [lia | apply Pos.mul_1_r].
Qed.

Lemma filter_all {A : Type} (f : A -> bool) (l : list A) :
  Forall (fun x => f x = true) l -> List.filter f l = l.
Proof.
  induction 1 as [| x l Hx _ IH]; simpl; [reflexivity |]. now rewrite Hx, IH.
Qed.

(** X7. Extracting from measure 1 through a measure that contains the last
    note gives the notes back as they were. *)
Theorem extract_all_measures (s : song) (end_measure beats : Z) :
  Forall (fun note => (0 <= j_beat note)%Q /\
            (j_beat note < inject_Z (end_measure * beats))%Q) (song_notes s) ->
  song_notes (extract_measures s 1 end_measure beats) = song_notes s.
Proof.
  intros Hall. unfold extract_measures. cbn [song_notes]. rewrite extract_notes_eq.
  change ((1 - 1) * beats) with 0.
  rewrite filter_all.
  - induction (song_notes s) as [| x l IH]; simpl; [reflexivity |].
    rewrite IH by (now inversion Hall). f_equal.
    destruct x. unfold shift_beat. simpl. now rewrite Qminus_inject_0.
  - eapply Forall_impl; [exact Hall |]. intros x Hx. now apply in_range_spec.
Qed.

Lemma extract_all_measures_witness :
  song_notes (extract_measures
                (mkSong "t" 120 [mkJson 60 0%Q 1%Q 80; mkJson 62 (7 # 2)%Q 1%Q 80]) 1 1 4)
  = [mkJson 60 0%Q 1%Q 80; mkJson 62 (7 # 2)%Q 1%Q 80].
Proof.
  apply (extract_all_measures
           (mkSong "t" 120 [mkJson 60 0%Q 1%Q 80; mkJson 62 (7 # 2)%Q 1%Q 80]) 1 4).
  simpl. repeat constructor; simpl; try discriminate.
Defined.

Lemma in_range_adjacent (a b c : Z) (x : json_note) :
  a <= b -> b <= c ->
  (in_range a b x = true /\ in_range b c x = false /\ in_range a c x = true) \/
  (in_range a b x = false /\ in_range b c x = true /\ in_range a c x = true) \/
  (in_range a b x = false /\ in_range b c x = false /\ in_range a c x = false).
Proof.
  intros Hab Hbc.
  assert (Qab : (inject_Z a <= inject_Z b)%Q) by now rewrite <- Zle_Qle.
  assert (Qbc : (inject_Z b <= inject_Z c)%Q) by now rewrite <- Zle_Qle.
  unfold in_range.
  destruct (Qle_bool (inject_Z a) (j_beat x)) eqn:E1;
  destruct (Qltb (j_beat x) (inject_Z b)) eqn:E2;
  destruct (Qle_bool (inject_Z b) (j_beat x)) eqn:E3;
  destruct (Qltb (j_beat x) (inject_Z c)) eqn:E4; simpl; auto;
  exfalso;
  repeat match goal with
         | H : Qle_bool _ _ = true |- _ => apply Qle_bool_iff in H
         | H : Qle_bool _ _ = false |- _ =>
             apply not_true_iff_false in H; rewrite Qle_bool_iff in H
         | H : Qltb _ _ = true |- _ => apply Qltb_lt in H
         | H : Qltb _ _ = false |- _ => apply Qltb_ge in H
         end; lra.
Qed.

(** X8. Measure ranges are half-open in beats, so two adjacent ranges lose
    and repeat nothing: the notes extracted from measures [a..b] and from
    measures [b+1..c] are as many as the notes extracted from [a..c]. *)
Theorem adjacent_ranges_count (s : song) (a b c beats : Z) :
  a - 1 <= b -> b <= c -> 0 <= beats ->
  (length (song_notes (extract_measures s a b beats)) +
   length (song_notes (extract_measures s (b + 1) c beats)))%nat =
  length (song_notes (extract_measures s a c beats)).
Proof.
  intros Hab Hbc Hbeats. unfold extract_measures. cbn [song_notes].
  rewrite !extract_notes_eq, !length_map.
  replace ((b + 1 - 1) * beats) with (b * beats) by ring.
  assert (H1 : (a - 1) * beats <= b * beats) by nia.
  assert (H2 : b * beats <= c * beats) by nia.
  induction (song_notes s) as [| x l IH]; simpl; [reflexivity |].
  destruct (in_range_adjacent _ _ _ x H1 H2) as [(-> & -> & ->) | [(-> & -> & ->) | (-> & -> & ->)]];
    simpl; lia.
Qed.

Lemma adjacent_ranges_count_witness :
  (length (song_notes (extract_measures
     (mkSong "t" 120 [mkJson 60 0%Q 1%Q 80; mkJson 62 4%Q 1%Q 80]) 1 1 4)) +
   length (song_notes (extract_measures
     (mkSong "t" 120 [mkJson 60 0%Q 1%Q 80; mkJson 62 4%Q 1%Q 80]) (1 + 1) 2 4)))%nat =
  length (song_notes (extract_measures
     (mkSong "t" 120 [mkJson 60 0%Q 1%Q 80; mkJson 62 4%Q 1%Q 80]) 1 2 4)).
Proof. apply adjacent_ranges_count; lia. Defined.

Lemma truthy_spec (o : option Z) :
  truthy o = true <-> exists v, o = Some v /\ v <> 0.
Proof.
  unfold truthy. destruct o as [v |].
  - rewrite negb_true_iff, Z.eqb_neq. split.
    + intros H. now exists v.
    + now intros (w & [= <-] & H).
  - split; [discriminate | now intros (w & H & _)].
Qed.

(** X9. The editor's command line is refused, with exit code 1 and nothing
    saved, exactly when both hands are asked for, or a hand together with a
    pitch bound that is not 0: a bound of 0 given with a hand option passes
    the check. *)
Theorem edit_main_refuses (a : args) (d : song_data) :
  edit_main a d = Exit 1 <->
  (a_right_hand a = true /\ a_left_hand a = true) \/
  ((a_right_hand a = true \/ a_left_hand a = true) /\
   ((exists v, a_min_pitch a = Some v /\ v <> 0) \/
    (exists v, a_max_pitch a = Some v /\ v <> 0))).
Proof.
  rewrite <- !truthy_spec. unfold edit_main.
  destruct (a_right_hand a), (a_left_hand a),
    (truthy (a_min_pitch a)), (truthy (a_max_pitch a)); simpl;
    try (split; [intros _ | reflexivity]; tauto);
    (split; [| intros [[? ?] | [[? | ?] [? | ?]]]; discriminate]);
    destruct (a_measures a) as [[st en] |];
    repeat (destruct (bool_decide _)); simpl; discriminate.
Qed.

(* ================================================================== *)
(** * Further properties of the converter *)

(** ** The final sort and the quantizer *)

Create HintDb beats discriminated.

Lemma beat_le_refl (x : json_note) : beat_le x x.
Proof. apply Qle_refl. Qed.

Lemma beat_le_trans (x y z : json_note) : beat_le x y -> beat_le y z -> beat_le x z.
Proof. apply Qle_trans. Qed.

#[local] Hint Resolve beat_le_refl beat_le_trans : beats.

Lemma insert_by_beat_perm (x : json_note) (l : list json_note) :
  insert_by_beat x l ≡ₚ x :: l.
Proof.
  induction l as [| y l IH]; simpl; [reflexivity |].
  destruct (Qltb (j_beat y) (j_beat x)); [| reflexivity].
  rewrite IH. apply perm_swap.
Qed.

Lemma insert_by_beat_sorted (x : json_note) (l : list json_note) :
  StronglySorted beat_le l -> StronglySorted beat_le (insert_by_beat x l).
Proof.
  induction 1 as [| y l Hl IH Hy]; simpl.
  - repeat constructor.
  - destruct (Qltb (j_beat y) (j_beat x)) eqn:E.
    + apply Qltb_lt in E. constructor; [exact IH |].
      apply Forall_insert_by_beat; [now apply Qlt_le_weak | exact Hy].
    + apply Qltb_ge in E. constructor; [now constructor |].
      constructor; [exact E |].
      eapply Forall_impl; [exact Hy |]. intros z Hz. eauto with beats.
Qed.

Lemma sort_by_beat_perm (l : list json_note) : sort_by_beat l ≡ₚ l.
Proof.
  unfold sort_by_beat. induction l as [| x l IH]; simpl; [reflexivity |].
  now rewrite insert_by_beat_perm, IH.
Qed.

Lemma sort_by_beat_sorted (l : list json_note) : StronglySorted beat_le (sort_by_beat l).
Proof.
  unfold sort_by_beat. induction l as [| x l IH]; simpl; [constructor |].
  now apply insert_by_beat_sorted.
Qed.

Lemma at_beat_insert (q : Q) (x : json_note) (l : list json_note) :
  List.filter (at_beat q) (insert_by_beat x l) = List.filter (at_beat q) (x :: l).
Proof.
  induction l as [| y l IH]; simpl; [reflexivity |].
  destruct (Qltb (j_beat y) (j_beat x)) eqn:E; [| reflexivity].
  simpl. rewrite IH. simpl.
  destruct (at_beat q x) eqn:Ex, (at_beat q y) eqn:Ey; try reflexivity.
  exfalso. unfold at_beat in *. apply Qeq_bool_iff in Ex, Ey. apply Qltb_lt in E.
  rewrite Ex, Ey in E. now apply Qlt_irrefl in E.
Qed.

Lemma at_beat_sort (q : Q) (l : list json_note) :
  List.filter (at_beat q) (sort_by_beat l) = List.filter (at_beat q) l.
Proof.
  unfold sort_by_beat. induction l as [| x l IH]; simpl; [reflexivity |].
  rewrite at_beat_insert. simpl. now rewrite IH.
Qed.

(** What [convert_file] returns, from the converter it ends in. *)
Lemma convert_file_result (doc : document) (c c' : Converter) (s : song) :
  convert_file doc c = Ok (s, c') ->
  s = mkSong (default "Untitled"%string (work_title doc)) 120 (sort_by_beat (emitted c')).
Proof.
  unfold convert_file, mbind, M_bind, modify. cbv beta iota.
  destruct (for_each _ (parts doc) tt _) as [[[] c1] |]; [| discriminate].
  unfold get, mret, M_ret. now intros [= <- <-].
Qed.

(** X10. A conversion that completes returns the title of the document (or
    "Untitled"), the tempo 120, and the emitted notes, each of them once,
    in ascending order of their quantized beat. *)
Theorem output_sorted (doc : document) (c c' : Converter) (s : song) :
  convert_file doc c = Ok (s, c') ->
  title s = default "Untitled"%string (work_title doc) /\ bpm s = 120 /\
  song_notes s ≡ₚ emitted c' /\
  StronglySorted beat_le (song_notes s).
Proof.
  intros H. apply convert_file_result in H. subst s. cbn [title bpm song_notes].
  split; [reflexivity |]. split; [reflexivity |].
  split; [apply sort_by_beat_perm | apply sort_by_beat_sorted].
Qed.

Lemma output_sorted_witness :
  exists s c', convert_file chord_c_e init = Ok (s, c') /\
    title s = "Untitled"%string /\ bpm s = 120 /\
    song_notes s ≡ₚ emitted c' /\ StronglySorted beat_le (song_notes s).
Proof.
  eexists _, _. split; [vm_compute; reflexivity |].
  apply (output_sorted chord_c_e init). vm_compute. reflexivity.
Defined.

(** X11. The final sort is stable: the notes that share a quantized beat
    come out in the order in which they were emitted. *)
Theorem output_stable (doc : document) (c c' : Converter) (s : song) (q : Q) :
  convert_file doc c = Ok (s, c') ->
  List.filter (at_beat q) (song_notes s) = List.filter (at_beat q) (emitted c').
Proof.
  intros H. apply convert_file_result in H. subst s. cbn [song_notes].
  apply at_beat_sort.
Qed.

Lemma output_stable_witness :
  exists s c', convert_file chord_c_e init = Ok (s, c') /\
    List.filter (at_beat 0%Q) (song_notes s) = List.filter (at_beat 0%Q) (emitted c').
Proof.
  eexists _, _. split; [vm_compute; reflexivity |].
  apply (output_stable chord_c_e init). vm_compute. reflexivity.
Defined.

(** X12. The quantizer moves a value by less than the tolerance 0.0001, and
    leaves every multiple of a quarter where it is. *)
Theorem round_beat_close (x : Q) :
  (Qabs (round_beat x - x) < 1 # 10000)%Q /\
  (forall k : Z, x == inject_Z k / 4 -> round_beat x == x)%Q.
Proof.
  split; [| intros k Hk; now apply (round_beat_grid x k)].
  unfold round_beat.
  destruct (Qltb (Qabs (x - inject_Z (py_round x))) tolerance) eqn:E1.
  { apply Qltb_lt in E1. now rewrite Qabs_Qminus. }
  destruct (Qltb (Qabs (x - inject_Z (py_round (x * 2)) / 2)) tolerance) eqn:E2.
  { apply Qltb_lt in E2. now rewrite Qabs_Qminus. }
  destruct (Qltb (Qabs (x - inject_Z (py_round (x * 4)) / 4)) tolerance) eqn:E3.
  { apply Qltb_lt in E3. now rewrite Qabs_Qminus. }
  apply Qabs_Qlt_condition. split; lra.
Qed.

Lemma round_beat_close_witness :
  (Qabs (round_beat (3 # 2) - (3 # 2)) < 1 # 10000)%Q /\ (round_beat (3 # 2) == 3 # 2)%Q.
Proof.
  destruct (round_beat_close (3 # 2)) as [H1 H2].
  split; [exact H1 |]. apply (H2 6). reflexivity.
Defined.

(** ** Pitch and divisions *)

(** X13. For an unaltered step the octave and the letter can be read back
    from the MIDI number: the number divided by 12 is the octave plus one,
    and its remainder is the letter's offset. *)
Theorem natural_pitch_roundtrip (s : string) (octave : Z) :
  s ∈ known_steps ->
  exists m, pitch_to_midi s 0 octave = Ok m /\
    m / 12 - 1 = octave /\ note_map !! s = Some (m mod 12).
Proof.
  unfold known_steps. rewrite !elem_of_cons, elem_of_nil.
  intros H.
  repeat (destruct H as [-> | H];
          [eexists; split; [reflexivity |];
           match goal with
           | |- (?a * 12 + ?off + 0) / 12 - 1 = _ /\ _ =>
               replace (a * 12 + off + 0) with (off + a * 12) by ring;
               rewrite Z.div_add, Z.mod_add by lia;
               split; [change (off / 12) with 0; lia | reflexivity]
           end |]).
  destruct H.
Qed.

Lemma natural_pitch_roundtrip_witness :
  exists m, pitch_to_midi "A" 0 4 = Ok m /\ m / 12 - 1 = 4 /\
    note_map !! "A"%string = Some (m mod 12).
Proof.
  apply natural_pitch_roundtrip. unfold known_steps.
  do 5 apply list_elem_of_further. apply list_elem_of_here.
Defined.

(** ** Backups, rests and chords *)

Lemma process_elem_backup_any (start md : Q) (e1 e2 : elem) (c : Converter) :
  same_but_backup e1 e2 -> process_elem start md e1 c = process_elem start md e2 c.
Proof.
  intros [d1 d2 _ _ | e]; [| reflexivity].
  unfold process_elem, mbind, M_bind, duration_to_beats.
  now destruct (decide (divisions c = 0)).
Qed.

(** X15. The amount of a backup is not used beyond its division by the
    divisions: two measures that differ only in the durations of their backup
    elements, each below 2^1023 in absolute value so that the division
    cannot overflow, are processed alike, to the same result or the same
    exception. *)
Theorem backup_amount_ignored (m1 m2 : measure) (c : Converter) :
  Forall2 same_but_backup m1 m2 ->
  process_measure m1 c = process_measure m2 c.
Proof.
  intros H.
  assert (Hloop : forall start md c0,
            for_each (process_elem start) m1 md c0 = for_each (process_elem start) m2 md c0).
  { intros start. induction H as [| e1 e2 l1 l2 He _ IH]; intros md c0; [reflexivity |].
    cbn [for_each]. unfold mbind, M_bind.
    rewrite (process_elem_backup_any start md e1 e2 c0 He).
    destruct (process_elem start md e2 c0) as [[md' c1] |]; [apply IH | reflexivity]. }
  unfold process_measure. unfold mbind at 1 3, M_bind at 1 3, get. cbv beta iota.
  unfold mbind, M_bind. now rewrite Hloop.
Qed.

Lemma backup_amount_ignored_witness :
  process_measure [NoteElem (plain_note "C" 4 24); Backup (Some 24);
                   NoteElem second_voice_note] init
  = process_measure [NoteElem (plain_note "C" 4 24); Backup (Some 7);
                     NoteElem second_voice_note] init.
Proof.
  apply backup_amount_ignored.
  constructor; [apply sbb_same |].
  constructor; [apply sbb_backup; vm_compute; reflexivity |].
  constructor; [apply sbb_same | constructor].
Defined.

Lemma process_note_element_silent (n : note_elem) (c : Converter) (d : Z) :
  divisions c <> 0 -> e_duration n = Some d ->
  e_rest n = true \/ e_pitch n = None ->
  process_note_element n c = Ok (None, c).
Proof.
  intros Hdiv Hd Hsilent. unfold process_note_element. rewrite Hd.
  erewrite bind_ok by (now apply duration_to_beats_ok).
  destruct (e_rest n); [reflexivity |].
  destruct Hsilent as [H | ->]; [discriminate | reflexivity].
Qed.

(** X16. A rest, or a note element without pitch, that is not chord-flagged
    takes its time and nothing else: no [Note] is created or emitted, the tie
    table stays, the cursor of its voice moves on by its duration and the
    other voice cursors stay. *)
Theorem rest_takes_time (n : note_elem) (c : Converter) (d : Z) (start md : Q) :
  divisions c <> 0 -> e_duration n = Some d -> e_chord n = false ->
  e_rest n = true \/ e_pitch n = None ->
  let key := voice_key (elem_voice n) (elem_staff n) in
  exists md' c', process_elem start md (NoteElem n) c = Ok (md', c') /\
    notes c' = notes c /\ heap c' = heap c /\ active_ties c' = active_ties c /\
    voice_beats c' !! key
      = Some (onset_of n c + inject_Z d / inject_Z (divisions c))%Q /\
    (forall k, k <> key -> voice_beats c' !! k = voice_beats c !! k).
Proof.
  intros Hdiv Hd Hch Hsilent key. unfold process_elem. fold key. rewrite Hd, Hch.
  erewrite bind_ok by (now apply duration_to_beats_ok).
  erewrite bind_ok by apply seed_voice_ok.
  erewrite bind_ok by (apply set_anchor_ok, lookup_seeded).
  set (b0 := default (current_beat c) (voice_beats c !! key)).
  destruct (anchored_frame key false b0 c) as (F1 & F2 & F3 & F4 & _).
  cbv zeta in F1, F2, F3, F4. cbv iota in F1, F2, F3, F4 |- *.
  set (c2 := set_chord_start_beat b0 (seeded key c)) in *.
  erewrite bind_ok.
  2:{ apply (process_note_element_silent n c2 d); [now rewrite F4 | exact Hd | exact Hsilent]. }
  erewrite bind_ok by reflexivity.
  assert (Hb0 : voice_beats c2 !! key = Some b0) by apply lookup_seeded.
  destruct (advance_voice_ok key (inject_Z d / inject_Z (divisions c))%Q start md b0 c2 Hb0)
    as (top & k' & Hadv & _ & _).
  rewrite Hadv. eexists _, _. split; [reflexivity |].
  cbn [notes heap active_ties voice_beats set_current_beat set_voice_beats].
  rewrite F1, F2, F3. do 3 (split; [reflexivity |]). split.
  - rewrite lookup_insert_eq. unfold onset_of. now rewrite Hch.
  - intros k Hk. rewrite lookup_insert_ne by congruence.
    now apply lookup_seeded_ne.
Qed.

Lemma rest_takes_time_witness :
  exists md' c',
    process_elem 0%Q 0%Q
      (NoteElem (mkNoteElem None None (Some 24) true None false false false)) mid_part
      = Ok (md', c') /\
    notes c' = notes mid_part /\ heap c' = heap mid_part /\
    voice_beats c' !! "1_1"%string = Some (1 + 24 / 24)%Q.
Proof.
  destruct (rest_takes_time (mkNoteElem None None (Some 24) true None false false false)
              mid_part 24 0%Q 0%Q)
    as (md' & c' & Hrun & Hn & Hh & _ & Hv & _); try reflexivity.
  - discriminate.
  - now left.
  - exists md', c'. now repeat split.
Defined.

(** A sounding note that no open tie absorbs: the step in full. *)
Lemma emitted_step (n : note_elem) (c : Converter) (d m : Z) (p : pitch_elem)
    (start md : Q) :
  divisions c <> 0 -> e_duration n = Some d -> e_rest n = false ->
  e_pitch n = Some p ->
  pitch_to_midi (p_step p) (default 0 (p_alter p)) (p_octave p) = Ok m ->
  e_tie_stop n = false \/ active_ties c !! (m, elem_voice n, elem_staff n) = None ->
  let key := voice_key (elem_voice n) (elem_staff n) in
  let tie_key := (m, elem_voice n, elem_staff n) in
  exists md' c', process_elem start md (NoteElem n) c = Ok (md', c') /\
    divisions c' = divisions c /\
    notes c' = notes c ++ [length (heap c)] /\
    heap c' = heap c ++ [mkNote m (onset_of n c)
                                (inject_Z d / inject_Z (divisions c))%Q 80
                                (elem_voice n) (elem_staff n)] /\
    active_ties c' = (if e_tie_start n
                      then <[tie_key := length (heap c)]> (active_ties c)
                      else active_ties c) /\
    chord_start_beat c' = onset_of n c /\
    (e_chord n = true ->
     md' = md /\ current_beat c' = current_beat c /\
     voice_beats c' = voice_beats (seeded key c)).
Proof.
  intros Hdiv Hd Hrest Hp Hm Hfree key tie_key.
  pose proof (process_elem_pitched n c d m p start md Hdiv Hd Hrest Hp Hm) as E.
  cbv zeta in E. fold key in E.
  set (b0 := default (current_beat c) (voice_beats c !! key)) in *.
  destruct (anchored_frame key (e_chord n) b0 c) as (F1 & F2 & F3 & F4 & F5).
  set (c2 := if e_chord n then seeded key c else set_chord_start_beat b0 (seeded key c)) in *.
  set (db := (inject_Z d / inject_Z (divisions c))%Q) in *.
  set (x0 := mkNote m b0 db 80 (elem_voice n) (elem_staff n)) in *.
  set (c4 := after_add_note n (e_chord n) (length (heap c)) x0
               (set_heap (heap c ++ [x0]) c2)) in *.
  assert (Hc4 : divisions c4 = divisions c /\
                notes c4 = notes c ++ [length (heap c)] /\
                heap c4 = heap c ++ [mkNote m (onset_of n c) db 80
                                            (elem_voice n) (elem_staff n)] /\
                active_ties c4 = (if e_tie_start n
                                  then <[tie_key := length (heap c)]> (active_ties c)
                                  else active_ties c) /\
                chord_start_beat c4 = onset_of n c /\
                current_beat c4 = current_beat c2 /\
                voice_beats c4 = voice_beats c2).
  { subst c4 x0. unfold after_add_note, open_tie, onset_of. fold key b0.
    cbn [heap set_heap active_ties chord_start_beat notes divisions current_beat
         voice_beats].
    assert (Efree : (if e_tie_stop n
                     then active_ties c2 !! (m, elem_voice n, elem_staff n) else None)
                    = None).
    { rewrite F2. destruct Hfree as [-> | Hnone]; [reflexivity |].
      now destruct (e_tie_stop n). }
    destruct (e_chord n); cbn [pitch voice staff set_beat]; rewrite Efree;
      destruct (e_tie_start n);
      cbn [heap set_heap active_ties chord_start_beat notes divisions set_notes
           set_active_ties current_beat voice_beats];
      rewrite ?F1, ?F2, ?F4, ?F5; repeat split;
      replace (length (heap c)) with (length (heap c) + 0)%nat at 1 by lia;
      now rewrite alter_app_r. }
  destruct Hc4 as (G1 & G2 & G3 & G4 & G5 & G6 & G7).
  destruct (e_chord n) eqn:Hch.
  - exists md, c4. split; [exact E |]. do 5 (split; [assumption |]).
    intros _. split; [reflexivity |]. rewrite G6, G7. subst c2.
    split; [| reflexivity]. unfold seeded. now destruct (voice_beats c !! key).
  - assert (Hvb : voice_beats c4 !! key = Some b0).
    { rewrite G7. subst c2. simpl. apply lookup_seeded. }
    destruct (advance_voice_ok key db start md b0 c4 Hvb) as (top & k' & Hadv & _ & _).
    rewrite Hadv in E. eexists _, _. split; [exact E |].
    cbn [divisions notes heap active_ties chord_start_beat set_current_beat
         set_voice_beats].
    do 5 (split; [assumption |]). discriminate.
Qed.

Lemma lookup_seeded_Some (key k : string) (c : Converter) (b : Q) :
  voice_beats c !! k = Some b -> voice_beats (seeded key c) !! k = Some b.
Proof.
  intros H. destruct (decide (k = key)) as [-> | Hne].
  - rewrite lookup_seeded, H. reflexivity.
  - now rewrite lookup_seeded_ne.
Qed.

(** X17. A chord-flagged note takes the onset of the note element before it
    and moves no cursor: after a sounding note that is not chord-flagged, a
    sounding chord-flagged note is emitted at the same beat, and the
    part-wide cursor, the measure's longest advance and every voice cursor
    are as the first note left them. *)
Theorem chord_shares_onset (c : Converter) (n1 n2 : note_elem) (d1 d2 m1 m2 : Z)
    (p1 p2 : pitch_elem) (start md : Q) :
  divisions c <> 0 ->
  e_duration n1 = Some d1 -> e_rest n1 = false -> e_pitch n1 = Some p1 ->
  pitch_to_midi (p_step p1) (default 0 (p_alter p1)) (p_octave p1) = Ok m1 ->
  e_chord n1 = false -> e_tie_stop n1 = false ->
  e_duration n2 = Some d2 -> e_rest n2 = false -> e_pitch n2 = Some p2 ->
  pitch_to_midi (p_step p2) (default 0 (p_alter p2)) (p_octave p2) = Ok m2 ->
  e_chord n2 = true -> e_tie_stop n2 = false ->
  exists md1 c1 c2,
    process_elem start md (NoteElem n1) c = Ok (md1, c1) /\
    process_elem start md1 (NoteElem n2) c1 = Ok (md1, c2) /\
    current_beat c2 = current_beat c1 /\
    (forall k b, voice_beats c1 !! k = Some b -> voice_beats c2 !! k = Some b) /\
    notes c2 = notes c ++ [length (heap c); S (length (heap c))] /\
    heap c2 = heap c ++
      [mkNote m1 (onset_of n1 c) (inject_Z d1 / inject_Z (divisions c))%Q 80
              (elem_voice n1) (elem_staff n1);
       mkNote m2 (onset_of n1 c) (inject_Z d2 / inject_Z (divisions c))%Q 80
              (elem_voice n2) (elem_staff n2)].
Proof.
  intros Hdiv Hd1 Hr1 Hp1 Hm1 Hc1 Ht1 Hd2 Hr2 Hp2 Hm2 Hc2 Ht2.
  destruct (emitted_step n1 c d1 m1 p1 start md Hdiv Hd1 Hr1 Hp1 Hm1 (or_introl Ht1))
    as (md1 & c1 & Hrun1 & Hdv1 & Hn1 & Hh1 & _ & Hcs1 & _).
  assert (Hdiv1 : divisions c1 <> 0) by now rewrite Hdv1.
  destruct (emitted_step n2 c1 d2 m2 p2 start md1 Hdiv1 Hd2 Hr2 Hp2 Hm2 (or_introl Ht2))
    as (md2 & c2 & Hrun2 & _ & Hn2 & Hh2 & _ & _ & Hchord).
  destruct (Hchord Hc2) as (-> & Hcur & Hvb).
  assert (Hlen : length (heap c1) = S (length (heap c))).
  { rewrite Hh1, length_app. simpl. lia. }
  exists md1, c1, c2. split; [exact Hrun1 |]. split; [exact Hrun2 |].
  split; [exact Hcur |]. split; [| split].
  - intros k b Hk. rewrite Hvb. now apply lookup_seeded_Some.
  - rewrite Hn2, Hn1, Hlen, <- app_assoc. reflexivity.
  - rewrite Hh2, Hh1, Hdv1, <- app_assoc. simpl.
    unfold onset_of at 2. now rewrite Hc2, Hcs1.
Qed.

Lemma chord_shares_onset_witness :
  exists md1 c1 c2,
    process_elem 0%Q 0%Q (NoteElem (plain_note "C" 4 24)) init = Ok (md1, c1) /\
    process_elem 0%Q md1
      (NoteElem (mkNoteElem None None (Some 24) false (Some (mkPitch "E" None 4))
                            true false false)) c1 = Ok (md1, c2) /\
    current_beat c2 = current_beat c1 /\
    notes c2 = [0%nat; 1%nat].
Proof.
  destruct (chord_shares_onset init (plain_note "C" 4 24)
              (mkNoteElem None None (Some 24) false (Some (mkPitch "E" None 4))
                          true false false)
              24 24 60 64 (mkPitch "C" None 4) (mkPitch "E" None 4) 0%Q 0%Q)
    as (md1 & c1 & c2 & H1 & H2 & H3 & _ & H5 & _); try reflexivity.
  - discriminate.
  - exists md1, c1, c2. now repeat split.
Defined.

(** ** Ties *)

(** X18. Ties keep to their pitch, voice and staff: after a tie-start note,
    a tie-stop note whose pitch, voice or staff differs, and for whose own
    key no tie is open, is emitted as a note of its own, and neither
    duration is changed. *)
Theorem tie_needs_same_key (c : Converter) (n1 n2 : note_elem) (d1 d2 m1 m2 : Z)
    (p1 p2 : pitch_elem) (start md : Q) :
  divisions c <> 0 ->
  e_duration n1 = Some d1 -> e_rest n1 = false -> e_pitch n1 = Some p1 ->
  pitch_to_midi (p_step p1) (default 0 (p_alter p1)) (p_octave p1) = Ok m1 ->
  e_tie_start n1 = true -> e_tie_stop n1 = false ->
  e_duration n2 = Some d2 -> e_rest n2 = false -> e_pitch n2 = Some p2 ->
  pitch_to_midi (p_step p2) (default 0 (p_alter p2)) (p_octave p2) = Ok m2 ->
  e_tie_stop n2 = true ->
  (m1, elem_voice n1, elem_staff n1) <> (m2, elem_voice n2, elem_staff n2) ->
  active_ties c !! (m2, elem_voice n2, elem_staff n2) = None ->
  exists md' c' x1 x2,
    for_each (process_elem start) [NoteElem n1; NoteElem n2] md c = Ok (md', c') /\
    notes c' = notes c ++ [length (heap c); S (length (heap c))] /\
    heap c' = heap c ++ [x1; x2] /\
    pitch x1 = m1 /\ duration x1 = (inject_Z d1 / inject_Z (divisions c))%Q /\
    pitch x2 = m2 /\ duration x2 = (inject_Z d2 / inject_Z (divisions c))%Q.
Proof.
  intros Hdiv Hd1 Hr1 Hp1 Hm1 Hs1 Ht1 Hd2 Hr2 Hp2 Hm2 Ht2 Hkey Hnone.
  destruct (emitted_step n1 c d1 m1 p1 start md Hdiv Hd1 Hr1 Hp1 Hm1 (or_introl Ht1))
    as (md1 & c1 & Hrun1 & Hdv1 & Hn1 & Hh1 & Hties1 & _).
  assert (Hdiv1 : divisions c1 <> 0) by now rewrite Hdv1.
  assert (Hfree : active_ties c1 !! (m2, elem_voice n2, elem_staff n2) = None).
  { rewrite Hties1, Hs1. now rewrite lookup_insert_ne. }
  destruct (emitted_step n2 c1 d2 m2 p2 start md1 Hdiv1 Hd2 Hr2 Hp2 Hm2 (or_intror Hfree))
    as (md2 & c2 & Hrun2 & _ & Hn2 & Hh2 & _).
  assert (Hlen : length (heap c1) = S (length (heap c))).
  { rewrite Hh1, length_app. simpl. lia. }
  eexists md2, c2, _, _. split; [| split; [| split]].
  - cbn [for_each]. erewrite bind_ok by exact Hrun1.
    erewrite bind_ok by exact Hrun2. reflexivity.
  - rewrite Hn2, Hn1, Hlen, <- app_assoc. reflexivity.
  - rewrite Hh2, Hh1, <- app_assoc. reflexivity.
  - simpl. rewrite Hdv1. now repeat split.
Qed.

Lemma tie_needs_same_key_witness :
  exists md' c' x1 x2,
    for_each (process_elem 0%Q)
      [NoteElem (tied_note "C" 4 24 false true); NoteElem (tied_note "D" 4 24 true false)]
      0%Q init = Ok (md', c') /\
    notes c' = [0%nat; 1%nat] /\ heap c' = [x1; x2] /\
    duration x1 = (24 / 24)%Q /\ duration x2 = (24 / 24)%Q.
Proof.
  destruct (tie_needs_same_key init (tied_note "C" 4 24 false true)
              (tied_note "D" 4 24 true false) 24 24 60 62
              (mkPitch "C" None 4) (mkPitch "D" None 4) 0%Q 0%Q)
    as (md' & c' & x1 & x2 & Hrun & Hn & Hh & _ & Hd1 & _ & Hd2); try reflexivity.
  - discriminate.
  - discriminate.
  - exists md', c', x1, x2. now repeat split.
Defined.

Lemma for_each_app {A B : Type} (body : B -> A -> M B) (l1 l2 : list A) (acc : B)
    (c : Converter) :
  for_each body (l1 ++ l2) acc c =
  (acc' ← for_each body l1 acc; for_each body l2 acc') c.
Proof.
  revert acc c. induction l1 as [| x l1 IH]; intros acc c; simpl; [reflexivity |].
  unfold mbind, M_bind in *.
  destruct (body acc x c) as [[acc1 c1] |]; [apply IH | reflexivity].
Qed.

(** A sounding note with a tie-stop marker whose key has an open entry: the
    anchor grows, and the entry stays open exactly when the note also carries
    a tie-start marker. *)
Lemma absorbed_step (n : note_elem) (c : Converter) (d m : Z) (p : pitch_elem)
    (start md : Q) (a : ref) (xa : Note) :
  divisions c <> 0 -> e_duration n = Some d -> e_rest n = false ->
  e_pitch n = Some p ->
  pitch_to_midi (p_step p) (default 0 (p_alter p)) (p_octave p) = Ok m ->
  e_tie_stop n = true ->
  active_ties c !! (m, elem_voice n, elem_staff n) = Some a ->
  heap c !! a = Some xa ->
  exists md' c', process_elem start md (NoteElem n) c = Ok (md', c') /\
    divisions c' = divisions c /\
    notes c' = notes c /\
    heap c' !! a = Some (add_duration (inject_Z d / inject_Z (divisions c))%Q xa) /\
    active_ties c' !! (m, elem_voice n, elem_staff n)
      = (if e_tie_start n then Some a else None).
Proof.
  intros Hdiv Hd Hrest Hp Hm Hstop Hopen Ha.
  destruct (process_elem_pitched_frame n c d m p start md Hdiv Hd Hrest Hp Hm)
    as (md' & c' & Hrun & Hn & Hh & Ht & Hdv & _).
  exists md', c'. split; [exact Hrun |]. rewrite Hdv, Hn, Hh, Ht. clear Hrun Hn Hh Ht Hdv.
  set (key := voice_key (elem_voice n) (elem_staff n)).
  set (b0 := default (current_beat c) (voice_beats c !! key)).
  destruct (anchored_frame key (e_chord n) b0 c) as (F1 & F2 & F3 & F4 & F5).
  set (c2 := if e_chord n then seeded key c else set_chord_start_beat b0 (seeded key c)) in *.
  pose proof (lookup_lt_Some _ _ _ Ha) as Hlt.
  unfold after_add_note, open_tie.
  cbn [heap set_heap active_ties chord_start_beat notes divisions].
  destruct (e_chord n); cbn [pitch voice staff set_beat duration];
    rewrite Hstop, F2, Hopen; destruct (e_tie_start n);
    cbn [heap set_heap active_ties chord_start_beat notes divisions set_notes
         set_active_ties]; rewrite ?F1, ?F2, ?F4;
    (split; [reflexivity |]; split; [reflexivity |]; split;
     [| first [exact Hopen | apply lookup_delete_eq]]);
    rewrite list_lookup_alter_eq, ?list_lookup_alter_ne by lia;
    rewrite lookup_app_l by exact Hlt; now rewrite Ha.
Qed.

Lemma extend_fields (f : note_elem -> Q) (l : list note_elem) (x : Note) :
  let x' := fold_left (fun y n => add_duration (f n) y) l x in
  duration x' = fold_left (fun q n => (q + f n)%Q) l (duration x) /\
  beat x' = beat x /\ pitch x' = pitch x /\ voice x' = voice x /\ staff x' = staff x.
Proof.
  revert x. induction l as [| n l IH]; intros x; simpl; [now repeat split |].
  destruct (IH (add_duration (f n) x)) as (H1 & H2 & H3 & H4 & H5).
  now repeat split.
Qed.

(** The middle of a tie chain: every note stops and starts a tie on one key. *)
Lemma chain_absorbed (m : Z) (v : string) (st : Z) (start : Q) (mids : list note_elem) :
  forall (c : Converter) (md : Q) (a : ref) (xa : Note),
    divisions c <> 0 ->
    Forall (fun n => sounds n m /\ elem_voice n = v /\ elem_staff n = st /\
                     e_tie_stop n = true /\ e_tie_start n = true) mids ->
    active_ties c !! (m, v, st) = Some a ->
    heap c !! a = Some xa ->
    exists md' c',
      for_each (process_elem start) (map NoteElem mids) md c = Ok (md', c') /\
      divisions c' = divisions c /\ notes c' = notes c /\
      active_ties c' !! (m, v, st) = Some a /\
      heap c' !! a
        = Some (fold_left (fun y n => add_duration (elem_beats (divisions c) n) y) mids xa).
Proof.
  induction mids as [| n mids IH]; intros c md a xa Hdiv Hall Hopen Ha.
  - exists md, c. now repeat split.
  - inversion Hall as [| n' l' Hn Hrest]; subst.
    destruct Hn as (([d Hd] & Hr & p & Hp & Hm) & Hv & Hs & Hstop & Hstart).
    rewrite <- Hv, <- Hs in Hopen.
    destruct (absorbed_step n c d m p start md a xa Hdiv Hd Hr Hp Hm Hstop Hopen Ha)
      as (md1 & c1 & Hrun1 & Hdv1 & Hn1 & Hh1 & Ht1).
    rewrite Hstart, Hv, Hs in Ht1.
    assert (Hdiv1 : divisions c1 <> 0) by now rewrite Hdv1.
    destruct (IH c1 md1 a _ Hdiv1 Hrest Ht1 Hh1)
      as (md2 & c2 & Hrun2 & Hdv2 & Hn2 & Ht2 & Hh2).
    exists md2, c2. split; [| split; [| split; [| split]]].
    + cbn [map for_each]. now erewrite bind_ok by exact Hrun1.
    + now rewrite Hdv2.
    + now rewrite Hn2.
    + exact Ht2.
    + rewrite Hh2, Hdv1. simpl. unfold elem_beats at 3. now rewrite Hd.
Qed.

(** X19. A tie chain of any length is one note.  A tie-start note, then any
    number of notes of the same pitch, voice and staff that stop and start a
    tie, then one that only stops it: exactly the first note is emitted, at
    its own onset, and its duration is the sum of all the durations, added
    in order. *)
Theorem tie_chain_merged (c : Converter) (m : Z) (first last : note_elem)
    (mids : list note_elem) (start md : Q) :
  divisions c <> 0 ->
  sounds first m -> e_tie_start first = true ->
  e_tie_stop first = false \/
    active_ties c !! (m, elem_voice first, elem_staff first) = None ->
  Forall (fun n => sounds n m /\ elem_voice n = elem_voice first /\
            elem_staff n = elem_staff first /\
            e_tie_stop n = true /\ e_tie_start n = true) mids ->
  sounds last m -> elem_voice last = elem_voice first ->
  elem_staff last = elem_staff first ->
  e_tie_stop last = true -> e_tie_start last = false ->
  exists md' c' x,
    for_each (process_elem start)
      (NoteElem first :: map NoteElem mids ++ [NoteElem last]) md c = Ok (md', c') /\
    notes c' = notes c ++ [length (heap c)] /\
    heap c' !! length (heap c) = Some x /\
    pitch x = m /\ beat x = onset_of first c /\
    duration x = fold_left (fun q n => (q + elem_beats (divisions c) n)%Q)
                           (mids ++ [last]) (elem_beats (divisions c) first) /\
    active_ties c' !! (m, elem_voice first, elem_staff first) = None.
Proof.
  intros Hdiv ([d0 Hd0] & Hr0 & p0 & Hp0 & Hm0) Hstart0 Hfresh Hmids
         ([dl Hdl] & Hrl & pl & Hpl & Hml) Hvl Hsl Hstopl Hstartl.
  destruct (anchor_step first c d0 m p0 start md Hdiv Hd0 Hr0 Hp0 Hm0 Hstart0 Hfresh)
    as (md1 & c1 & Hrun1 & Hdv1 & Hn1 & Hh1 & Ht1).
  set (r := length (heap c)) in *.
  set (x0 := mkNote m (onset_of first c) (inject_Z d0 / inject_Z (divisions c))%Q 80
                    (elem_voice first) (elem_staff first)) in *.
  assert (Hdiv1 : divisions c1 <> 0) by now rewrite Hdv1.
  assert (Hopen1 : active_ties c1 !! (m, elem_voice first, elem_staff first) = Some r).
  { rewrite Ht1. apply lookup_insert_eq. }
  assert (Ha1 : heap c1 !! r = Some x0).
  { rewrite Hh1. now apply list_lookup_middle. }
  destruct (chain_absorbed m _ _ start mids c1 md1 r x0 Hdiv1 Hmids Hopen1 Ha1)
    as (md2 & c2 & Hrun2 & Hdv2 & Hn2 & Ht2 & Hh2).
  assert (Hdiv2 : divisions c2 <> 0) by now rewrite Hdv2.
  rewrite <- Hvl, <- Hsl in Ht2.
  destruct (absorbed_step last c2 dl m pl start md2 r _ Hdiv2 Hdl Hrl Hpl Hml Hstopl Ht2 Hh2)
    as (md3 & c3 & Hrun3 & Hdv3 & Hn3 & Hh3 & Ht3).
  rewrite Hstartl, Hvl, Hsl in Ht3.
  eexists md3, c3, _. split; [| split; [| split; [exact Hh3 |]]].
  - cbn [for_each]. erewrite bind_ok by exact Hrun1.
    rewrite for_each_app. erewrite bind_ok by exact Hrun2.
    cbn [for_each]. now erewrite bind_ok by exact Hrun3.
  - now rewrite Hn3, Hn2, Hn1.
  - rewrite Hdv2, Hdv1.
    destruct (extend_fields (elem_beats (divisions c)) mids x0) as (E1 & E2 & E3 & _).
    cbv zeta in E1, E2, E3. simpl. rewrite E1, E2, E3.
    split; [reflexivity |]. split; [reflexivity |]. split; [| exact Ht3].
    rewrite fold_left_app. simpl.
    assert (E0 : elem_beats (divisions c) first = (inject_Z d0 / inject_Z (divisions c))%Q)
      by (unfold elem_beats; now rewrite Hd0).
    assert (El : elem_beats (divisions c) last = (inject_Z dl / inject_Z (divisions c))%Q)
      by (unfold elem_beats; now rewrite Hdl).
    now rewrite E0, El.
Qed.

Lemma sounds_tied_note (st : string) (oct d m : Z) (stop start : bool) :
  pitch_to_midi st 0 oct = Ok m -> sounds (tied_note st oct d stop start) m.
Proof.
  intros H. split; [now eexists |]. split; [reflexivity |].
  eexists. split; [reflexivity | exact H].
Qed.

Lemma tie_chain_merged_witness :
  exists md' c' x,
    for_each (process_elem 0%Q)
      (NoteElem (tied_note "C" 4 24 false true)
       :: map NoteElem [tied_note "C" 4 12 true true; tied_note "C" 4 12 true true]
       ++ [NoteElem (tied_note "C" 4 24 true false)]) 0%Q init = Ok (md', c') /\
    notes c' = [0%nat] /\ heap c' !! 0%nat = Some x /\
    pitch x = 60 /\ beat x = 0%Q /\ (duration x == 3)%Q.
Proof.
  assert (Hs : forall d stop start, sounds (tied_note "C" 4 d stop start) 60).
  { intros d stop start. now apply sounds_tied_note. }
  destruct (tie_chain_merged init 60 (tied_note "C" 4 24 false true)
              (tied_note "C" 4 24 true false)
              [tied_note "C" 4 12 true true; tied_note "C" 4 12 true true] 0%Q 0%Q)
    as (md' & c' & x & Hrun & Hn & Hx & Hp & Hb & Hd & _).
  - discriminate.
  - apply Hs.
  - reflexivity.
  - now left.
  - repeat (constructor; [split; [apply Hs | now repeat split] |]). constructor.
  - apply Hs.
  - reflexivity.
  - reflexivity.
  - reflexivity.
  - reflexivity.
  - exists md', c', x. split; [exact Hrun |]. split; [exact Hn |].
    split; [exact Hx |]. split; [exact Hp |]. split; [exact Hb |].
    rewrite Hd. reflexivity.
Defined.

(** ** The shape of the output list and the tie table *)

Lemma wf_frame (c c' : Converter) :
  heap c' = heap c -> notes c' = notes c -> active_ties c' = active_ties c ->
  wf c -> wf c'.
Proof. unfold wf. now intros -> -> ->. Qed.

Lemma wf_parts_alter (h : list Note) (ns : list ref) (ts : gmap TieKey ref)
    (f : Note -> Note) (r : ref) :
  (forall x, velocity (f x) = velocity x) ->
  wf_parts h ns ts -> wf_parts (alter f r h) ns ts.
Proof.
  intros Hf (H1 & H2 & H3 & H4). repeat split; try assumption.
  - now rewrite length_alter.
  - apply Forall_alter; [exact H4 |]. intros x _ Hx. now rewrite Hf.
Qed.

Lemma wf_parts_delete (h : list Note) (ns : list ref) (ts : gmap TieKey ref)
    (k : TieKey) :
  wf_parts h ns ts -> wf_parts h ns (delete k ts).
Proof.
  intros (H1 & H2 & H3 & H4). repeat split; try assumption.
  intros k' a Hk'. apply lookup_delete_Some in Hk'. destruct Hk' as [_ Hk'].
  now apply (H3 k').
Qed.

Lemma wf_parts_append (h : list Note) (ns : list ref) (ts ts' : gmap TieKey ref)
    (r : ref) :
  (r < length h)%nat -> r ∉ ns ->
  (forall k a, ts' !! k = Some a -> a ∈ ns \/ a = r) ->
  wf_parts h ns ts -> wf_parts h (ns ++ [r]) ts'.
Proof.
  intros Hr Hnew Hts (H1 & H2 & H3 & H4). repeat split; try assumption.
  - apply Forall_app. split; [exact H1 | now constructor].
  - apply NoDup_app. split; [exact H2 |]. split.
    + intros x Hx Hx'. apply list_elem_of_singleton in Hx'. now subst.
    + apply NoDup_singleton.
  - intros k a Hk. apply elem_of_app. destruct (Hts k a Hk) as [H | ->].
    + now left.
    + right. apply list_elem_of_here.
Qed.

Lemma wf_parts_alloc (h : list Note) (ns : list ref) (ts : gmap TieKey ref) (x : Note) :
  velocity x = 80 -> wf_parts h ns ts ->
  wf_parts (h ++ [x]) ns ts /\ (length h < length (h ++ [x]))%nat /\ length h ∉ ns.
Proof.
  intros Hx (H1 & H2 & H3 & H4). split; [repeat split; try assumption |].
  - eapply Forall_impl; [exact H1 |]. intros r Hr. rewrite length_app. simpl in *. lia.
  - apply Forall_app. split; [exact H4 | now constructor].
  - split; [rewrite length_app; simpl; lia |].
    intros Hin. rewrite Forall_forall in H1. specialize (H1 _ Hin). simpl in H1. lia.
Qed.

Lemma wf_after_add_note (n : note_elem) (ch : bool) (r : ref) (x0 : Note) (c : Converter) :
  wf c -> (r < length (heap c))%nat -> r ∉ notes c ->
  wf (after_add_note n ch r x0 c).
Proof.
  intros Hc Hr Hnew. unfold after_add_note.
  set (x := if ch then set_beat (chord_start_beat c) x0 else x0).
  set (c1 := if ch then set_heap (alter (set_beat (chord_start_beat c)) r (heap c)) c else c).
  assert (Hc1 : wf c1 /\ (r < length (heap c1))%nat /\ notes c1 = notes c).
  { subst c1. destruct ch; [| split; [exact Hc | split; [exact Hr | reflexivity]]].
    unfold wf.
    cbn [heap notes active_ties set_heap].
    split; [apply wf_parts_alter; [reflexivity | exact Hc] |].
    now rewrite length_alter. }
  destruct Hc1 as (Hwf1 & Hr1 & Hn1).
  destruct (open_tie n x c) as [a |].
  - assert (H2 : wf_parts (alter (add_duration (duration x)) a (heap c1))
                          (notes c1) (active_ties c1))
      by (apply wf_parts_alter; [reflexivity | exact Hwf1]).
    destruct (e_tie_start n); unfold wf;
      cbn [heap notes active_ties set_heap set_active_ties]; [exact H2 |].
    now apply wf_parts_delete.
  - destruct (e_tie_start n); unfold wf;
      cbn [heap notes active_ties set_heap set_active_ties set_notes].
    + apply (wf_parts_append _ _ (active_ties c1)); try assumption; [now rewrite Hn1 |].
      intros k a0. rewrite lookup_insert. case_decide.
      * intros [= <-]. now right.
      * intros Hk. left. now apply Hwf1 in Hk.
    + apply (wf_parts_append _ _ (active_ties c1)); try assumption; [now rewrite Hn1 |].
      intros k a0 Hk. left. now apply Hwf1 in Hk.
Qed.

Lemma get_voice_beat_none (key : string) (c : Converter) :
  voice_beats c !! key = None -> get_voice_beat key c = Raise (KeyError key).
Proof. intros H. unfold get_voice_beat. run. now rewrite H. Qed.

Lemma duration_to_beats_wf (d : Z) :
  hoare wf (duration_to_beats d) (fun _ c => wf c).
Proof.
  intros c Hc. unfold duration_to_beats. now destruct (decide (divisions c = 0)).
Qed.

Lemma wf_seeded (key : string) (c : Converter) : wf c -> wf (seeded key c).
Proof. apply wf_frame; unfold seeded; now destruct (voice_beats c !! key). Qed.

Lemma process_note_element_wf (n : note_elem) :
  hoare wf (process_note_element n)
        (fun o c => wf c /\
           match o with
           | Some r => (r < length (heap c))%nat /\ r ∉ notes c
           | None => True
           end).
Proof.
  unfold process_note_element.
  destruct (e_duration n) as [d |]; [| now apply hoare_ret].
  eapply hoare_bind; [apply duration_to_beats_wf |].
  intros db. destruct (e_rest n); [now apply hoare_ret |].
  destruct (e_pitch n) as [p |]; [| now apply hoare_ret].
  eapply hoare_bind with (Q := fun _ c => wf c).
  { intros c Hc. unfold lift. now destruct (pitch_to_midi _ _ _). }
  intros m. eapply hoare_bind with (Q := fun _ c => wf c).
  { intros c Hc. rewrite seed_voice_ok. now apply wf_seeded. }
  intros []. eapply hoare_bind with (Q := fun _ c => wf c).
  { intros c Hc. unfold get_voice_beat. erewrite bind_ok by reflexivity.
    now destruct (voice_beats c !! _). }
  intros b c Hc. unfold mbind, M_bind, alloc, mret, M_ret.
  unfold wf. cbn [heap notes active_ties set_heap].
  now apply wf_parts_alloc.
Qed.

Lemma add_note_wf (n : note_elem) (is_chord : bool) (r : ref) :
  hoare (fun c => wf c /\ (r < length (heap c))%nat /\ r ∉ notes c)
        (add_note n is_chord r) (fun _ c => wf c).
Proof.
  intros c (Hc & Hr & Hnew).
  destruct (lookup_lt_is_Some_2 _ _ Hr) as [x0 Hx0].
  rewrite (add_note_ok n is_chord r c x0 Hx0). now apply wf_after_add_note.
Qed.

Lemma advance_voice_wf (key : string) (db start md : Q) :
  hoare wf (advance_voice key db start md) (fun _ c => wf c).
Proof.
  intros c Hc. destruct (voice_beats c !! key) as [b |] eqn:Hb.
  - destruct (advance_voice_ok key db start md b c Hb) as (top & k' & Hadv & _).
    rewrite Hadv. revert Hc. now apply wf_frame.
  - unfold advance_voice, get_voice_beat.
    unfold mbind at 1, M_bind. erewrite bind_ok by reflexivity. now rewrite Hb.
Qed.

Lemma process_elem_wf (start md : Q) (e : elem) :
  hoare wf (process_elem start md e) (fun _ c => wf c).
Proof.
  destruct e as [[v |] | n | [d |] | [d |] | tag]; try (now apply hoare_ret).
  - intros c Hc. revert Hc. now apply wf_frame.
  - unfold process_elem.
    eapply hoare_bind with (Q := fun _ c => wf c).
    { destruct (e_duration n); [apply duration_to_beats_wf | now apply hoare_ret]. }
    intros db. cbv zeta.
    eapply hoare_bind with (Q := fun _ c => wf c).
    { intros c Hc. rewrite seed_voice_ok. now apply wf_seeded. }
    intros []. eapply hoare_bind with (Q := fun _ c => wf c).
    { apply hoare_when; [| auto]. intros _ c Hc.
      destruct (voice_beats c !! voice_key (elem_voice n) (elem_staff n)) as [b |] eqn:E.
      - erewrite bind_ok by (apply get_voice_beat_ok, E). revert Hc. now apply wf_frame.
      - now erewrite bind_raise by (apply get_voice_beat_none, E). }
    intros []. eapply hoare_bind; [apply process_note_element_wf |].
    intros note. eapply hoare_bind with (Q := fun _ c => wf c).
    { destruct note as [r |]; [apply add_note_wf |]. apply hoare_ret. tauto. }
    intros []. destruct (e_chord n); [now apply hoare_ret | apply advance_voice_wf].
  - unfold process_elem. eapply hoare_bind; [apply duration_to_beats_wf |].
    intros q c Hc. revert Hc. now apply wf_frame.
  - unfold process_elem. eapply hoare_bind; [apply duration_to_beats_wf |].
    intros q c Hc. revert Hc. now apply wf_frame.
Qed.

Lemma process_measure_wf (m : measure) :
  hoare wf (process_measure m) (fun _ c => wf c).
Proof.
  intros c Hc. unfold process_measure. erewrite bind_ok by reflexivity.
  generalize (current_beat c). intros start. revert c Hc.
  change (hoare wf
    (measure_duration ← for_each (process_elem start) m 0%Q;
     when (Qltb 0 measure_duration)
          (modify (set_current_beat (start + measure_duration)%Q)))
    (fun _ c => wf c)).
  eapply hoare_bind with (Q := fun _ c => wf c).
  - apply (hoare_for_each (fun _ c => wf c) (fun _ => True)).
    + intros acc x _. apply process_elem_wf.
    + now apply Forall_forall.
  - intros md. apply hoare_when; [| auto]. intros _ c Hc. revert Hc. now apply wf_frame.
Qed.

Lemma process_part_wf (p : part) : hoare wf (process_part p) (fun _ c => wf c).
Proof.
  unfold process_part.
  eapply hoare_bind with (Q := fun _ c => wf c).
  { intros c Hc. revert Hc. now apply wf_frame. }
  intros []. eapply hoare_bind with (Q := fun _ c => wf c).
  { intros c Hc. revert Hc. now apply wf_frame. }
  intros []. apply (hoare_for_each (fun _ c => wf c) (fun _ => True)).
  - intros [] m _. apply process_measure_wf.
  - now apply Forall_forall.
Qed.

(** The converter [convert_file] ends in, when it starts from a converter
    whose [Note] objects have the default velocity. *)
Lemma convert_file_wf (doc : document) (c c' : Converter) (s : song) :
  Forall (fun x => velocity x = 80) (heap c) ->
  convert_file doc c = Ok (s, c') -> wf c'.
Proof.
  intros Hvel Hrun. unfold convert_file in Hrun.
  do 4 (erewrite bind_ok in Hrun by reflexivity).
  set (c0 := set_voice_beats ∅ _) in Hrun.
  assert (H0 : wf c0).
  { unfold wf. subst c0. simpl. repeat split; try constructor; try assumption.
    intros k a Hk. now rewrite lookup_empty in Hk. }
  pose proof (hoare_for_each (fun _ c => wf c) (fun _ => True)
                (fun _ p => process_part p) (parts doc)
                (fun _ p _ => process_part_wf p)
                (proj2 (Forall_forall _ _) (fun _ _ => I)) tt c0 H0) as Hparts.
  unfold mbind, M_bind in Hrun.
  destruct (for_each _ (parts doc) tt c0) as [[[] c1] |]; [| discriminate].
  unfold get, mret, M_ret in Hrun. now injection Hrun as _ <-.
Qed.

Lemma emitted_velocity (c : Converter) :
  wf c -> Forall (fun j => j_velocity j = 80) (emitted c).
Proof.
  intros (Hvalid & _ & _ & Hvel). unfold emitted. apply List.Forall_map.
  eapply Forall_impl; [exact Hvalid |]. intros r Hr. simpl in Hr.
  destruct (lookup_lt_is_Some_2 _ _ Hr) as [x Hx].
  rewrite (list_lookup_total_correct _ _ _ Hx). simpl.
  exact (Forall_lookup_1 _ _ _ _ Hvel Hx).
Qed.

(** X20. Every note of a converted song has velocity 80. *)
Theorem output_velocity (doc : document) (s : song) :
  convert doc = Ok s -> Forall (fun j => j_velocity j = 80) (song_notes s).
Proof.
  unfold convert. destruct (convert_file doc init) as [[s' c'] |] eqn:Hrun; [| discriminate].
  intros [= <-].
  assert (Hwf : wf c')
    by (apply (convert_file_wf doc init c' s'); [simpl; constructor | exact Hrun]).
  apply convert_file_result in Hrun. subst s'. cbn [song_notes].
  apply Forall_sort_by_beat. now apply emitted_velocity.
Qed.

Lemma output_velocity_witness :
  Forall (fun j => j_velocity j = 80)
         [mkJson 60 0%Q 1%Q 80; mkJson 64 0%Q 1%Q 80].
Proof.
  apply (output_velocity chord_c_e (mkSong "Untitled" 120
           [mkJson 60 0%Q 1%Q 80; mkJson 64 0%Q 1%Q 80])).
  vm_compute. reflexivity.
Defined.

(** X21. At the end of a conversion no [Note] is in the output list twice,
    the song has one note for each entry of that list, and every tie still
    open is held by a note of the output. *)
Theorem emitted_once (doc : document) (s : song) (c' : Converter) :
  convert_file doc init = Ok (s, c') ->
  NoDup (notes c') /\
  length (song_notes s) = length (notes c') /\
  (forall k a, active_ties c' !! k = Some a -> a ∈ notes c').
Proof.
  intros Hrun.
  assert (Hwf : wf c')
    by (apply (convert_file_wf doc init c' s); [simpl; constructor | exact Hrun]).
  apply convert_file_result in Hrun. subst s. cbn [song_notes].
  destruct Hwf as (_ & Hnodup & Hties & _).
  split; [exact Hnodup |]. split; [| exact Hties].
  rewrite (Permutation_length (sort_by_beat_perm (emitted c'))).
  unfold emitted. apply length_map.
Qed.

Lemma emitted_once_witness :
  exists s c', convert_file tie_across_parts init = Ok (s, c') /\
    NoDup (notes c') /\
    length (song_notes s) = length (notes c') /\
    (forall k a, active_ties c' !! k = Some a -> a ∈ notes c').
Proof.
  eexists _, _. split; [vm_compute; reflexivity |].
  apply (emitted_once tie_across_parts). vm_compute. reflexivity.
Defined.

(** ** The end of a measure *)



(** ** Forward and divisions *)

(** X23. A forward only moves the part-wide cursor: the sounding note after
    it (not chord-flagged, not absorbed by a tie) starts at the cursor of its
    own voice when the voice has one, and at the forwarded part-wide cursor
    when the voice is new. *)
Theorem forward_moves_new_voices_only (c : Converter) (n : note_elem) (d dn m : Z)
    (p : pitch_elem) (start md : Q) :
  divisions c <> 0 ->
  e_duration n = Some dn -> e_rest n = false -> e_pitch n = Some p ->
  pitch_to_midi (p_step p) (default 0 (p_alter p)) (p_octave p) = Ok m ->
  e_chord n = false ->
  e_tie_stop n = false \/ active_ties c !! (m, elem_voice n, elem_staff n) = None ->
  exists md' c' x,
    for_each (process_elem start) [Forward (Some d); NoteElem n] md c = Ok (md', c') /\
    notes c' = notes c ++ [length (heap c)] /\
    heap c' = heap c ++ [x] /\ pitch x = m /\
    beat x = default (current_beat c + inject_Z d / inject_Z (divisions c))%Q
                     (voice_beats c !! voice_key (elem_voice n) (elem_staff n)).
Proof.
  intros Hdiv Hdn Hrest Hp Hm Hch Hfree.
  set (c1 := set_current_beat (current_beat c + inject_Z d / inject_Z (divisions c))%Q c).
  assert (Hfwd : process_elem start md (Forward (Some d)) c = Ok (md, c1)).
  { unfold process_elem. now erewrite bind_ok by (now apply duration_to_beats_ok). }
  destruct (emitted_step n c1 dn m p start md Hdiv Hdn Hrest Hp Hm Hfree)
    as (md' & c' & Hrun & _ & Hn & Hh & _).
  eexists md', c', _. split; [| split; [exact Hn | split; [exact Hh |]]].
  - cbn [for_each]. erewrite bind_ok by exact Hfwd.
    now erewrite bind_ok by exact Hrun.
  - simpl. split; [reflexivity |]. unfold onset_of. now rewrite Hch.
Qed.

Lemma forward_moves_new_voices_only_witness :
  exists md' c' x,
    for_each (process_elem 0%Q) [Forward (Some 48); NoteElem second_voice_note] 1%Q mid_part
      = Ok (md', c') /\
    heap c' = heap mid_part ++ [x] /\ pitch x = 64 /\ (beat x == 3)%Q.
Proof.
  destruct (forward_moves_new_voices_only mid_part second_voice_note 48 24 64
              (mkPitch "E" None 4) 0%Q 1%Q)
    as (md' & c' & x & Hrun & _ & Hh & Hp & Hb); try reflexivity.
  - discriminate.
  - now left.
  - exists md', c', x. split; [exact Hrun |]. split; [exact Hh |].
    split; [exact Hp |]. rewrite Hb. reflexivity.
Defined.

(** X24. A divisions declaration applies to what follows and to nothing
    before it: the sounding note after it (not absorbed by a tie) gets its
    duration from the new value, and the [Note] objects created earlier are
    left as they are. *)
Theorem divisions_apply_forward (c : Converter) (n : note_elem) (v dn m : Z)
    (p : pitch_elem) (start md : Q) :
  v <> 0 ->
  e_duration n = Some dn -> e_rest n = false -> e_pitch n = Some p ->
  pitch_to_midi (p_step p) (default 0 (p_alter p)) (p_octave p) = Ok m ->
  e_tie_stop n = false \/ active_ties c !! (m, elem_voice n, elem_staff n) = None ->
  exists md' c' x,
    for_each (process_elem start) [Attributes (Some v); NoteElem n] md c = Ok (md', c') /\
    divisions c' = v /\
    heap c' = heap c ++ [x] /\ pitch x = m /\
    duration x = (inject_Z dn / inject_Z v)%Q.
Proof.
  intros Hv Hdn Hrest Hp Hm Hfree.
  destruct (emitted_step n (set_divisions v c) dn m p start md Hv Hdn Hrest Hp Hm Hfree)
    as (md' & c' & Hrun & Hdv & _ & Hh & _).
  eexists md', c', _. split; [| split; [exact Hdv | split; [exact Hh |]]].
  - cbn [for_each]. erewrite bind_ok by reflexivity.
    now erewrite bind_ok by exact Hrun.
  - now split.
Qed.

Lemma divisions_apply_forward_witness :
  exists md' c' x,
    for_each (process_elem 0%Q) [Attributes (Some 12); NoteElem second_voice_note] 1%Q mid_part
      = Ok (md', c') /\
    divisions c' = 12 /\ heap c' = heap mid_part ++ [x] /\
    duration x = (24 / 12)%Q.
Proof.
  destruct (divisions_apply_forward mid_part second_voice_note 12 24 64
              (mkPitch "E" None 4) 0%Q 1%Q)
    as (md' & c' & x & Hrun & Hdv & Hh & _ & Hd); try reflexivity.
  - discriminate.
  - now left.
  - exists md', c', x. now repeat split.
Defined.

(** ** Missing keys in the editor's input *)

Lemma extract_notes_nil (a b : Z) : extract_notes a b [] = [].
Proof. reflexivity. Qed.

(** X25. A loaded dictionary without a "notes" key is taken as a song
    without notes: whatever the options, a run that saves either saves the
    dictionary as it was loaded (no operation asked for) or saves an empty
    note list. *)
Theorem edit_main_missing_notes (a : args) (d r : song_data) :
  sd_notes d = None -> edit_main a d = Saved r ->
  r = d \/ sd_notes r = Some [].
Proof.
  intros Hd. unfold edit_main.
  destruct (a_right_hand a && a_left_hand a); [discriminate |].
  destruct ((a_right_hand a || a_left_hand a) && _); [discriminate |].
  assert (Hempty : forall s lo hi, song_notes s = [] ->
            song_notes (filter_by_pitch s lo hi) = []).
  { intros s lo hi Hs. unfold filter_by_pitch. cbn [song_notes]. now rewrite Hs. }
  assert (HE : song_notes (SongEditor d) = []).
  { unfold SongEditor. cbn [song_notes]. now rewrite Hd. }
  destruct (a_measures a) as [[st en] |].
  - assert (HX : song_notes (SongEditor (to_data
                   (extract_measures (SongEditor d) st en (a_beats a)))) = []).
    { unfold extract_measures, SongEditor, to_data. cbn [song_notes sd_notes default].
      now rewrite Hd. }
    destruct (a_right_hand a); [| destruct (a_left_hand a);
      [| destruct (bool_decide _ || bool_decide _)]];
      intros [= <-]; right; unfold filter_right_hand, filter_left_hand;
      cbn [to_data sd_notes song_notes]; f_equal;
      try (now apply Hempty).
    unfold extract_measures. cbn [song_notes]. now rewrite HE.
  - destruct (a_right_hand a); [| destruct (a_left_hand a);
      [| destruct (bool_decide _ || bool_decide _)]];
      intros [= <-]; try (now left); right;
      unfold filter_right_hand, filter_left_hand;
      cbn [to_data sd_notes song_notes]; f_equal; now apply Hempty.
Qed.

Lemma edit_main_missing_notes_witness :
  mkSongData (Some "t (小節 1-2) (右手)"%string) (Some 120) (Some [])
    = mkSongData (Some "t"%string) None None \/
  sd_notes (mkSongData (Some "t (小節 1-2) (右手)"%string) (Some 120) (Some []))
    = Some [].
Proof.
  apply (edit_main_missing_notes (mkArgs (Some (1, 2)) 4 true false 60 None None)).
  - reflexivity.
  - vm_compute. reflexivity.
Defined.

(** ** Notes stay where they were put *)

Lemma keeps_refl (h : list Note) : keeps h h.
Proof. intros i x Hx. exists x. now repeat split. Qed.

Lemma keeps_trans (h1 h2 h3 : list Note) : keeps h1 h2 -> keeps h2 h3 -> keeps h1 h3.
Proof.
  intros H12 H23 i x Hx.
  destruct (H12 i x Hx) as (x2 & Hx2 & E2 & E3 & E4 & E5 & E6).
  destruct (H23 i x2 Hx2) as (x3 & Hx3 & F2 & F3 & F4 & F5 & F6).
  exists x3. split; [exact Hx3 |]. repeat split; congruence.
Qed.

Lemma keeps_length (h h' : list Note) : keeps h h' -> (length h <= length h')%nat.
Proof.
  intros H. destruct (decide (length h = 0%nat)) as [E | E]; [lia |].
  destruct (lookup_lt_is_Some_2 h (length h - 1)) as [x Hx]; [lia |].
  destruct (H _ _ Hx) as (x' & Hx' & _). apply lookup_lt_Some in Hx'. lia.
Qed.

Lemma keeps_app (h0 h : list Note) (x : Note) : keeps h0 h -> keeps h0 (h ++ [x]).
Proof.
  intros H i y Hy. destruct (H i y Hy) as (y' & Hy' & E).
  exists y'. split; [| exact E]. rewrite lookup_app_l; [exact Hy' |].
  now apply lookup_lt_Some in Hy'.
Qed.

Lemma keeps_add_duration (h0 h : list Note) (d : Q) (a : ref) :
  keeps h0 h -> keeps h0 (alter (add_duration d) a h).
Proof.
  intros H. apply (keeps_trans _ h); [exact H |].
  intros i x Hx. rewrite list_lookup_alter. destruct (decide (a = i)) as [-> | _].
  - rewrite Hx. simpl. eexists. split; [reflexivity |]. now repeat split.
  - exists x. split; [exact Hx |]. now repeat split.
Qed.

Lemma keeps_alter_new (h0 h : list Note) (f : Note -> Note) (r : ref) :
  (length h0 <= r)%nat -> keeps h0 h -> keeps h0 (alter f r h).
Proof.
  intros Hr H i x Hx. destruct (H i x Hx) as (x' & Hx' & E).
  exists x'. split; [| exact E]. rewrite list_lookup_alter_ne; [exact Hx' |].
  apply lookup_lt_Some in Hx. lia.
Qed.

Section Keeps.
Variable h0 : list Note.

(** The objects of [h0] are kept in the converter's store. *)
Let K (c : Converter) : Prop := keeps h0 (heap c).

Lemma K_frame (c c' : Converter) : heap c' = heap c -> K c -> K c'.
Proof. unfold K. now intros ->. Qed.

Lemma duration_to_beats_K (d : Z) : hoare K (duration_to_beats d) (fun _ c => K c).
Proof.
  intros c Hc. unfold duration_to_beats. now destruct (decide (divisions c = 0)).
Qed.

Lemma K_seeded (key : string) (c : Converter) : K c -> K (seeded key c).
Proof. apply K_frame. apply heap_seeded. Qed.

Lemma process_note_element_K (n : note_elem) :
  hoare K (process_note_element n)
        (fun o c => K c /\
           match o with
           | Some r => (length h0 <= r < length (heap c))%nat
           | None => True
           end).
Proof.
  unfold process_note_element.
  destruct (e_duration n) as [d |]; [| now apply hoare_ret].
  eapply hoare_bind; [apply duration_to_beats_K |].
  intros db. destruct (e_rest n); [now apply hoare_ret |].
  destruct (e_pitch n) as [p |]; [| now apply hoare_ret].
  eapply hoare_bind with (Q := fun _ c => K c).
  { intros c Hc. unfold lift. now destruct (pitch_to_midi _ _ _). }
  intros m. eapply hoare_bind with (Q := fun _ c => K c).
  { intros c Hc. rewrite seed_voice_ok. now apply K_seeded. }
  intros []. eapply hoare_bind with (Q := fun _ c => K c).
  { intros c Hc. unfold get_voice_beat. erewrite bind_ok by reflexivity.
    now destruct (voice_beats c !! _). }
  intros b c Hc. unfold mbind, M_bind, alloc, mret, M_ret.
  unfold K. cbn [heap set_heap]. split; [now apply keeps_app |].
  pose proof (keeps_length _ _ Hc). rewrite length_app. simpl. lia.
Qed.

Lemma K_after_add_note (n : note_elem) (ch : bool) (r : ref) (x0 : Note) (c : Converter) :
  K c -> (length h0 <= r)%nat -> K (after_add_note n ch r x0 c).
Proof.
  intros Hc Hr. unfold after_add_note.
  set (c1 := if ch then set_heap (alter (set_beat (chord_start_beat c)) r (heap c)) c else c).
  assert (Hc1 : K c1).
  { subst c1. destruct ch; [| exact Hc]. unfold K. cbn [heap set_heap].
    now apply keeps_alter_new. }
  destruct (open_tie n _ c) as [a |]; destruct (e_tie_start n); unfold K;
    cbn [heap set_heap set_active_ties set_notes];
    try (now apply keeps_add_duration); exact Hc1.
Qed.

Lemma add_note_K (n : note_elem) (is_chord : bool) (r : ref) :
  hoare (fun c => K c /\ (length h0 <= r < length (heap c))%nat)
        (add_note n is_chord r) (fun _ c => K c).
Proof.
  intros c (Hc & Hr1 & Hr2).
  destruct (lookup_lt_is_Some_2 _ _ Hr2) as [x0 Hx0].
  rewrite (add_note_ok n is_chord r c x0 Hx0). now apply K_after_add_note.
Qed.

Lemma advance_voice_K (key : string) (db start md : Q) :
  hoare K (advance_voice key db start md) (fun _ c => K c).
Proof.
  intros c Hc. destruct (voice_beats c !! key) as [b |] eqn:Hb.
  - destruct (advance_voice_ok key db start md b c Hb) as (top & k' & Hadv & _).
    rewrite Hadv. revert Hc. now apply K_frame.
  - unfold advance_voice.
    now erewrite bind_raise by (apply get_voice_beat_none, Hb).
Qed.

Lemma process_elem_K (start md : Q) (e : elem) :
  hoare K (process_elem start md e) (fun _ c => K c).
Proof.
  destruct e as [[v |] | n | [d |] | [d |] | tag]; try (now apply hoare_ret).
  - intros c Hc. revert Hc. now apply K_frame.
  - unfold process_elem.
    eapply hoare_bind with (Q := fun _ c => K c).
    { destruct (e_duration n); [apply duration_to_beats_K | now apply hoare_ret]. }
    intros db. cbv zeta.
    eapply hoare_bind with (Q := fun _ c => K c).
    { intros c Hc. rewrite seed_voice_ok. now apply K_seeded. }
    intros []. eapply hoare_bind with (Q := fun _ c => K c).
    { apply hoare_when; [| auto]. intros _ c Hc.
      destruct (voice_beats c !! voice_key (elem_voice n) (elem_staff n)) as [b |] eqn:E.
      - erewrite bind_ok by (apply get_voice_beat_ok, E). revert Hc. now apply K_frame.
      - now erewrite bind_raise by (apply get_voice_beat_none, E). }
    intros []. eapply hoare_bind; [apply process_note_element_K |].
    intros note. eapply hoare_bind with (Q := fun _ c => K c).
    { destruct note as [r |]; [apply add_note_K |]. apply hoare_ret. tauto. }
    intros []. destruct (e_chord n); [now apply hoare_ret | apply advance_voice_K].
  - unfold process_elem. eapply hoare_bind; [apply duration_to_beats_K |].
    intros q c Hc. revert Hc. now apply K_frame.
  - unfold process_elem. eapply hoare_bind; [apply duration_to_beats_K |].
    intros q c Hc. revert Hc. now apply K_frame.
Qed.

Lemma process_measure_K (m : measure) :
  hoare K (process_measure m) (fun _ c => K c).
Proof.
  intros c Hc. unfold process_measure. erewrite bind_ok by reflexivity.
  generalize (current_beat c). intros start. revert c Hc.
  change (hoare K
    (measure_duration ← for_each (process_elem start) m 0%Q;
     when (Qltb 0 measure_duration)
          (modify (set_current_beat (start + measure_duration)%Q)))
    (fun _ c => K c)).
  eapply hoare_bind with (Q := fun _ c => K c).
  - apply (hoare_for_each (fun _ c => K c) (fun _ => True)).
    + intros acc x _. apply process_elem_K.
    + now apply Forall_forall.
  - intros md. apply hoare_when; [| auto]. intros _ c Hc. revert Hc. now apply K_frame.
Qed.

Lemma process_part_K (p : part) : hoare K (process_part p) (fun _ c => K c).
Proof.
  unfold process_part.
  eapply hoare_bind with (Q := fun _ c => K c).
  { intros c Hc. revert Hc. now apply K_frame. }
  intros []. eapply hoare_bind with (Q := fun _ c => K c).
  { intros c Hc. revert Hc. now apply K_frame. }
  intros []. apply (hoare_for_each (fun _ c => K c) (fun _ => True)).
  - intros [] m _. apply process_measure_K.
  - now apply Forall_forall.
Qed.

End Keeps.

(** X26. A [Note], once created, stays where it was put: processing a
    measure, or a whole part, changes no existing [Note] in its pitch, beat,
    velocity, voice or staff; only a duration can change. *)
Theorem notes_stay_put :
  (forall (m : measure) (c c' : Converter),
     process_measure m c = Ok (tt, c') -> keeps (heap c) (heap c')) /\
  (forall (p : part) (c c' : Converter),
     process_part p c = Ok (tt, c') -> keeps (heap c) (heap c')).
Proof.
  split.
  - intros m c c' Hrun.
    pose proof (process_measure_K (heap c) m c (keeps_refl _)) as H.
    now rewrite Hrun in H.
  - intros p c c' Hrun.
    pose proof (process_part_K (heap c) p c (keeps_refl _)) as H.
    now rewrite Hrun in H.
Qed.

Lemma notes_stay_put_witness :
  exists c', process_measure [NoteElem (tied_note "C" 4 24 true false)] mid_part
             = Ok (tt, c') /\
    keeps (heap mid_part) (heap c').
Proof.
  eexists. split; [vm_compute; reflexivity |].
  apply (proj1 notes_stay_put [NoteElem (tied_note "C" 4 24 true false)] mid_part).
  vm_compute. reflexivity.
Defined.

(** ** Splitting a conversion at a point of the document *)

Lemma convert_from_cons (start md : Q) (e : elem) (es : list elem) (ms : list measure)
    (ps : list part) (t : string) (c : Converter) :
  convert_from start md (e :: es) ms ps t c =
  match process_elem start md e c with
  | Ok (md1, c1) => convert_from start md1 es ms ps t c1
  | Raise x => Raise x
  end.
Proof.
  unfold convert_from. cbn [for_each]. unfold mbind, M_bind.
  now destruct (process_elem start md e c) as [[md1 c1] |].
Qed.

Lemma convert_from_measure (start md : Q) (m : measure) (ms : list measure)
    (ps : list part) (t : string) (c : Converter) :
  convert_from start md [] (m :: ms) ps t c =
  convert_from (current_beat (end_measure start md c)) 0 m ms ps t (end_measure start md c).
Proof.
  unfold convert_from, end_measure. cbn [for_each].
  unfold process_measure, mbind, M_bind, mret, M_ret, get.
  destruct (Qltb 0 md); cbn [when]; unfold modify, mret, M_ret;
    match goal with
    | |- context [for_each (process_elem ?s) m 0%Q ?c0] =>
        destruct (for_each (process_elem s) m 0%Q c0) as [[md1 c1] |];
        [destruct (Qltb 0 md1); reflexivity | reflexivity]
    end.
Qed.

Lemma convert_from_part (start md : Q) (p : part) (ps : list part) (t : string)
    (c : Converter) :
  convert_from start md [] [] (p :: ps) t c =
  convert_from 0 0 [] p ps t
    (set_voice_beats ∅ (set_current_beat 0%Q (end_measure start md c))).
Proof.
  unfold convert_from, end_measure. cbn [for_each].
  unfold process_part, mbind, M_bind, mret, M_ret, get.
  destruct (Qltb 0 md); cbn [when]; unfold modify, mret, M_ret;
    change (Qltb 0 0) with false; cbn [when]; unfold mret, M_ret;
    match goal with
    | |- context [for_each ?f p tt ?c0] =>
        now destruct (for_each f p tt c0) as [[[] c1] |]
    end.
Qed.

Lemma following_measure (m : measure) (ms : list measure) (ps : list part) :
  following [] (m :: ms) ps = following m ms ps.
Proof. unfold following. simpl. now rewrite <- app_assoc. Qed.

Lemma following_part (p : part) (ps : list part) :
  following [] [] (p :: ps) = following [] p ps.
Proof. unfold following. simpl. now rewrite concat_app. Qed.

Lemma process_part_eq (p : part) (c : Converter) :
  process_part p c =
  for_each (fun _ m => process_measure m) p tt (set_voice_beats ∅ (set_current_beat 0%Q c)).
Proof. reflexivity. Qed.

Lemma process_measure_eq (m : measure) (c : Converter) :
  process_measure m c =
  match for_each (process_elem (current_beat c)) m 0%Q c with
  | Ok (md, c') => Ok (tt, end_measure (current_beat c) md c')
  | Raise x => Raise x
  end.
Proof.
  unfold process_measure, end_measure, mbind, M_bind, get.
  destruct (for_each _ m 0%Q c) as [[md c'] |]; [| reflexivity].
  now destruct (Qltb 0 md).
Qed.

Lemma convert_split (doc : document) (ps1 ps2 : list part) (ms1 ms2 : list measure)
    (pre es : list elem) (c0 : Converter) :
  parts doc = ps1 ++ (ms1 ++ (pre ++ es) :: ms2) :: ps2 ->
  convert_file doc c0 =
  match convert_upto ps1 ms1 pre c0 with
  | Ok ((start, md), c) =>
      convert_from start md es ms2 ps2 (default "Untitled"%string (work_title doc)) c
  | Raise x => Raise x
  end.
Proof.
  intros Hparts. unfold convert_file, convert_upto, convert_from. rewrite Hparts.
  unfold mbind, M_bind, modify, get, mret, M_ret. cbv beta iota.
  rewrite for_each_app. unfold mbind, M_bind.
  destruct (for_each _ ps1 tt _) as [[[] cA] |]; [| reflexivity].
  cbn [for_each]. unfold mbind, M_bind. rewrite process_part_eq.
  rewrite for_each_app. unfold mbind, M_bind.
  destruct (for_each _ ms1 tt _) as [[[] cB] |]; [| reflexivity].
  cbn [for_each]. unfold mbind, M_bind. rewrite process_measure_eq.
  rewrite for_each_app. unfold mbind, M_bind.
  destruct (for_each _ pre 0%Q cB) as [[md c] |]; [| reflexivity].
  destruct (for_each _ es md c) as [[md1 c1] |]; [| reflexivity].
  unfold end_measure.
  destruct (Qltb 0 md1); cbn [when]; unfold modify, mret, M_ret;
    match goal with
    | |- context [for_each ?f ms2 tt ?c0] =>
        now destruct (for_each f ms2 tt c0) as [[[] c2] |]
    end.
Qed.

(** ** Running up to the next element of some kind *)

Section Scan.
Variable quiet : elem -> bool.
Variable J : list elem -> Converter -> Prop.
Variable bad : exn -> Prop.
Variable t : string.
Hypothesis quiet_step : forall e l start md c, quiet e = true -> J (e :: l) c ->
  (exists x, process_elem start md e c = Raise x /\ bad x) \/
  (exists md' c', process_elem start md e c = Ok (md', c') /\ J l c').
Hypothesis J_frame : forall l c c',
  heap c' = heap c -> notes c' = notes c -> active_ties c' = active_ties c ->
  divisions c' = divisions c -> J l c -> J l c'.

(** From a point where [J] holds, the conversion stops with a [bad]
    exception, or it comes to the first element that is not quiet, and [J]
    holds there. *)
Let reaches (es : list elem) (ms : list measure) (ps : list part) : Prop :=
  forall start md c e, J (following es ms ps) c ->
    find (fun e => negb (quiet e)) (following es ms ps) = Some e ->
    (exists x, convert_from start md es ms ps t c = Raise x /\ bad x) \/
    (exists start' md' es' ms' ps' c', J (following (e :: es') ms' ps') c' /\
       convert_from start md es ms ps t c = convert_from start' md' (e :: es') ms' ps' t c').

Lemma J_end_measure (l : list elem) (start md : Q) (c : Converter) :
  J l c -> J l (end_measure start md c).
Proof. unfold end_measure. destruct (Qltb 0 md); [| easy]. now apply J_frame. Qed.

Lemma reaches_cons (e0 : elem) (es : list elem) (ms : list measure) (ps : list part) :
  reaches es ms ps -> reaches (e0 :: es) ms ps.
Proof.
  intros IH start md c e Hc Hfind.
  change (following (e0 :: es) ms ps) with (e0 :: following es ms ps) in Hfind, Hc.
  cbn [find] in Hfind. destruct (quiet e0) eqn:Hq; cbn [negb] in Hfind.
  - rewrite convert_from_cons.
    destruct (quiet_step e0 _ start md c Hq Hc)
      as [(x & Hstep & Hx) | (md1 & c1 & Hstep & Hc1)]; rewrite Hstep.
    + left. now exists x.
    + now apply IH.
  - injection Hfind as <-. right. now exists start, md, es, ms, ps, c.
Qed.

Lemma reaches_all (ps : list part) (ms : list measure) (es : list elem) :
  reaches es ms ps.
Proof.
  revert ms es. induction ps as [| p ps IHps]; intros ms; induction ms as [| m ms IHms];
    intros es; induction es as [| e0 es IHes]; try (now apply reaches_cons).
  - intros start md c e _ Hfind. discriminate.
  - intros start md c e Hc Hfind.
    rewrite following_measure in Hfind, Hc. rewrite convert_from_measure.
    apply IHms; [now apply J_end_measure | exact Hfind].
  - intros start md c e Hc Hfind.
    rewrite following_part in Hfind, Hc. rewrite convert_from_part.
    apply IHps; [| exact Hfind].
    apply (J_frame _ (end_measure start md c)); try reflexivity. now apply J_end_measure.
  - intros start md c e Hc Hfind.
    rewrite following_measure in Hfind, Hc. rewrite convert_from_measure.
    apply IHms; [now apply J_end_measure | exact Hfind].
Qed.

End Scan.

(** ** Invariants of the store, the output list and the tie table *)

Section Lift.
Variable Iv : Converter -> Prop.
Hypothesis I_frame : forall c c',
  heap c' = heap c -> notes c' = notes c -> active_ties c' = active_ties c ->
  Iv c -> Iv c'.
Hypothesis I_note : forall n ch x0 c,
  Iv c -> Iv (after_add_note n ch (length (heap c)) x0 (set_heap (heap c ++ [x0]) c)).

Lemma duration_to_beats_I (d : Z) : hoare Iv (duration_to_beats d) (fun _ c => Iv c).
Proof.
  intros c Hc. unfold duration_to_beats. now destruct (decide (divisions c = 0)).
Qed.

Lemma I_seeded (key : string) (c : Converter) : Iv c -> Iv (seeded key c).
Proof. apply I_frame; unfold seeded; now destruct (_ !! _). Qed.

Lemma process_note_element_I (n : note_elem) :
  hoare Iv (process_note_element n)
        (fun o c =>
           match o with
           | Some r => exists c0 x0, Iv c0 /\ r = length (heap c0) /\
                                     c = set_heap (heap c0 ++ [x0]) c0
           | None => Iv c
           end).
Proof.
  unfold process_note_element.
  destruct (e_duration n) as [d |]; [| now apply hoare_ret].
  eapply hoare_bind; [apply duration_to_beats_I |].
  intros db. destruct (e_rest n); [now apply hoare_ret |].
  destruct (e_pitch n) as [p |]; [| now apply hoare_ret].
  eapply hoare_bind with (Q := fun _ c => Iv c).
  { intros c Hc. unfold lift. now destruct (pitch_to_midi _ _ _). }
  intros m. eapply hoare_bind with (Q := fun _ c => Iv c).
  { intros c Hc. rewrite seed_voice_ok. now apply I_seeded. }
  intros []. eapply hoare_bind with (Q := fun _ c => Iv c).
  { intros c Hc. unfold get_voice_beat. erewrite bind_ok by reflexivity.
    now destruct (voice_beats c !! _). }
  intros b c Hc. unfold mbind, M_bind, alloc, mret, M_ret.
  eexists c, _. split; [exact Hc |]. split; reflexivity.
Qed.

Lemma add_note_I (n : note_elem) (is_chord : bool) (r : ref) :
  hoare (fun c => exists c0 x0, Iv c0 /\ r = length (heap c0) /\
                                c = set_heap (heap c0 ++ [x0]) c0)
        (add_note n is_chord r) (fun _ c => Iv c).
Proof.
  intros c (c0 & x0 & Hc0 & -> & ->).
  rewrite (add_note_ok n is_chord _ _ x0); [now apply I_note |].
  cbn [heap set_heap]. now apply list_lookup_middle.
Qed.

Lemma advance_voice_I (key : string) (db start md : Q) :
  hoare Iv (advance_voice key db start md) (fun _ c => Iv c).
Proof.
  intros c Hc. destruct (voice_beats c !! key) as [b |] eqn:Hb.
  - destruct (advance_voice_ok key db start md b c Hb) as (top & k' & Hadv & _).
    rewrite Hadv. revert Hc. now apply I_frame.
  - unfold advance_voice.
    now erewrite bind_raise by (apply get_voice_beat_none, Hb).
Qed.

Lemma process_elem_I (start md : Q) (e : elem) :
  hoare Iv (process_elem start md e) (fun _ c => Iv c).
Proof.
  destruct e as [[v |] | n | [d |] | [d |] | tag]; try (now apply hoare_ret).
  - intros c Hc. revert Hc. now apply I_frame.
  - unfold process_elem.
    eapply hoare_bind with (Q := fun _ c => Iv c).
    { destruct (e_duration n); [apply duration_to_beats_I | now apply hoare_ret]. }
    intros db. cbv zeta.
    eapply hoare_bind with (Q := fun _ c => Iv c).
    { intros c Hc. rewrite seed_voice_ok. now apply I_seeded. }
    intros []. eapply hoare_bind with (Q := fun _ c => Iv c).
    { apply hoare_when; [| auto]. intros _ c Hc.
      destruct (voice_beats c !! voice_key (elem_voice n) (elem_staff n)) as [b |] eqn:E.
      - erewrite bind_ok by (apply get_voice_beat_ok, E). revert Hc. now apply I_frame.
      - now erewrite bind_raise by (apply get_voice_beat_none, E). }
    intros []. eapply hoare_bind; [apply process_note_element_I |].
    intros note. eapply hoare_bind with (Q := fun _ c => Iv c).
    { destruct note as [r |]; [apply add_note_I |]. apply hoare_ret. tauto. }
    intros []. destruct (e_chord n); [now apply hoare_ret | apply advance_voice_I].
  - unfold process_elem. eapply hoare_bind; [apply duration_to_beats_I |].
    intros q c Hc. revert Hc. now apply I_frame.
  - unfold process_elem. eapply hoare_bind; [apply duration_to_beats_I |].
    intros q c Hc. revert Hc. now apply I_frame.
Qed.

Lemma elems_I (start md : Q) (es : list elem) :
  hoare Iv (for_each (process_elem start) es md) (fun _ c => Iv c).
Proof.
  apply (hoare_for_each (fun _ c => Iv c) (fun _ => True)).
  - intros acc x _. apply process_elem_I.
  - now apply Forall_forall.
Qed.

Lemma process_measure_I (m : measure) :
  hoare Iv (process_measure m) (fun _ c => Iv c).
Proof.
  intros c Hc. rewrite process_measure_eq.
  pose proof (elems_I (current_beat c) 0%Q m c Hc) as H.
  destruct (for_each _ m 0%Q c) as [[md c'] |]; [| exact I].
  unfold end_measure. destruct (Qltb 0 md); [| exact H]. revert H. now apply I_frame.
Qed.

Lemma measures_I (ms : list measure) :
  hoare Iv (for_each (fun _ m => process_measure m) ms tt) (fun _ c => Iv c).
Proof.
  apply (hoare_for_each (fun _ c => Iv c) (fun _ => True)).
  - intros [] m _. apply process_measure_I.
  - now apply Forall_forall.
Qed.

Lemma process_part_I (p : part) : hoare Iv (process_part p) (fun _ c => Iv c).
Proof.
  intros c Hc. rewrite process_part_eq. apply measures_I. revert Hc. now apply I_frame.
Qed.

Lemma parts_I (ps : list part) :
  hoare Iv (for_each (fun _ p => process_part p) ps tt) (fun _ c => Iv c).
Proof.
  apply (hoare_for_each (fun _ c => Iv c) (fun _ => True)).
  - intros [] p _. apply process_part_I.
  - now apply Forall_forall.
Qed.

(** The rest of a conversion keeps [Iv], and returns the song of the
    converter it ends in. *)
Lemma convert_from_I (start md : Q) (es : list elem) (ms : list measure)
    (ps : list part) (t : string) :
  hoare Iv (convert_from start md es ms ps t)
        (fun s c => Iv c /\ s = mkSong t 120 (sort_by_beat (emitted c))).
Proof.
  unfold convert_from.
  eapply hoare_bind; [apply elems_I |].
  intros md1. eapply hoare_bind with (Q := fun _ c => Iv c).
  { apply hoare_when; [| auto]. intros _ c Hc. revert Hc. now apply I_frame. }
  intros []. eapply hoare_bind; [apply measures_I |].
  intros []. eapply hoare_bind; [apply parts_I |].
  intros [] c Hc. now split.
Qed.

End Lift.

(** ** A merged note stays as it is *)

Lemma settled_frame (r : ref) (x x2 : Note) (base : list ref) (c c' : Converter) :
  heap c' = heap c -> notes c' = notes c -> active_ties c' = active_ties c ->
  settled r x x2 base c -> settled r x x2 base c'.
Proof. unfold settled. now intros -> -> ->. Qed.

Lemma settled_note (r : ref) (x x2 : Note) (base : list ref) (n : note_elem) (ch : bool)
    (x0 : Note) (c : Converter) :
  settled r x x2 base c ->
  settled r x x2 base
    (after_add_note n ch (length (heap c)) x0 (set_heap (heap c ++ [x0]) c)).
Proof.
  intros (Hx & Hx2 & (later & Hnotes & Hlater) & Hties).
  pose proof (lookup_lt_Some _ _ _ Hx2) as Hlen.
  unfold after_add_note.
  set (r' := length (heap c)) in *.
  set (c0 := set_heap (heap c ++ [x0]) c).
  set (x' := if ch then set_beat (chord_start_beat c0) x0 else x0).
  set (c1 := if ch then set_heap (alter (set_beat (chord_start_beat c0)) r' (heap c0)) c0
             else c0).
  assert (H1 : heap c1 !! r = Some x /\ heap c1 !! S r = Some x2 /\
               notes c1 = notes c /\ active_ties c1 = active_ties c).
  { assert (H0 : heap c0 !! r = Some x).
    { subst c0. cbn [heap set_heap]. rewrite lookup_app_l by lia. exact Hx. }
    assert (H0' : heap c0 !! S r = Some x2).
    { subst c0. cbn [heap set_heap]. rewrite lookup_app_l by lia. exact Hx2. }
    subst c1. destruct ch; cbn [heap set_heap notes active_ties].
    - rewrite !list_lookup_alter_ne by lia. now repeat split.
    - now repeat split. }
  destruct H1 as (Hx1 & Hx21 & Hn1 & Ht1).
  unfold open_tie.
  destruct (if e_tie_stop n
            then active_ties c0 !! (pitch x', voice x', staff x') else None)
    as [a |] eqn:Hopen.
  - assert (Ha : a <> r /\ a <> S r).
    { destruct (e_tie_stop n); [| discriminate]. now apply Hties in Hopen. }
    destruct Ha as [Ha Ha2].
    assert (H2 : settled r x x2 base
                   (set_heap (alter (add_duration (duration x')) a (heap c1)) c1)).
    { unfold settled. cbn [heap set_heap notes active_ties].
      rewrite !list_lookup_alter_ne by assumption. rewrite Hn1, Ht1.
      split; [exact Hx1 |]. split; [exact Hx21 |]. split; [now exists later |].
      exact Hties. }
    destruct (e_tie_start n); [exact H2 |].
    destruct H2 as (E1 & E2 & E3 & E4). unfold settled.
    cbn [heap set_heap notes active_ties set_active_ties] in *.
    split; [exact E1 |]. split; [exact E2 |]. split; [exact E3 |].
    intros k a0 Hk. apply lookup_delete_Some in Hk. destruct Hk as [_ Hk].
    now apply E4 in Hk.
  - assert (Hnew : forall c2, heap c2 = heap c1 -> notes c2 = notes c1 ->
               (forall k a, active_ties c2 !! k = Some a -> a <> r /\ a <> S r) ->
               settled r x x2 base (set_notes (notes c2 ++ [r']) c2)).
    { intros c2 E1 E2 E3. unfold settled.
      cbn [heap notes active_ties set_notes]. rewrite E1, E2, Hn1.
      split; [exact Hx1 |]. split; [exact Hx21 |]. split; [| exact E3].
      exists (later ++ [r']). split.
      - rewrite Hnotes. now rewrite <- app_assoc.
      - apply Forall_app. split; [exact Hlater |]. constructor; [exact Hlen | constructor]. }
    destruct (e_tie_start n).
    + apply Hnew; try reflexivity. cbn [active_ties set_active_ties]. rewrite Ht1.
      intros k a. rewrite lookup_insert. case_decide.
      * intros [= <-]. lia.
      * apply Hties.
    + apply Hnew; try reflexivity. rewrite Ht1. exact Hties.
Qed.

(** ** Elements that leave the merger alone *)

Lemma held_frame (h : list Note) (ns : list ref) (ts : gmap TieKey ref) (dv : Z)
    (l : list elem) (c c' : Converter) :
  heap c' = heap c -> notes c' = notes c -> active_ties c' = active_ties c ->
  divisions c' = divisions c -> held h ns ts dv l c -> held h ns ts dv l c'.
Proof. unfold held. now intros -> -> -> ->. Qed.

(** An element with a duration stops the conversion when the divisions are 0. *)
Lemma timed_step_zero (e : elem) (start md : Q) (c : Converter) :
  timed e = true -> divisions c = 0 ->
  process_elem start md e c = Raise ZeroDivisionError.
Proof.
  intros He Hc.
  assert (Hd : forall d, duration_to_beats d c = Raise ZeroDivisionError).
  { intros d. unfold duration_to_beats. now destruct (decide (divisions c = 0)). }
  destruct e as [[v |] | n | [d |] | [d |] | tag]; try discriminate; unfold process_elem.
  - cbn [timed] in He. apply bool_decide_eq_true in He. destruct He as [d Hn].
    rewrite Hn. now apply bind_raise.
  - now apply bind_raise.
  - now apply bind_raise.
Qed.

Lemma held_step (h : list Note) (ns : list ref) (ts : gmap TieKey ref) (dv : Z)
    (e : elem) (l : list elem) (start md : Q) (c : Converter) :
  negb (is_note e) = true -> held h ns ts dv (e :: l) c ->
  (exists x, process_elem start md e c = Raise x /\ True) \/
  (exists md' c', process_elem start md e c = Ok (md', c') /\ held h ns ts dv l c').
Proof.
  intros He (H1 & H2 & H3 & H4).
  destruct e as [[v |] | n | [d |] | [d |] | tag]; try discriminate;
    try (right; eexists _, _; split; [reflexivity |]; now repeat split);
    (destruct (decide (divisions c = 0)) as [Hz | Hz];
     [left; exists ZeroDivisionError; split; [| exact I];
      now apply timed_step_zero
     | right; unfold process_elem;
       erewrite bind_ok by (now apply duration_to_beats_ok);
       eexists _, _; split; [reflexivity |]; now repeat split]).
Qed.

(** A note element without a duration is processed without a division. *)
Lemma process_elem_no_duration (n : note_elem) (start md : Q) (c : Converter) :
  e_duration n = None ->
  exists md' c', process_elem start md (NoteElem n) c = Ok (md', c') /\
    divisions c' = divisions c.
Proof.
  intros Hd. unfold process_elem. rewrite Hd.
  set (key := voice_key (elem_voice n) (elem_staff n)).
  erewrite bind_ok by reflexivity.
  erewrite bind_ok by apply seed_voice_ok.
  erewrite bind_ok by (apply set_anchor_ok, lookup_seeded).
  set (c2 := if e_chord n then seeded key c else _).
  assert (Hdiv2 : divisions c2 = divisions c).
  { subst c2. destruct (e_chord n); simpl; apply divisions_seeded. }
  assert (Hvb2 : voice_beats c2 !! key = Some (default (current_beat c) (voice_beats c !! key))).
  { subst c2. destruct (e_chord n); simpl; apply lookup_seeded. }
  erewrite bind_ok by (now apply process_note_element_no_duration).
  erewrite bind_ok by reflexivity.
  destruct (e_chord n).
  - eexists _, _. split; [reflexivity | exact Hdiv2].
  - destruct (advance_voice_ok key 0 start md _ c2 Hvb2) as (top & k' & Hadv & _).
    rewrite Hadv. eexists _, _. split; [reflexivity | exact Hdiv2].
Qed.

Lemma zero_step (e : elem) (l : list elem) (start md : Q) (c : Converter) :
  negb (timed e || redeclares e) = true -> divisions c = 0 ->
  (exists x, process_elem start md e c = Raise x /\ x = ZeroDivisionError) \/
  (exists md' c', process_elem start md e c = Ok (md', c') /\ divisions c' = 0).
Proof.
  intros He Hc. right.
  apply negb_true_iff, orb_false_iff in He. destruct He as [Ht Hr].
  destruct e as [[v |] | n | [d |] | [d |] | tag]; try discriminate;
    try (eexists _, _; split; [reflexivity | exact Hc]).
  - cbn [redeclares] in Hr. apply negb_false_iff, Z.eqb_eq in Hr. subst v.
    eexists _, _. split; reflexivity.
  - cbn [timed] in Ht. apply bool_decide_eq_false in Ht.
    destruct (e_duration n) as [d |] eqn:Hd; [exfalso; apply Ht; eauto |].
    destruct (process_elem_no_duration n start md c Hd) as (md' & c' & Hrun & Hdiv).
    exists md', c'. split; [exact Hrun | congruence].
Qed.

(** ** The state at a point of the document *)

Lemma convert_upto_wf (ps : list part) (ms : list measure) (es : list elem)
    (x : Q * Q) (c : Converter) :
  convert_upto ps ms es init = Ok (x, c) -> wf c.
Proof.
  intros Hrun. unfold convert_upto in Hrun.
  do 4 (erewrite bind_ok in Hrun by reflexivity).
  set (c0 := set_voice_beats ∅ _) in Hrun.
  assert (H0 : wf c0).
  { unfold wf. subst c0. simpl. repeat split; try constructor.
    intros k a Hk. now rewrite lookup_empty in Hk. }
  assert (H : hoare wf
            (for_each (fun _ p => process_part p) ps tt;;
             modify (set_current_beat 0%Q);;
             modify (set_voice_beats ∅);;
             for_each (fun _ m => process_measure m) ms tt;;
             c ← get;
             measure_duration ← for_each (process_elem (current_beat c)) es 0%Q;
             mret (current_beat c, measure_duration))
            (fun _ c => wf c)).
  { eapply hoare_bind with (Q := fun _ c => wf c).
    { apply (hoare_for_each (fun _ c => wf c) (fun _ => True)).
      - intros [] p _. apply process_part_wf.
      - now apply Forall_forall. }
    intros []. eapply hoare_bind with (Q := fun _ c => wf c).
    { intros c1 Hc. revert Hc. now apply wf_frame. }
    intros []. eapply hoare_bind with (Q := fun _ c => wf c).
    { intros c1 Hc. revert Hc. now apply wf_frame. }
    intros []. eapply hoare_bind with (Q := fun _ c => wf c).
    { apply (hoare_for_each (fun _ c => wf c) (fun _ => True)).
      - intros [] m _. apply process_measure_wf.
      - now apply Forall_forall. }
    intros []. eapply hoare_bind with (Q := fun _ c => wf c).
    { intros c1 Hc. exact Hc. }
    intros c1. eapply hoare_bind with (Q := fun _ c => wf c).
    { apply (hoare_for_each (fun _ c => wf c) (fun _ => True)).
      - intros acc e _. apply process_elem_wf.
      - now apply Forall_forall. }
    intros md c2 Hc. exact Hc. }
  specialize (H c0 H0). cbv zeta in Hrun. now rewrite Hrun in H.
Qed.

Lemma length_heap_after_add_note (n : note_elem) (ch : bool) (r : ref) (x0 : Note)
    (c : Converter) :
  length (heap (after_add_note n ch r x0 c)) = length (heap c).
Proof.
  unfold after_add_note.
  destruct (open_tie _ _ _), (e_tie_start n), ch;
    cbn [heap set_heap set_active_ties set_notes]; now rewrite ?length_alter.
Qed.

(** The [Note] of a continuation: the newest object of the store, with the
    element's pitch and its own duration. *)
Lemma continuation_object (n : note_elem) (c c' : Converter) (d m : Z) (p : pitch_elem)
    (start md md' : Q) (a : ref) :
  divisions c <> 0 -> e_duration n = Some d -> e_rest n = false ->
  e_pitch n = Some p ->
  pitch_to_midi (p_step p) (default 0 (p_alter p)) (p_octave p) = Ok m ->
  e_tie_stop n = true ->
  active_ties c !! (m, elem_voice n, elem_staff n) = Some a ->
  (a < length (heap c))%nat ->
  process_elem start md (NoteElem n) c = Ok (md', c') ->
  exists x2, heap c' !! length (heap c) = Some x2 /\
    pitch x2 = m /\ duration x2 = (inject_Z d / inject_Z (divisions c))%Q /\
    voice x2 = elem_voice n /\ staff x2 = elem_staff n.
Proof.
  intros Hdiv Hd Hrest Hp Hm Hstop Hopen Hlt Hrun.
  destruct (process_elem_pitched_frame n c d m p start md Hdiv Hd Hrest Hp Hm)
    as (md1 & c1 & Hrun1 & _ & Hh & _).
  rewrite Hrun in Hrun1. injection Hrun1 as -> ->. rewrite Hh. clear Hrun Hh.
  set (key := voice_key (elem_voice n) (elem_staff n)).
  set (b0 := default (current_beat c) (voice_beats c !! key)).
  destruct (anchored_frame key (e_chord n) b0 c) as (F1 & F2 & F3 & F4 & F5).
  set (c2 := if e_chord n then seeded key c else set_chord_start_beat b0 (seeded key c)) in *.
  unfold after_add_note, open_tie.
  cbn [heap set_heap active_ties chord_start_beat notes divisions].
  destruct (e_chord n); cbn [pitch voice staff set_beat duration];
    rewrite Hstop, F2, Hopen;
    destruct (e_tie_start n);
    cbn [heap set_heap active_ties chord_start_beat notes divisions set_notes
         set_active_ties];
    rewrite list_lookup_alter_ne by lia;
    rewrite ?list_lookup_alter_eq, list_lookup_middle by reflexivity;
    eexists; (split; [reflexivity |]); now repeat split.
Qed.

Lemma find_negb_negb {A : Type} (f : A -> bool) (l : list A) :
  find (fun x => negb (negb (f x))) l = find f l.
Proof.
  induction l as [| x l IH]; [reflexivity |]. simpl. rewrite negb_involutive.
  now rewrite IH.
Qed.

(** ** C3: a tie-start note and its tie-stop continuation *)

(** C3, as the code has it.  Take a note element with a tie-start marker
    that is not itself merged into an open tie (it has no tie-stop marker, or
    no tie is open for its pitch, voice and staff when it is reached), and
    let the next note element of the document have the same pitch, voice and
    staff, a tie-stop marker and no tie-start; barlines, attributes, backups,
    forwards and other elements may lie between the two.  Then a conversion
    that completes has exactly one [Note] for the pair in its output list:
    the object created for the first element, with the first note's onset
    and the duration [d1 + d2] in beats, each duration divided by the
    divisions in force at its note.  What comes before it in the list was
    there before the pair, and what comes after it was created after the
    second note; the [Note] created for the second element, the next object
    of the store with that element's own duration, is not in the list.  The
    song has the merged note with its beat and duration quantized. *)
Theorem tie_pair_merged (doc : document) (ps1 ps2 : list part) (ms1 ms2 : list measure)
    (pre rest : list elem) (n1 n2 : note_elem) (d1 d2 m : Z) (p1 p2 : pitch_elem)
    (start md : Q) (c cf : Converter) (s : song) :
  parts doc = ps1 ++ (ms1 ++ (pre ++ NoteElem n1 :: rest) :: ms2) :: ps2 ->
  find is_note (following rest ms2 ps2) = Some (NoteElem n2) ->
  e_duration n1 = Some d1 -> e_rest n1 = false -> e_pitch n1 = Some p1 ->
  pitch_to_midi (p_step p1) (default 0 (p_alter p1)) (p_octave p1) = Ok m ->
  e_duration n2 = Some d2 -> e_rest n2 = false -> e_pitch n2 = Some p2 ->
  pitch_to_midi (p_step p2) (default 0 (p_alter p2)) (p_octave p2) = Ok m ->
  elem_voice n2 = elem_voice n1 -> elem_staff n2 = elem_staff n1 ->
  e_tie_start n1 = true -> e_tie_stop n2 = true -> e_tie_start n2 = false ->
  convert_upto ps1 ms1 pre init = Ok ((start, md), c) ->
  e_tie_stop n1 = false \/ active_ties c !! (m, elem_voice n1, elem_staff n1) = None ->
  convert_file doc init = Ok (s, cf) ->
  let r := length (heap c) in
  let onset := onset_of n1 c in
  let total := (inject_Z d1 / inject_Z (divisions c)
                + inject_Z d2 / inject_Z (declared (divisions c) (following rest ms2 ps2)))%Q in
  exists later,
    notes cf = notes c ++ r :: later /\
    Forall (fun a => (a < r)%nat) (notes c) /\
    Forall (fun a => (S r < a)%nat) later /\
    heap cf !! r = Some (mkNote m onset total 80 (elem_voice n1) (elem_staff n1)) /\
    (exists x2, heap cf !! S r = Some x2 /\ pitch x2 = m /\
       duration x2 = (inject_Z d2 / inject_Z (declared (divisions c) (following rest ms2 ps2)))%Q /\
       voice x2 = elem_voice n1 /\ staff x2 = elem_staff n1) /\
    (S r ∉ notes cf) /\
    song_notes s ≡ₚ
      map (fun a => to_json (heap cf !!! a)) (notes c) ++
      mkJson m (round_beat onset) (round_beat total) 80 ::
      map (fun a => to_json (heap cf !!! a)) later.
Proof.
  intros Hparts Hnext Hd1 Hr1 Hp1 Hm1 Hd2 Hr2 Hp2 Hm2 Hv Hs Hstart1 Hstop2 Hstart2
         Hupto Hfresh Hrun r onset total.
  pose proof (convert_upto_wf _ _ _ _ _ Hupto) as (Hvalid & _ & Hheld & _).
  rewrite (convert_split doc ps1 ps2 ms1 ms2 pre (NoteElem n1 :: rest) init Hparts),
    Hupto in Hrun.
  set (t := default "Untitled"%string (work_title doc)) in Hrun.
  (* the first note *)
  rewrite convert_from_cons in Hrun.
  assert (Hdiv : divisions c <> 0).
  { intros Hz. rewrite (timed_step_zero (NoteElem n1) start md c) in Hrun;
      [discriminate | | exact Hz].
    cbn [timed]. apply bool_decide_eq_true. rewrite Hd1. eauto. }
  destruct (anchor_step n1 c d1 m p1 start md Hdiv Hd1 Hr1 Hp1 Hm1 Hstart1 Hfresh)
    as (md1 & c1 & Hrun1 & Hdv1 & Hn1 & Hh1 & Ht1).
  rewrite Hrun1 in Hrun.
  (* up to the second note *)
  set (dv2 := declared (divisions c) (following rest ms2 ps2)) in *.
  rewrite <- (find_negb_negb is_note) in Hnext.
  destruct (reaches_all (fun e => negb (is_note e))
              (held (heap c1) (notes c1) (active_ties c1) dv2) (fun _ => True) t
              (held_step _ _ _ _) (held_frame _ _ _ _)
              ps2 ms2 rest start md1 c1 (NoteElem n2))
    as [(x & Hx & _) | (start' & md' & es' & ms' & ps' & c1' & (G1 & G2 & G3 & G4) & Heq)];
    [unfold held; rewrite Hdv1; now repeat split | exact Hnext
    | rewrite Hx in Hrun; discriminate |].
  rewrite Heq, convert_from_cons in Hrun. clear Heq.
  change (divisions c1' = dv2) in G4.
  (* the second note *)
  set (x1 := mkNote m (onset_of n1 c) (inject_Z d1 / inject_Z (divisions c))%Q 80
                    (elem_voice n1) (elem_staff n1)) in *.
  assert (Hdiv1 : divisions c1' <> 0).
  { intros Hz. rewrite (timed_step_zero (NoteElem n2) start' md' c1') in Hrun;
      [discriminate | | exact Hz].
    cbn [timed]. apply bool_decide_eq_true. rewrite Hd2. eauto. }
  assert (Hopen : active_ties c1' !! (m, elem_voice n2, elem_staff n2) = Some r).
  { rewrite G3, Ht1, Hv, Hs. apply lookup_insert_eq. }
  assert (Ha : heap c1' !! r = Some x1).
  { rewrite G1, Hh1. now apply list_lookup_middle. }
  destruct (continuation_step n2 c1' d2 m p2 start' md' r x1
              Hdiv1 Hd2 Hr2 Hp2 Hm2 Hstop2 Hstart2 Hopen Ha)
    as (md2 & c2 & Hrun2 & Hdv2 & Hn2 & Hh2 & Ht2).
  destruct (continuation_object n2 c1' c2 d2 m p2 start' md' md2 r
              Hdiv1 Hd2 Hr2 Hp2 Hm2 Hstop2 Hopen (lookup_lt_Some _ _ _ Ha) Hrun2)
    as (x2 & Hx2 & Hp2' & Hd2' & Hv2' & Hs2').
  assert (Hnext2 : length (heap c1') = S r).
  { rewrite G1, Hh1, length_app. simpl. fold r. lia. }
  rewrite Hnext2 in Hx2.
  rewrite Hrun2 in Hrun.
  (* the rest of the conversion *)
  set (xm := mkNote m onset total 80 (elem_voice n1) (elem_staff n1)).
  assert (Hold : Forall (fun a => (a < r)%nat) (notes c)) by exact Hvalid.
  assert (HS : settled r xm x2 (notes c) c2).
  { unfold settled. split; [| split; [| split]].
    - rewrite Hh2, G4. reflexivity.
    - exact Hx2.
    - exists []. split; [| constructor]. now rewrite Hn2, G2, Hn1.
    - intros k a. rewrite Ht2, G3, Ht1. intros Hk.
      apply lookup_delete_Some in Hk. destruct Hk as [Hne Hk].
      rewrite Hv, Hs in Hne. rewrite lookup_insert_ne in Hk by exact Hne.
      apply Hheld in Hk. apply (proj1 (Forall_forall _ _) Hold) in Hk. lia. }
  pose proof (convert_from_I (settled r xm x2 (notes c)) (settled_frame r xm x2 (notes c))
                (settled_note r xm x2 (notes c)) start' md2 es' ms' ps' t c2 HS) as Hend.
  rewrite Hrun in Hend.
  destruct Hend as ((Hx & Hx2f & (later & Hnotes & Hlater) & _) & ->).
  exists later. split; [exact Hnotes |]. split; [exact Hold |].
  split; [exact Hlater |]. split; [exact Hx |].
  split.
  { exists x2. split; [exact Hx2f |]. split; [exact Hp2' |].
    split; [now rewrite Hd2', G4 |]. split; [now rewrite Hv2', Hv | now rewrite Hs2', Hs]. }
  split.
  { rewrite Hnotes. intros Hin. apply elem_of_app in Hin. destruct Hin as [Hin | Hin].
    - apply (proj1 (Forall_forall _ _) Hold) in Hin. lia.
    - apply elem_of_cons in Hin. destruct Hin as [Hin | Hin]; [lia |].
      apply (proj1 (Forall_forall _ _) Hlater) in Hin. lia. }
  cbn [song_notes]. rewrite sort_by_beat_perm. unfold emitted.
  rewrite Hnotes, map_app. cbn [map].
  now rewrite (list_lookup_total_correct _ _ _ Hx).
Qed.

(** A tie over a barline: the two quarters are one note of two beats. *)
Lemma tie_pair_merged_witness :
  exists start md c cf s,
    convert_upto [] [] [Attributes (Some 24)] init = Ok ((start, md), c) /\
    convert_file tie_over_barline init = Ok (s, cf) /\
    exists later,
      notes cf = notes c ++ length (heap c) :: later /\
      heap cf !! length (heap c) = Some (mkNote 60 0%Q (24 / 24 + 24 / 24)%Q 80 "1" 1) /\
      song_notes s ≡ₚ
        map (fun a => to_json (heap cf !!! a)) (notes c) ++
        mkJson 60 (round_beat 0) (round_beat (24 / 24 + 24 / 24)) 80 ::
        map (fun a => to_json (heap cf !!! a)) later.
Proof.
  eexists _, _, _, _, _.
  split; [vm_compute; reflexivity |]. split; [vm_compute; reflexivity |].
  destruct (tie_pair_merged tie_over_barline [] [] []
              [[Attributes None; NoteElem (tied_note "C" 4 24 true false)]]
              [Attributes (Some 24)] [OtherElem "barline"]
              (tied_note "C" 4 24 false true) (tied_note "C" 4 24 true false)
              24 24 60 (mkPitch "C" None 4) (mkPitch "C" None 4)
              0%Q 0%Q (set_divisions 24 init))
    with (cf := ltac:(let x := eval vm_compute in (convert_file tie_over_barline init) in
                      match x with Ok (_, ?c) => exact c end))
         (s := ltac:(let x := eval vm_compute in (convert_file tie_over_barline init) in
                      match x with Ok (?s, _) => exact s end))
    as (later & H1 & _ & _ & H2 & _ & _ & H3).
  - reflexivity.
  - reflexivity.
  - reflexivity.
  - reflexivity.
  - reflexivity.
  - vm_compute. reflexivity.
  - reflexivity.
  - reflexivity.
  - reflexivity.
  - vm_compute. reflexivity.
  - reflexivity.
  - reflexivity.
  - reflexivity.
  - reflexivity.
  - reflexivity.
  - vm_compute. reflexivity.
  - left. reflexivity.
  - vm_compute. reflexivity.
  - exists later. split; [exact H1 |]. split; [exact H2 | exact H3].
Defined.

(** C3 fails as stated.  In a chain of three tied quarters the second and
    the third note are a pair of the kind the claim speaks of: the same
    pitch, voice and staff, the second with a tie-start marker, the third
    with a tie-stop marker and no tie-start.  But the second is itself merged
    into the tie the first one opened, so the output list at the end is what
    it was before the pair: no [Note] stands for the pair, and the one note
    of the song starts at beat 0 and lasts 3 beats, where the claim asks for
    a note at beat 1 of 2 beats. *)
Lemma chain_pair_adds_no_note :
  exists start md c cf s,
    parts tie_chain =
      [] ++ ([] ++ ([Attributes (Some 24); NoteElem (tied_note "C" 4 24 false true)] ++
                    NoteElem (tied_note "C" 4 24 true true) ::
                    [NoteElem (tied_note "C" 4 24 true false)]) :: []) :: [] /\
    convert_upto [] [] [Attributes (Some 24); NoteElem (tied_note "C" 4 24 false true)] init
      = Ok ((start, md), c) /\
    (onset_of (tied_note "C" 4 24 true true) c == 1)%Q /\
    convert_file tie_chain init = Ok (s, cf) /\
    notes cf = notes c /\
    song_notes s = [mkJson 60 0%Q 3%Q 80].
Proof.
  eexists _, _, _, _, _.
  split; [reflexivity |]. split; [vm_compute; reflexivity |].
  split; [vm_compute; reflexivity |]. split; [vm_compute; reflexivity |].
  split; reflexivity.
Qed.

(** ** Divisions of zero *)

(** X14. Once a measure has declared 0 divisions, the conversion stops with
    [ZeroDivisionError] at the next element with a duration (a note, a rest,
    a backup or a forward), in the same measure, a later one or a later part,
    unless divisions other than 0 are declared before that element: whatever
    follows, and even when the note's step letter is unknown.  Elements
    without a duration in between are processed without a division. *)
Theorem zero_divisions_stop (doc : document) (ps1 ps2 : list part) (ms1 ms2 : list measure)
    (pre rest : list elem) (e : elem) (start md : Q) (c0 c : Converter) :
  parts doc = ps1 ++ (ms1 ++ (pre ++ Attributes (Some 0) :: rest) :: ms2) :: ps2 ->
  convert_upto ps1 ms1 pre c0 = Ok ((start, md), c) ->
  find (fun e => timed e || redeclares e) (following rest ms2 ps2) = Some e ->
  timed e = true ->
  convert_file doc c0 = Raise ZeroDivisionError.
Proof.
  intros Hparts Hupto Hfind He.
  rewrite (convert_split doc ps1 ps2 ms1 ms2 pre (Attributes (Some 0) :: rest) c0 Hparts),
    Hupto.
  set (t := default "Untitled"%string (work_title doc)).
  rewrite convert_from_cons.
  change (process_elem start md (Attributes (Some 0)) c) with (Ok (md, set_divisions 0 c)).
  rewrite <- (find_negb_negb (fun e => timed e || redeclares e)) in Hfind.
  destruct (reaches_all (fun e => negb (timed e || redeclares e))
              (fun _ c => divisions c = 0) (fun x => x = ZeroDivisionError) t
              (fun e l start md c => zero_step e l start md c)
              (fun l c c' _ _ _ Hd Hc => eq_trans Hd Hc)
              ps2 ms2 rest start md (set_divisions 0 c) e eq_refl Hfind)
    as [(x & Hx & ->) | (start' & md' & es' & ms' & ps' & c' & Hc' & Heq)];
    [exact Hx |].
  rewrite Heq, convert_from_cons. now rewrite (timed_step_zero e start' md' c' He Hc').
Qed.

Lemma zero_divisions_stop_witness :
  convert_file zero_divisions_later init = Raise ZeroDivisionError.
Proof.
  apply (zero_divisions_stop zero_divisions_later [] [] []
           [[Attributes None; NoteElem no_duration_note; NoteElem (plain_note "H" 4 24);
             NoteElem (plain_note "C" 4 24)]]
           [Attributes (Some 24); NoteElem (plain_note "C" 4 24)] [OtherElem "barline"]
           (NoteElem (plain_note "H" 4 24))
           ltac:(let x := eval vm_compute in
                   (convert_upto [] [] [Attributes (Some 24); NoteElem (plain_note "C" 4 24)] init)
                 in match x with Ok ((?a, _), _) => exact a end)
           ltac:(let x := eval vm_compute in
                   (convert_upto [] [] [Attributes (Some 24); NoteElem (plain_note "C" 4 24)] init)
                 in match x with Ok ((_, ?a), _) => exact a end)
           init
           ltac:(let x := eval vm_compute in
                   (convert_upto [] [] [Attributes (Some 24); NoteElem (plain_note "C" 4 24)] init)
                 in match x with Ok (_, ?a) => exact a end)).
  - reflexivity.
  - vm_compute. reflexivity.
  - reflexivity.
  - reflexivity.
Defined.
